(** * File-helper: the document services (src/services/docService.ts)

    A shallow embedding of the placeholder scanner, the table-fragment
    builder, the CSV export and the two generators, with the properties
    the specification states about them. *)

From stdpp Require Import base numbers list gmap strings.

Open Scope N_scope.

(** ** JS strings

    A JS string is a sequence of UTF-16 code units.  String literals of
    the source are written as Rocq literals (UTF-8 in this file) and
    decoded by [js]. *)

Abbreviation jsstring := (list N).

Module Literal.

Definition bytes (s : string) : list N :=
    map Ascii.N_of_ascii (String.list_ascii_of_string s).

Definition low6 (b : N) : N := N.land b 63.

  (** UTF-8 bytes to code points; a truncated sequence gives U+FFFD. *)
Fixpoint codePoints (bs : list N) : list N :=
    match bs with
    | [] => []
    | b0 :: r0 =>
      if b0 <? 128 then b0 :: codePoints r0 else
      match r0 with
      | [] => [65533]
      | b1 :: r1 =>
        if b0 <? 224 then
          N.lor (N.shiftl (N.land b0 31) 6) (low6 b1) :: codePoints r1
        else
        match r1 with
        | [] => [65533]
        | b2 :: r2 =>
          if b0 <? 240 then
            N.lor (N.shiftl (N.land b0 15) 12)
                  (N.lor (N.shiftl (low6 b1) 6) (low6 b2)) :: codePoints r2
          else
          match r2 with
          | [] => [65533]
          | b3 :: r3 =>
            N.lor (N.shiftl (N.land b0 7) 18)
                  (N.lor (N.shiftl (low6 b1) 12)
                         (N.lor (N.shiftl (low6 b2) 6) (low6 b3)))
              :: codePoints r3
          end
        end
      end
    end.

  (** A code point as UTF-16: itself in the basic plane, a surrogate
      pair above it. *)
Definition codeUnits (cp : N) : list N :=
    if cp <? 65536 then [cp]
    else let v := cp - 65536 in
         [55296 + N.shiftr v 10; 56320 + N.land v 1023].

Definition js (s : string) : jsstring :=
    flat_map codeUnits (codePoints (bytes s)).

  (** Markup literals hold many double quotes; they are written here
      with an apostrophe in place of each (the source's markup literals
      hold no apostrophe). *)
Definition xml (s : string) : jsstring :=
    map (fun c => if c =? 39 then 34 else c) (js s).

End Literal.
Export Literal.

(** ** String.prototype methods used by the services *)

(** WhiteSpace and LineTerminator code points, as [trim] strips them. *)
Definition isWhiteSpace (c : N) : bool :=
  (9 <=? c) && (c <=? 13) || (c =? 32) || (c =? 160) || (c =? 5760)
  || (8192 <=? c) && (c <=? 8202)
  || (c =? 8232) || (c =? 8233) || (c =? 8239) || (c =? 8287)
  || (c =? 12288) || (c =? 65279).

Fixpoint trimStart (s : jsstring) : jsstring :=
  match s with
  | [] => []
  | c :: r => if isWhiteSpace c then trimStart r else s
  end.

Definition trimEnd (s : jsstring) : jsstring := rev (trimStart (rev s)).

Definition trim (s : jsstring) : jsstring := trimEnd (trimStart s).

Fixpoint startsWith (s pat : jsstring) {struct pat} : bool :=
  match pat, s with
  | [], _ => true
  | _ :: _, [] => false
  | p :: pat', c :: s' => (c =? p) && startsWith s' pat'
  end.

(** [s.includes(pat)] *)
Fixpoint includes (s pat : jsstring) : bool :=
  startsWith s pat ||
  match s with
  | [] => false
  | _ :: r => includes r pat
  end.

(** [s.replace(/c/g, rep)] for a one-character pattern. *)
Definition replaceAll (c : N) (rep : jsstring) (s : jsstring) : jsstring :=
  flat_map (fun x => if x =? c then rep else [x]) s.

(** ** The placeholder scanner *)

(** [PLACEHOLDER_REGEX = /\{-([\s\S]+?)-\}/g] *)

Record RegExpMatch := mkMatch {
  whole : jsstring;   (* match[0] *)
  group1 : jsstring   (* match[1] *)
}.

Definition OPEN : jsstring := js "{-".
Definition CLOSE : jsstring := js "-}".

(** The lazy body after its first character: the shortest run of code
    units that is followed by [-}]. *)
Fixpoint lazyBody (s : jsstring) : option jsstring :=
  if startsWith s CLOSE then Some [] else
  match s with
  | [] => None
  | c :: r => cons c <$> lazyBody r
  end.

(** One attempt of the pattern at the start of [s]. *)
Definition execAt (s : jsstring) : option RegExpMatch :=
  if startsWith s OPEN then
    match drop 2 s with
    | [] => None
    | c :: r =>
      (fun b => mkMatch (OPEN ++ c :: b ++ CLOSE) (c :: b)) <$> lazyBody r
    end
  else None.

(** [text.matchAll(re)]: the pattern is tried at each position from the
    left; after a match the search resumes behind it ([skip] counts the
    code units of the last match still to be passed). *)
Fixpoint matchAllFrom (skip : nat) (s : jsstring) : list RegExpMatch :=
  match s with
  | [] => []
  | _ :: r =>
    match skip with
    | S k => matchAllFrom k r
    | O =>
      match execAt s with
      | Some m => m :: matchAllFrom (length (whole m) - 1) r
      | None => matchAllFrom 0 r
      end
    end
  end.

Definition matchAll (text : jsstring) : list RegExpMatch := matchAllFrom 0 text.

Definition TABLE_KEYWORD : jsstring := js "商品信息表格".

Record FieldDefinition := mkField {
  originalTag : jsstring;
  fieldName : jsstring;
  isTable : bool
}.

(** The state of the scan loop: [uniqueFields] and [fields]. *)
Definition ScanState : Type := gset jsstring * list FieldDefinition.

(** The body of [matches.forEach(match => ...)]. *)
Definition scanMatch (st : ScanState) (m : RegExpMatch) : ScanState :=
  let content := trim (group1 m) in
  if decide (content ∈ st.1) then st
  else ({[content]} ∪ st.1,
        st.2 ++ [mkField (whole m) content (includes content TABLE_KEYWORD)]).

Definition scanMatches (st : ScanState) (ms : list RegExpMatch) : ScanState :=
  foldl scanMatch st ms.

(** [Array.prototype.sort(cmp)]: a stable sort; the element is put
    behind the elements it compares greater than. *)
Section Sort.
Context {A : Type} (cmp : A -> A -> Z).

Fixpoint insertSorted (x : A) (l : list A) : list A :=
    match l with
    | [] => [x]
    | y :: r => if (0 <? cmp x y)%Z then y :: insertSorted x r else x :: l
    end.

Definition sort (l : list A) : list A := foldr insertSorted [] l.
End Sort.

(** [(a, b) => (a.isTable === b.isTable ? 0 : a.isTable ? 1 : -1)] *)
Definition compareFields (a b : FieldDefinition) : Z :=
  if Bool.eqb (isTable a) (isTable b) then 0%Z
  else if isTable a then 1%Z else (-1)%Z.

(** [extractFieldsFromDoc], from the raw text of the document on. *)
Definition extractFieldsFromDoc (text : jsstring) : list FieldDefinition :=
  sort compareFields (scanMatches (∅, []) (matchAll text)).2.

(** ** Numbers and values

    The services never compute with the numbers of a line item or with
    the total; they turn them into text or hand them on.  A finite
    number is given by the decimal digits and the exponent that
    Number::toString prints it from: [Finite neg m e] is m * 10^e,
    negated when [neg]. *)

Inductive number :=
| NaN
| Infinity (negative : bool)
| Finite (negative : bool) (mantissa : N) (exponent : Z).

(** An array index, or [index + 1], as a number. *)
Definition ofNat (n : nat) : number := Finite false (N.of_nat n) 0.

Fixpoint uintChars (u : Decimal.uint) : jsstring :=
  match u with
  | Decimal.Nil => []
  | Decimal.D0 u => 48 :: uintChars u
  | Decimal.D1 u => 49 :: uintChars u
  | Decimal.D2 u => 50 :: uintChars u
  | Decimal.D3 u => 51 :: uintChars u
  | Decimal.D4 u => 52 :: uintChars u
  | Decimal.D5 u => 53 :: uintChars u
  | Decimal.D6 u => 54 :: uintChars u
  | Decimal.D7 u => 55 :: uintChars u
  | Decimal.D8 u => 56 :: uintChars u
  | Decimal.D9 u => 57 :: uintChars u
  end.

(** The decimal digits of a natural number. *)
Definition decimal (n : N) : jsstring := uintChars (N.to_uint n).

Fixpoint dropZeros (s : jsstring) : jsstring :=
  match s with
  | [] => []
  | c :: r => if c =? 48 then dropZeros r else s
  end.

(** Number::toString (radix 10). *)
Definition Number_toString (x : number) : jsstring :=
  match x with
  | NaN => js "NaN"
  | Infinity neg => (if neg then js "-" else []) ++ js "Infinity"
  | Finite neg m e =>
    if m =? 0 then js "0" else
    let ds := decimal m in
    let s := rev (dropZeros (rev ds)) in
    let k := Z.of_nat (length s) in
    let n := (Z.of_nat (length ds) + e)%Z in
    (if neg then js "-" else []) ++
    if ((k <=? n) && (n <=? 21))%Z then
      s ++ replicate (Z.to_nat (n - k)) 48
    else if ((0 <? n) && (n <=? 21))%Z then
      take (Z.to_nat n) s ++ js "." ++ drop (Z.to_nat n) s
    else if ((-6 <? n) && (n <=? 0))%Z then
      js "0." ++ replicate (Z.to_nat (- n)) 48 ++ s
    else
      take 1 s ++ (if (k =? 1)%Z then [] else js "." ++ drop 1 s)
      ++ js "e" ++ (if (n - 1 <? 0)%Z then js "-" else js "+")
      ++ decimal (Z.to_N (Z.abs (n - 1)))
  end.

(** A value of type [string | number]. *)
Inductive value :=
| VStr (s : jsstring)
| VNum (x : number).

(** [String(v)] *)
Definition String_ (v : value) : jsstring :=
  match v with
  | VStr s => s
  | VNum x => Number_toString x
  end.

(** [Array.prototype.join(sep)] on strings. *)
Fixpoint joinStrings (sep : jsstring) (l : list jsstring) : jsstring :=
  match l with
  | [] => []
  | x :: r =>
    match r with
    | [] => x
    | _ :: _ => x ++ sep ++ joinStrings sep r
    end
  end.

(** [Array.prototype.join(sep)]: each element is converted by String. *)
Definition join (sep : jsstring) (l : list value) : jsstring :=
  joinStrings sep (String_ <$> l).

Record ProductItem := mkItem {
  id : jsstring;
  name : jsstring;
  model : jsstring;
  unit : jsstring;
  quantity : number;
  price : number;
  amount : number;
  remark : jsstring
}.

Record TableData := mkTableData {
  items : list ProductItem;
  total : number
}.

(** ** The table fragment: [generateTableXml] *)

(** [String(content).replace(/&/g, '&amp;').replace(/</g, '&lt;').replace(/>/g, '&gt;')] *)
Definition sanitize (content : value) : jsstring :=
  replaceAll 62 (js "&gt;")
    (replaceAll 60 (js "&lt;")
      (replaceAll 38 (js "&amp;") (String_ content))).

(** [createCell(content, bold = false, align = 'center', gridSpan = 0)] *)
Definition createCell (content : value) (bold : bool) (align : jsstring)
    (gridSpan : N) : jsstring :=
  let boldXml := if bold then xml "<w:rPr><w:b/></w:rPr>" else [] in
  let gridSpanXml :=
    if 0 <? gridSpan
    then xml "<w:gridSpan w:val='" ++ decimal gridSpan ++ xml "'/>"
    else [] in
  let safeContent := sanitize content in
  xml "
      <w:tc>
        <w:tcPr>
          <w:tcW w:w='0' w:type='auto'/>
          " ++ gridSpanXml ++ xml "
          <w:vAlign w:val='center'/>
        </w:tcPr>
        <w:p>
          <w:pPr>
            <w:jc w:val='" ++ align ++ xml "'/>
          </w:pPr>
          <w:r>
            " ++ boldXml ++ xml "
            <w:t>" ++ safeContent ++ xml "</w:t>
          </w:r>
        </w:p>
      </w:tc>
    ".

Definition TABLE_OPEN : jsstring :=
  xml "<w:tbl><w:tblPr><w:tblW w:w='5000' w:type='pct'/><w:tblBorders><w:top w:val='single' w:sz='4' w:space='0' w:color='auto'/><w:left w:val='single' w:sz='4' w:space='0' w:color='auto'/><w:bottom w:val='single' w:sz='4' w:space='0' w:color='auto'/><w:right w:val='single' w:sz='4' w:space='0' w:color='auto'/><w:insideH w:val='single' w:sz='4' w:space='0' w:color='auto'/><w:insideV w:val='single' w:sz='4' w:space='0' w:color='auto'/></w:tblBorders></w:tblPr>".

Definition headers : list jsstring :=
  [js "序号"; js "商品名称"; js "型号"; js "单位";
   js "数量"; js "单价"; js "金额"; js "备注"].

Definition center : jsstring := js "center".

(** [remark || ''] *)
Definition orEmpty (s : jsstring) : jsstring :=
  match s with [] => [] | _ => s end.

(** The body of [items.forEach((item, index) => ...)], on the text
    built so far. *)
Definition itemRow (acc : jsstring) (index : nat) (item : ProductItem) : jsstring :=
  let acc := acc ++ xml "<w:tr>" in
  let acc := acc ++ createCell (VNum (ofNat (index + 1))) false center 0 in
  let acc := acc ++ createCell (VStr (name item)) false center 0 in
  let acc := acc ++ createCell (VStr (model item)) false center 0 in
  let acc := acc ++ createCell (VStr (unit item)) false center 0 in
  let acc := acc ++ createCell (VNum (quantity item)) false center 0 in
  let acc := acc ++ createCell (VNum (price item)) false center 0 in
  let acc := acc ++ createCell (VNum (amount item)) false center 0 in
  let acc := acc ++ createCell (VStr (orEmpty (remark item))) false center 0 in
  acc ++ xml "</w:tr>".

(** [arr.forEach((x, index) => ...)] threading the text built so far. *)
Fixpoint forEachFrom {A} (f : jsstring -> nat -> A -> jsstring)
    (index : nat) (l : list A) (acc : jsstring) : jsstring :=
  match l with
  | [] => acc
  | x :: r => forEachFrom f (S index) r (f acc index x)
  end.

Definition generateTableXml (items : list ProductItem) (total : number) : jsstring :=
  let xml0 := TABLE_OPEN in
  (* Header Row *)
  let xml1 := xml0 ++ xml "<w:tr>" in
  let xml2 :=
    forEachFrom (fun acc _ h => acc ++ createCell (VStr h) true center 0)
      0 headers xml1 in
  let xml3 := xml2 ++ xml "</w:tr>" in
  (* Data Rows *)
  let xml4 := forEachFrom itemRow 0 items xml3 in
  (* Total Row *)
  let xml5 := xml4 ++ xml "<w:tr>" in
  let xml6 := xml5 ++ createCell (VStr (js "合计：")) true (js "right") 6 in
  let xml7 := xml6 ++ createCell (VNum total) true center 0 in
  let xml8 := xml7 ++ createCell (VStr []) false center 0 in
  let xml9 := xml8 ++ xml "</w:tr>" in
  xml9 ++ xml "</w:tbl>".

(** ** The CSV export: [generateExcelTable] *)

Record Blob (A : Type) := mkBlob {
  blobContent : A;
  blobType : jsstring
}.
Arguments mkBlob {A}.
Arguments blobContent {A}.
Arguments blobType {A}.

Definition isHighSurrogate (c : N) : bool := (55296 <=? c) && (c <=? 56319).
Definition isLowSurrogate (c : N) : bool := (56320 <=? c) && (c <=? 57343).

(** The scalar values of a string; an unpaired surrogate reads U+FFFD. *)
Fixpoint scalarValues (s : jsstring) : list N :=
  match s with
  | [] => []
  | c :: r =>
    if isHighSurrogate c then
      match r with
      | [] => [65533]
      | d :: r' =>
        if isLowSurrogate d
        then 65536 + (c - 55296) * 1024 + (d - 56320) :: scalarValues r'
        else 65533 :: scalarValues r
      end
    else if isLowSurrogate c then 65533 :: scalarValues r
    else c :: scalarValues r
  end.

Definition utf8OfScalar (cp : N) : list N :=
  if cp <? 128 then [cp]
  else if cp <? 2048 then [192 + N.shiftr cp 6; 128 + N.land cp 63]
  else if cp <? 65536 then
    [224 + N.shiftr cp 12; 128 + N.land (N.shiftr cp 6) 63; 128 + N.land cp 63]
  else
    [240 + N.shiftr cp 18; 128 + N.land (N.shiftr cp 12) 63;
     128 + N.land (N.shiftr cp 6) 63; 128 + N.land cp 63].

(** The bytes a Blob holds for a string part. *)
Definition utf8Encode (s : jsstring) : list N :=
  flat_map utf8OfScalar (scalarValues s).

Definition BOM : jsstring := [65279].

(** [csvContent] of [generateExcelTable]. *)
Definition csvContent (items : list ProductItem) (total : number) : jsstring :=
  let header := VStr <$> headers in
  let rows :=
    imap (fun index item =>
      [VNum (ofNat (index + 1)); VStr (name item); VStr (model item);
       VStr (unit item); VNum (quantity item); VNum (price item);
       VNum (amount item); VStr (remark item)]) items in
  let rows :=
    rows ++ [[VStr []; VStr []; VStr []; VStr []; VStr [];
              VStr (js "合计"); VNum total; VStr []]] in
  joinStrings (js "
") (join (js ",") header :: (join (js ",") <$> rows)).

Definition generateExcelTable (items : list ProductItem) (total : number) : Blob (list N) :=
  mkBlob (utf8Encode (BOM ++ csvContent items total)) (js "text/csv;charset=utf-8;").

(** ** Workbooks (ExcelJS)

    The part of the workbook model the services touch: cell values,
    the [font] and [alignment] entries of a style, rows with their own
    style, and the column styles a new cell inherits. *)

Inductive CellValue :=
| CNull
| CNumber (x : number)
| CString (s : jsstring)
| CRichText (runs : list jsstring).

Record Font := mkFont { bold : bool }.
Record Alignment := mkAlignment { horizontal : jsstring }.

Record Style := mkStyle {
  font : option Font;
  alignment : option Alignment
}.

Definition noStyle : Style := mkStyle None None.

Record Cell := mkCell {
  cellValue : CellValue;
  cellStyle : Style
}.

(** A row: its style and its cells, column 1 first; [None] is a column
    without a cell. *)
Record Row := mkRow {
  rowStyle : Style;
  rowCells : list (option Cell)
}.

Definition emptyRow : Row := mkRow noStyle [].

(** A sheet: its rows, row 1 first, and its column styles, column 1
    first.  A row or column behind the end of the list is an empty one. *)
Record Worksheet := mkSheet {
  sheetRows : list Row;
  sheetColumns : list Style
}.

(** [cell.text || cell.value?.toString() || ''] of a String or RichText
    cell. *)
Definition scannedText (v : CellValue) : jsstring :=
  match v with
  | CString s => s
  | CRichText runs =>
    match concat runs with
    | [] => js "[object Object]"
    | t => t
    end
  | _ => []
  end.

(** The body of [row.eachCell(cell => ...)] in the scan. *)
Definition scanCell (st : ScanState) (c : option Cell) : ScanState :=
  match c with
  | Some (mkCell (CString _ as v) _) | Some (mkCell (CRichText _ as v) _) =>
    scanMatches st (matchAll (scannedText v))
  | _ => st
  end.

Definition scanRow (st : ScanState) (r : Row) : ScanState :=
  foldl scanCell st (rowCells r).

Definition scanSheet (st : ScanState) (ws : Worksheet) : ScanState :=
  foldl scanRow st (sheetRows ws).

(** [extractFieldsFromExcel], from the loaded workbook on. *)
Definition extractFieldsFromExcel (workbook : list Worksheet) : list FieldDefinition :=
  sort compareFields (foldl scanSheet (∅, []) workbook).2.

(** A new cell takes [font] and [alignment] from its row's style and,
    where the row has none, from its column's. *)
Definition mergeStyle (rowSt colSt : Style) : Style :=
  mkStyle (match font rowSt with Some f => Some f | None => font colSt end)
          (match alignment rowSt with Some a => Some a | None => alignment colSt end).

Definition cellValueOf (v : value) : CellValue :=
  match v with
  | VStr s => CString s
  | VNum x => CNumber x
  end.

Definition columnStyle (ws : Worksheet) (col : nat) : Style :=
  default noStyle (sheetColumns ws !! (col - 1)%nat).

(** [worksheet.getRow(r)] *)
Definition getRow (ws : Worksheet) (r : nat) : Row :=
  default emptyRow (sheetRows ws !! (r - 1)%nat).

(** Rows up to [n], with empty rows where the sheet has none yet. *)
Definition padRows (rows : list Row) (n : nat) : list Row :=
  rows ++ replicate (n - length rows) emptyRow.

(** Writing back the row object [worksheet.getRow(r)] after [f] changed it. *)
Definition updateRow (ws : Worksheet) (r : nat) (f : Row -> Row) : Worksheet :=
  mkSheet (<[(r - 1)%nat := f (getRow ws r)]> (padRows (sheetRows ws) r))
          (sheetColumns ws).

(** [row.values = array]: the prior cells are dropped, one new cell per
    entry from column 1 on. *)
Definition setValues (ws : Worksheet) (vals : list value) (row : Row) : Row :=
  mkRow (rowStyle row)
        (imap (fun i v =>
                 Some (mkCell (cellValueOf v)
                              (mergeStyle (rowStyle row) (columnStyle ws (i + 1)))))
              vals).

(** [row.font = f]: on the row's style and on each of its cells. *)
Definition setFont (f : Font) (row : Row) : Row :=
  mkRow (mkStyle (Some f) (alignment (rowStyle row)))
        (option_map (fun c => mkCell (cellValue c)
                                (mkStyle (Some f) (alignment (cellStyle c))))
           <$> rowCells row).

(** [row.alignment = a] *)
Definition setAlignment (a : Alignment) (row : Row) : Row :=
  mkRow (mkStyle (font (rowStyle row)) (Some a))
        (option_map (fun c => mkCell (cellValue c)
                                (mkStyle (font (cellStyle c)) (Some a)))
           <$> rowCells row).

(** [row.getCell(col)]: the cell there, or a new empty one. *)
Definition getCell (ws : Worksheet) (row : Row) (col : nat) : Cell :=
  match rowCells row !! (col - 1)%nat with
  | Some (Some c) => c
  | _ => mkCell CNull (mergeStyle (rowStyle row) (columnStyle ws col))
  end.

(** [row.getCell(col).alignment = a] *)
Definition setCellAlignment (ws : Worksheet) (col : nat) (a : Alignment)
    (row : Row) : Row :=
  let c := getCell ws row col in
  mkRow (rowStyle row)
        (<[(col - 1)%nat :=
             Some (mkCell (cellValue c) (mkStyle (font (cellStyle c)) (Some a)))]>
           (rowCells row ++ replicate (col - length (rowCells row)) None)).

(** [worksheet.insertRow(pos, values)]: the rows from [pos] on move down
    by one; the new row has an empty style and the given values. *)
Definition insertRow (ws : Worksheet) (pos : nat) (vals : list value) : Worksheet :=
  let rows := padRows (sheetRows ws) (pos - 1) in
  mkSheet (take (pos - 1) rows ++ setValues ws vals emptyRow :: drop (pos - 1) rows)
          (sheetColumns ws).

(** The body of [tableData.items.forEach((item, idx) => ...)], on the
    sheet and on [currentRowIdx]. *)
Definition insertItemRow (st : Worksheet * nat) (idx : nat) (item : ProductItem)
    : Worksheet * nat :=
  let '(ws, currentRowIdx) := st in
  let rowValues :=
    [VNum (ofNat (idx + 1)); VStr (name item); VStr (model item);
     VStr (unit item); VNum (quantity item); VNum (price item);
     VNum (amount item); VStr (remark item)] in
  let ws := insertRow ws currentRowIdx rowValues in
  let ws := updateRow ws currentRowIdx (setAlignment (mkAlignment center)) in
  (ws, S currentRowIdx).

Fixpoint forEachItem (st : Worksheet * nat) (idx : nat) (l : list ProductItem)
    : Worksheet * nat :=
  match l with
  | [] => st
  | item :: r => forEachItem (insertItemRow st idx item) (S idx) r
  end.

(** The block [if (tableInsertionRow !== -1 && tableData) { ... }] of
    [generateFilledExcel].  [tableInsertionRow] is -1 or a row number
    that [eachRow] handed out, which is 1 or more. *)
Definition insertTable (ws : Worksheet) (tableInsertionRow : Z)
    (tableData : option TableData) : Worksheet :=
  match tableData with
  | Some td =>
    if decide (tableInsertionRow ≠ (-1)%Z) then
      let anchor := Z.to_nat tableInsertionRow in
      (* 1. Insert Header Row at the placeholder location *)
      let ws := updateRow ws anchor (fun headerRow =>
        setAlignment (mkAlignment center)
          (setFont (mkFont true) (setValues ws (VStr <$> headers) headerRow))) in
      (* 2. Insert Data Rows immediately after *)
      let '(ws, currentRowIdx) := forEachItem (ws, S anchor) 0 (items td) in
      (* 3. Insert Total Row *)
      let totalRowValues :=
        [VStr (js "合计"); VStr []; VStr []; VStr []; VStr []; VStr [];
         VNum (total td); VStr []] in
      let ws := insertRow ws currentRowIdx totalRowValues in
      updateRow ws currentRowIdx (fun totalRow =>
        setCellAlignment ws 7 (mkAlignment center)
          (setAlignment (mkAlignment (js "right"))
            (setFont (mkFont true) totalRow)))
    else ws
  | None => ws
  end.

(** ** XML documents (DOM) *)

Inductive Node :=
| Element (tagName : jsstring) (attributes : list (jsstring * jsstring))
          (childNodes : list Node)
| Text (data : jsstring)
| Comment (data : jsstring).

(** A parsed document: the children of the Document node. *)
Definition Document : Type := list Node.

(** A node of a document is named by the child indices that lead to it,
    the innermost first, so that the tail names its parent; [[]] is the
    Document node itself. *)
Definition NodeRef : Type := list nat.

Definition nodeName (n : Node) : jsstring :=
  match n with
  | Element t _ _ => t
  | Text _ => js "#text"
  | Comment _ => js "#comment"
  end.

Fixpoint textContent (n : Node) : jsstring :=
  match n with
  | Element _ _ cs => flat_map textContent cs
  | Text d => d
  | Comment _ => []
  end.

(** The node that a sequence of child indices, outermost first, leads to. *)
Fixpoint descend (cs : list Node) (path : list nat) : option Node :=
  match path with
  | [] => None
  | i :: path' =>
    match cs !! i with
    | None => None
    | Some n =>
      match path', n with
      | [], _ => Some n
      | _ :: _, Element _ _ cs' => descend cs' path'
      | _ :: _, _ => None
      end
    end
  end.

Definition nodeAt (doc : Document) (ref : NodeRef) : option Node :=
  descend doc (rev ref).

(** [getElementsByTagName(tag)]: the elements of that name, in document
    order. *)
Fixpoint elementsIn (tag : jsstring) (n : Node) (here : NodeRef) : list NodeRef :=
  match n with
  | Element t _ cs =>
    (if decide (t = tag) then [here] else []) ++
    (fix children (cs : list Node) (i : nat) : list NodeRef :=
       match cs with
       | [] => []
       | c :: r => elementsIn tag c (i :: here) ++ children r (S i)
       end) cs 0%nat
  | _ => []
  end.

Fixpoint elementsFrom (tag : jsstring) (cs : list Node) (i : nat) : list NodeRef :=
  match cs with
  | [] => []
  | c :: r => elementsIn tag c [i] ++ elementsFrom tag r (S i)
  end.

Definition getElementsByTagName (doc : Document) (tag : jsstring) : list NodeRef :=
  elementsFrom tag doc 0%nat.

(** [while (currentNode && currentNode.nodeName !== tag)
       currentNode = currentNode.parentNode]
    and the test that follows it.  The Document node is not an element
    of that name and has no parent. *)
Fixpoint enclosing (doc : Document) (tag : jsstring) (currentNode : NodeRef)
    : option NodeRef :=
  match currentNode with
  | [] => None
  | _ :: parentNode =>
    match nodeAt doc currentNode with
    | Some n =>
      if decide (nodeName n = tag) then Some currentNode
      else enclosing doc tag parentNode
    | None => None
    end
  end.

Definition W_P : jsstring := js "w:p".
Definition W_T : jsstring := js "w:t".
Definition W_TBL : jsstring := js "w:tbl".

(** The search loop over [textNodes]. *)
Fixpoint findTargetParagraph (doc : Document) (tablePlaceholder : jsstring)
    (textNodes : list NodeRef) : option NodeRef :=
  match textNodes with
  | [] => None
  | t :: rest =>
    match nodeAt doc t with
    | Some n =>
      if decide (textContent n = tablePlaceholder) then
        match enclosing doc W_P t with
        | Some p => Some p
        | None => findTargetParagraph doc tablePlaceholder rest
        end
      else findTargetParagraph doc tablePlaceholder rest
    | None => findTargetParagraph doc tablePlaceholder rest
    end
  end.

(** [parent.replaceChild(new, old)], [old] given by the child indices
    that lead to it, outermost first. *)
Fixpoint replaceAt (cs : list Node) (path : list nat) (new : Node) : list Node :=
  match path with
  | [] => cs
  | i :: path' =>
    match path' with
    | [] => <[i := new]> cs
    | _ :: _ =>
      match cs !! i with
      | Some (Element t a cs') => <[i := Element t a (replaceAt cs' path' new)]> cs
      | _ => cs
      end
    end
  end.

Definition replaceChild (doc : Document) (old : NodeRef) (new : Node) : Document :=
  replaceAt doc (rev old) new.

(** ** [generateFilledDocument] *)

Inductive JsError := mkError (message : jsstring).

Inductive Console :=
| ConsoleWarn (message : jsstring)
| ConsoleError (message : jsstring) (error : JsError).

(** How the promise settles. *)
Inductive Settled (A : Type) :=
| Resolved (result : A)
| Rejected (error : JsError).
Arguments Resolved {A}.
Arguments Rejected {A}.

(** A package: the text of each named part. *)
Abbreviation Zip := (gmap jsstring jsstring).

(** The libraries the generator calls. *)
Class Host := {
  (** [new PizZip(content)], [new Docxtemplater(zip, options)] with the
      delimiters of the placeholder syntax, [doc.render(templateData)]
      and [doc.getZip()]: the rendered package, or the error thrown. *)
  docxtemplater : list N -> gmap jsstring value -> JsError + Zip;
  (** [new DOMParser().parseFromString(text, "text/xml")] *)
  parseFromString : jsstring -> Document;
  (** [new XMLSerializer().serializeToString(doc)] *)
  serializeToString : Document -> jsstring
}.

Definition DOCUMENT_XML : jsstring := js "word/document.xml".
Definition DOCX_MIME : jsstring :=
  js "application/vnd.openxmlformats-officedocument.wordprocessingml.document".

(** ["___INSERT_TABLE_HERE_" + Math.floor(Math.random() * 100000) + "___"];
    [random] is the value of [Math.floor(Math.random() * 100000)]. *)
Definition tablePlaceholder (random : N) : jsstring :=
  js "___INSERT_TABLE_HERE_" ++ Number_toString (Finite false random 0) ++ js "___".

Definition WARNING : jsstring :=
  js "Table placeholder not found in rendered XML. The tag might have been removed or altered.".

(** [fields?.find(f => f.isTable)] *)
Definition findTableField (fields : option (list FieldDefinition)) : option FieldDefinition :=
  fields ≫= List.find isTable.

(** The fragment in a root element that declares the namespace. *)
Definition wrapTable (tableXmlBody : jsstring) : jsstring :=
  xml "<root xmlns:w='http://schemas.openxmlformats.org/wordprocessingml/2006/main'>"
  ++ tableXmlBody ++ xml "</root>".

(** Step 3, XML DOM manipulation for table insertion: the package and
    what was written to the console. *)
Definition spliceTable `{Host} (outZip : Zip) (placeholder : jsstring)
    (tableField : option FieldDefinition) (tableData : option TableData)
    : Zip * list Console :=
  match outZip !! DOCUMENT_XML, tableField, tableData with
  | Some ((_ :: _) as docXmlContent), Some _, Some td =>
    let xmlDoc := parseFromString docXmlContent in
    let textNodes := getElementsByTagName xmlDoc W_T in
    match findTargetParagraph xmlDoc placeholder textNodes with
    | Some targetParagraph =>
      let tableXmlBody := generateTableXml (items td) (total td) in
      let wrappedTableXml := wrapTable tableXmlBody in
      let tempDoc := parseFromString wrappedTableXml in
      match head (getElementsByTagName tempDoc W_TBL) ≫= nodeAt tempDoc with
      | Some tableNode =>
        let xmlDoc := replaceChild xmlDoc targetParagraph tableNode in
        let newDocXml := serializeToString xmlDoc in
        (<[DOCUMENT_XML := newDocXml]> outZip, [])
      | None => (outZip, [])
      end
    | None => (outZip, [ConsoleWarn WARNING])
    end
  | _, _, _ => (outZip, [])
  end.

(** The handler of [reader.onload]: [content] is what the reader read
    ([None]: no result).  The console entries and how the promise
    settles. *)
Definition generateFilledDocument `{Host} (content : option (list N))
    (data : gmap jsstring value) (tableData : option TableData)
    (fields : option (list FieldDefinition)) (random : N)
    : list Console * Settled (Blob Zip) :=
  let reject error :=
    ([ConsoleError (js "Error generating doc:") error], Rejected error) in
  match content with
  | None | Some [] => reject (mkError (js "Cannot read file content"))
  | Some ((_ :: _) as content) =>
    (* 1. Prepare Data *)
    let placeholder := tablePlaceholder random in
    let tableField := findTableField fields in
    let templateData :=
      match tableField with
      | Some f => <[fieldName f := VStr placeholder]> data
      | None => data
      end in
    (* 2. Run Docxtemplater *)
    match docxtemplater content templateData with
    | inl error => reject error
    | inr outZip =>
      (* 3. XML DOM Manipulation for Table Insertion *)
      let '(outZip, console) := spliceTable outZip placeholder tableField tableData in
      (* 4. Generate Final Blob *)
      (console, Resolved (mkBlob outZip DOCX_MIME))
    end
  end.

(** ** What the scan is measured against *)

(** The trimmed interior of a match, and the field pushed for it. *)
Definition contentOf (m : RegExpMatch) : jsstring := trim (group1 m).
Definition fieldOf (m : RegExpMatch) : FieldDefinition :=
  mkField (whole m) (contentOf m) (includes (contentOf m) TABLE_KEYWORD).
Definition firstAt (names : list jsstring) (n : jsstring) (a : nat) : Prop :=
  names !! a = Some n ∧ ∀ j, (j < a)%nat → names !! j ≠ Some n.
Definition scannedFields (ms : list RegExpMatch) : list FieldDefinition :=
  (scanMatches (∅, []) ms).2.

Definition fieldsOfMatches (ms : list RegExpMatch) : list FieldDefinition :=
  sort compareFields (scannedFields ms).

Definition isScalar (f : FieldDefinition) : bool := negb (isTable f).

Definition cellMatches (c : option Cell) : list RegExpMatch :=
  match c with
  | Some (mkCell (CString _ as v) _) | Some (mkCell (CRichText _ as v) _) =>
    matchAll (scannedText v)
  | _ => []
  end.

Definition workbookMatches (workbook : list Worksheet) : list RegExpMatch :=
  ws ← workbook; r ← sheetRows ws; c ← rowCells r; cellMatches c.

Definition scalarsFirst (out : list FieldDefinition) : Prop :=
  ∀ i j fi fj, out !! i = Some fi → out !! j = Some fj →
    isTable fi = false → isTable fj = true → (i < j)%nat.

Definition firstOccurrenceOrder (ms : list RegExpMatch)
    (out : list FieldDefinition) : Prop :=
  ∀ i j fi fj, out !! i = Some fi → out !! j = Some fj →
    isTable fi = isTable fj →
    ∃ a b, firstAt (contentOf <$> ms) (fieldName fi) a
         ∧ firstAt (contentOf <$> ms) (fieldName fj) b
         ∧ ((i < j)%nat ↔ (a < b)%nat).

(** The match of the placeholder [{-interior-}]. *)
Definition tagOf (interior : jsstring) : RegExpMatch :=
  mkMatch (OPEN ++ interior ++ CLOSE) interior.

(** The matches are the two given ones, in either order. *)
Definition onlyTags (ms : list RegExpMatch) (m1 m2 : RegExpMatch) : Prop :=
  ms = [m1; m2] ∨ ms = [m2; m1].

(** ** What the table fragment is measured against *)

(** One character as the three replacements leave it. *)
Definition escapeChar (c : N) : jsstring :=
  if c =? 38 then js "&amp;"
  else if c =? 60 then js "&lt;"
  else if c =? 62 then js "&gt;"
  else [c].

(** The character a predefined entity name stands for. *)
Definition entity (entityName : jsstring) : option N :=
  if decide (entityName = js "amp") then Some 38
  else if decide (entityName = js "lt") then Some 60
  else if decide (entityName = js "gt") then Some 62
  else if decide (entityName = js "quot") then Some 34
  else if decide (entityName = js "apos") then Some 39
  else None.

(** A code unit that is an XML character by itself: tab, line feed,
    carriage return, and the basic plane from the space on, without
    the surrogates, U+FFFE and U+FFFF. *)
Definition isXmlUnit (c : N) : bool :=
  (c =? 9) || (c =? 10) || (c =? 13)
  || (32 <=? c) && (c <=? 55295) || (57344 <=? c) && (c <=? 65533).

(** A code point that is an XML character. *)
Definition isXmlChar (cp : N) : bool :=
  isXmlUnit cp || (65536 <=? cp) && (cp <=? 1114111).

(** The text is made of XML characters: each code unit is one by
    itself, or a high surrogate with a low one behind it.  [high]: the
    unit before was a high surrogate. *)
Fixpoint xmlCharsFrom (high : bool) (s : jsstring) : bool :=
  match s with
  | [] => negb high
  | c :: r =>
    if high then isLowSurrogate c && xmlCharsFrom false r
    else if isHighSurrogate c then xmlCharsFrom true r
    else isXmlUnit c && xmlCharsFrom false r
  end.

Definition xmlChars (s : jsstring) : bool := xmlCharsFrom false s.

(** End-of-line handling of an XML parser: it reads a carriage return
    with a line feed behind it, and a carriage return alone, as one
    line feed.  [cr]: the unit before was a carriage return. *)
Fixpoint normalizeFrom (cr : bool) (s : jsstring) : jsstring :=
  match s with
  | [] => []
  | c :: r =>
    if c =? 13 then 10 :: normalizeFrom true r
    else if (c =? 10) && cr then normalizeFrom false r
    else c :: normalizeFrom false r
  end.

Definition normalizeLines (s : jsstring) : jsstring := normalizeFrom false s.

(** The value of a digit in a character reference. *)
Definition digitOf (base c : N) : option N :=
  if (48 <=? c) && (c <=? 57) then Some (c - 48)
  else if (base =? 16) && (97 <=? c) && (c <=? 102) then Some (c - 87)
  else if (base =? 16) && (65 <=? c) && (c <=? 70) then Some (c - 55)
  else None.

Fixpoint numeral (base acc : N) (s : jsstring) : option N :=
  match s with
  | [] => Some acc
  | c :: r =>
    match digitOf base c with
    | Some d => numeral base (acc * base + d) r
    | None => None
    end
  end.

(** The code point of a character reference [&#...;] or [&#x...;],
    given what stands between [&] and [;]. *)
Definition charRef (name : jsstring) : option N :=
  match name with
  | 35 :: 120 :: ((_ :: _) as digits) => numeral 16 0 digits
  | 35 :: ((_ :: _) as digits) => numeral 10 0 digits
  | _ => None
  end.

(** What a reference stands for: the character of a predefined entity,
    or the XML character of a character reference.  No other entity is
    declared for the fragment. *)
Definition reference (name : jsstring) : option jsstring :=
  match entity name with
  | Some c => Some [c]
  | None =>
    match charRef name with
    | Some cp => if isXmlChar cp then Some (codeUnits cp) else None
    | None => None
    end
  end.

(** Resolving the references of character data: [&name;] stands for
    what it refers to, any other character for itself.  A [<], a [>]
    that closes [[]]>], an [&] without its [;] and a reference that
    stands for nothing are not character data ([None]).  [pending] is
    the name read so far behind an [&], [brackets] the number of [[]]
    just before. *)
Fixpoint unescape (pending : option jsstring) (brackets : nat) (s : jsstring)
    : option jsstring :=
  match s with
  | [] => match pending with None => Some [] | Some _ => None end
  | c :: r =>
    match pending with
    | None =>
      if c =? 38 then unescape (Some []) 0 r
      else if c =? 60 then None
      else if (c =? 62) && (2 <=? brackets)%nat then None
      else cons c <$> unescape None (if c =? 93 then S brackets else 0%nat) r
    | Some entityName =>
      if c =? 59 then
        match reference entityName with
        | Some chars => app chars <$> unescape None 0 r
        | None => None
        end
      else unescape (Some (entityName ++ [c])) 0 r
    end
  end.

(** The text content an XML parser gives an element whose content is
    the character data [s]: the line ends are normalised, then the
    references are resolved.  [None] when [s] is not well-formed
    character data, or holds a surrogate without its partner. *)
Definition parseText (s : jsstring) : option jsstring :=
  if xmlChars s then unescape None 0 (normalizeLines s) else None.

(** One call of [createCell]: its four arguments. *)
Record CellCall := mkCellCall {
  content : value;
  isBold : bool;
  align : jsstring;
  gridSpan : N
}.

Definition cellXml (c : CellCall) : jsstring :=
  createCell (content c) (isBold c) (align c) (gridSpan c).

(** A row: [<w:tr>], the cells, [</w:tr>]. *)
Definition rowXml (cells : list CellCall) : jsstring :=
  xml "<w:tr>" ++ concat (cellXml <$> cells) ++ xml "</w:tr>".

Definition plainCell (v : value) : CellCall := mkCellCall v false center 0.

Definition headerCells : list CellCall :=
  (fun h => mkCellCall (VStr h) true center 0) <$> headers.

Definition itemCells (index : nat) (item : ProductItem) : list CellCall :=
  plainCell <$>
    [VNum (ofNat (index + 1)); VStr (name item); VStr (model item);
     VStr (unit item); VNum (quantity item); VNum (price item);
     VNum (amount item); VStr (remark item)].

Definition totalCells (total : number) : list CellCall :=
  [mkCellCall (VStr (js "合计：")) true (js "right") 6;
   mkCellCall (VNum total) true center 0;
   mkCellCall (VStr []) false center 0].

(** The rows of the fragment, top to bottom. *)
Definition tableRows (items : list ProductItem) (total : number) : list (list CellCall) :=
  headerCells :: imap itemCells items ++ [totalCells total].

(** [s.split(pat)] for a non-empty [pat]; [skip] counts the code units
    of the separator just found that are still to be passed, [piece]
    holds the current piece, last code unit first. *)
Fixpoint splitFrom (pat : jsstring) (skip : nat) (piece : jsstring)
    (s : jsstring) : list jsstring :=
  match s with
  | [] => [rev piece]
  | c :: r =>
    match skip with
    | S k => splitFrom pat k piece r
    | O =>
      if startsWith s pat
      then rev piece :: splitFrom pat (length pat - 1) [] r
      else splitFrom pat 0 (c :: piece) r
    end
  end.

Definition split (s pat : jsstring) : list jsstring := splitFrom pat 0 [] s.

(** The text between the first [open] and the next [close] behind it. *)
Definition between (open close s : jsstring) : jsstring :=
  match split s open with
  | _ :: inner :: _ => default [] (head (split inner close))
  | _ => []
  end.

(** Reading a fragment as text: for each [<w:tr>] the texts of its
    [<w:tc>] cells, each text read back as character data. *)
Definition fragmentRows (fragment : jsstring) : list (list (option jsstring)) :=
  (fun row =>
     (fun cell => parseText (between (xml "<w:t>") (xml "</w:t>") cell))
       <$> tail (split row (xml "<w:tc>")))
    <$> tail (split fragment (xml "<w:tr>")).

(** The total as the table editor computes it,
    [items.reduce((sum, item) => sum + item.amount, 0)], on whole
    numbers below 2^53, where [+] is exact; [None] elsewhere. *)
Definition addWhole (x y : number) : option number :=
  match x, y with
  | Finite false m1 0%Z, Finite false m2 0%Z =>
    if m1 + m2 <? 2 ^ 53 then Some (Finite false (m1 + m2) 0) else None
  | _, _ => None
  end.

Definition sumAmounts (items : list ProductItem) : option number :=
  foldl (fun sum item => sum ≫= fun s => addWhole s (amount item))
        (Some (ofNat 0)) items.

(** The markup of one cell read as text: its first [<w:t>] element
    holds [text]; the markup in front of it holds each of [present]
    and none of [absent]. *)
Definition cellReads (cell : jsstring) (present absent : list jsstring)
    (text : jsstring) : Prop :=
  ∃ before after,
    cell = before ++ xml "<w:t>" ++ text ++ xml "</w:t>" ++ after
    ∧ includes before (xml "<w:t>") = false
    ∧ 60 ∉ text
    ∧ Forall (fun m => includes before m = true) present
    ∧ Forall (fun m => includes before m = false) absent.

(** Markup that tells how a cell is laid out. *)
Definition GRID_SPAN_6 : jsstring := xml "<w:gridSpan w:val='6'/>".
Definition JC_RIGHT : jsstring := xml "<w:jc w:val='right'/>".
Definition JC_CENTER : jsstring := xml "<w:jc w:val='center'/>".
Definition BOLD_RUN : jsstring := xml "<w:rPr><w:b/></w:rPr>".
Definition GRID_SPAN : jsstring := xml "<w:gridSpan".

(** ** What the CSV export is measured against *)

Definition COMMA : jsstring := js ",".
Definition NEWLINE : jsstring := [10].

Definition csvHeader : jsstring :=
  js "序号,商品名称,型号,单位,数量,单价,金额,备注".

(** The line of the item at [index]: the values as they are, a comma
    between them. *)
Definition csvRow (index : nat) (item : ProductItem) : jsstring :=
  Number_toString (ofNat (index + 1)) ++ COMMA ++ name item ++ COMMA
  ++ model item ++ COMMA ++ unit item ++ COMMA
  ++ Number_toString (quantity item) ++ COMMA
  ++ Number_toString (price item) ++ COMMA
  ++ Number_toString (amount item) ++ COMMA ++ remark item.

Definition csvTotalRow (total : number) : jsstring :=
  js ",,,,,合计," ++ Number_toString total ++ COMMA.

(** ** What the generator is measured against *)


(** A stand-in for the libraries, to run the generator on: the
    rendered package has one part, the value of the field named by the
    keyword; a text is parsed as one paragraph with one run of that
    text, and a text that starts with [<root] as a root element with a
    table in it. *)
Definition stubHost : Host := {|
  docxtemplater _ templateData :=
    inr {[ DOCUMENT_XML :=
             match templateData !! TABLE_KEYWORD with
             | Some (VStr s) => s
             | _ => js "no table"
             end ]};
  parseFromString text :=
    if startsWith text (js "<root")
    then [Element (js "root") [] [Element W_TBL [] [Text text]]]
    else [Element W_P [] [Element (js "w:r") [] [Element W_T [] [Text text]]]];
  serializeToString doc := flat_map textContent doc
|}.

(** Table data whose total is not the sum of its amounts. *)
Definition unchecked : TableData :=
  mkTableData [mkItem (js "1") (js "pen") [] [] (ofNat 1) (ofNat 1) (ofNat 1) []]
              (ofNat 5).

(** ** What the table rows of a sheet are measured against *)

Definition BOLD : Font := mkFont true.

(** The header row: bold and centered, the row and each cell. *)
Definition headerSheetRow : Row :=
  mkRow (mkStyle (Some BOLD) (Some (mkAlignment center)))
    ((fun h => Some (mkCell (CString h)
                       (mkStyle (Some BOLD) (Some (mkAlignment center)))))
       <$> headers).

(** The row of the item at [idx]: centered; the font of a cell is the
    one of its column. *)
Definition itemSheetRow (ws : Worksheet) (idx : nat) (item : ProductItem) : Row :=
  mkRow (mkStyle None (Some (mkAlignment center)))
    (imap (fun j v =>
             Some (mkCell (cellValueOf v)
                     (mkStyle (font (columnStyle ws (j + 1)))
                              (Some (mkAlignment center)))))
       [VNum (ofNat (idx + 1)); VStr (name item); VStr (model item);
        VStr (unit item); VNum (quantity item); VNum (price item);
        VNum (amount item); VStr (remark item)]).

(** The total row: bold and right-aligned, but for its seventh cell,
    the total, which is centered. *)
Definition totalSheetRow (total : number) : Row :=
  let right := mkStyle (Some BOLD) (Some (mkAlignment (js "right"))) in
  mkRow right
    [Some (mkCell (CString (js "合计")) right);
     Some (mkCell (CString []) right); Some (mkCell (CString []) right);
     Some (mkCell (CString []) right); Some (mkCell (CString []) right);
     Some (mkCell (CString []) right);
     Some (mkCell (CNumber total)
             (mkStyle (Some BOLD) (Some (mkAlignment center))));
     Some (mkCell (CString []) right)].

(** A sheet of two rows: the anchor and a row behind it. *)
Definition twoRowSheet : Worksheet :=
  mkSheet
    [mkRow noStyle [Some (mkCell (CString (js "{-商品信息表格-}")) noStyle)];
     mkRow noStyle [Some (mkCell (CString (js "Signature")) noStyle)]]
    [].

(** [templateData], as [generateFilledDocument] hands it to the engine. *)
Definition templateDataOf (data : gmap jsstring value)
    (fields : option (list FieldDefinition)) (random : N) : gmap jsstring value :=
  match findTableField fields with
  | Some f => <[fieldName f := VStr (tablePlaceholder random)]> data
  | None => data
  end.

(** The content read holds at least one byte. *)
Definition readable (content : option (list N)) : Prop :=
  ∃ c bytes, content = Some (c :: bytes).

(** Two paths part ways when they differ at an index both have. *)
Fixpoint diverge (p q : list nat) : Prop :=
  match p, q with
  | i :: p', j :: q' => i ≠ j ∨ (i = j ∧ diverge p' q')
  | _, _ => False
  end.

(** The node below [n] that child indices, outermost first, lead to;
    [n] itself for no index. *)
Definition below (n : Node) (path : list nat) : option Node :=
  match path, n with
  | [], _ => Some n
  | _ :: _, Element _ _ cs => descend cs path
  | _ :: _, _ => None
  end.

(** The characters a number is printed with: digits, sign, point,
    exponent mark and the letters of [NaN] and [Infinity]. *)
Definition isDigit (c : N) : bool := (48 <=? c) && (c <=? 57).

Definition isNumberChar (c : N) : bool :=
  isDigit c || bool_decide (c ∈ js "-+.eNaInfity").

(** A character that [createCell] replaces. *)
Definition isReserved (c : N) : bool := (c =? 38) || (c =? 60) || (c =? 62).

(** The numbers [start], [start + 1], ..., [fuel] of them. *)
Fixpoint upFrom (fuel : nat) (start : N) : list N :=
  match fuel with
  | O => []
  | S fuel => start :: upFrom fuel (start + 1)
  end.

(** The characters of a sentinel: digits, underscore, capital letters. *)
Definition isSentinelChar (c : N) : bool :=
  isDigit c || (c =? 95) || (65 <=? c) && (c <=? 90).

(** ** Reading text back *)

(** [pat] and [s] differ at a position both have. *)
Fixpoint differs (s pat : jsstring) : bool :=
  match s, pat with
  | c :: s', p :: pat' => if c =? p then differs s' pat' else true
  | _, _ => false
  end.

(** No occurrence of [pat] starts inside [s], whatever follows [s]. *)
Fixpoint noMatchIn (pat s : jsstring) : bool :=
  match s with
  | [] => true
  | _ :: s' => differs s pat && noMatchIn pat s'
  end.

(** The rows of the CSV export, as values. *)
Definition csvRows (items : list ProductItem) (total : number) : list (list value) :=
  (VStr <$> headers)
  :: imap (fun index item =>
        [VNum (ofNat (index + 1)); VStr (name item); VStr (model item);
         VStr (unit item); VNum (quantity item); VNum (price item);
         VNum (amount item); VStr (remark item)]) items
  ++ [[VStr []; VStr []; VStr []; VStr []; VStr [];
       VStr (js "合计"); VNum total; VStr []]].

(** No text of the item holds a comma or a line feed. *)
Definition csvSafe (item : ProductItem) : Prop :=
  Forall (fun s : jsstring => 44 ∉ s ∧ 10 ∉ s)
    [name item; model item; unit item; remark item].

(** ** The parts of a cell *)

Definition TR_OPEN : jsstring := xml "<w:tr>".
Definition TR_CLOSE : jsstring := xml "</w:tr>".
Definition TC_OPEN : jsstring := xml "<w:tc>".
Definition T_OPEN : jsstring := xml "<w:t>".
Definition T_CLOSE : jsstring := xml "</w:t>".
Definition TBL_CLOSE : jsstring := xml "</w:tbl>".

(** What [createCell] writes before [<w:tc>]. *)
Definition CELL_LEAD : jsstring := xml "
      ".

Definition HEAD_1 : jsstring := xml "
        <w:tcPr>
          <w:tcW w:w='0' w:type='auto'/>
          ".
Definition HEAD_2 : jsstring := xml "
          <w:vAlign w:val='center'/>
        </w:tcPr>
        <w:p>
          <w:pPr>
            <w:jc w:val='".
Definition HEAD_3 : jsstring := xml "'/>
          </w:pPr>
          <w:r>
            ".
Definition HEAD_4 : jsstring := xml "
            ".
Definition GRID_OPEN : jsstring := xml "<w:gridSpan w:val='".
Definition GRID_END : jsstring := xml "'/>".

(** What [createCell] writes between [<w:tc>] and [<w:t>]. *)
Definition cellHead (bold : bool) (align : jsstring) (gridSpan : N) : jsstring :=
  HEAD_1
  ++ (if 0 <? gridSpan then GRID_OPEN ++ decimal gridSpan ++ GRID_END else [])
  ++ HEAD_2 ++ align ++ HEAD_3
  ++ (if bold then BOLD_RUN else [])
  ++ HEAD_4.

(** What [createCell] writes behind [</w:t>]. *)
Definition CELL_TAIL : jsstring := xml "
          </w:r>
        </w:p>
      </w:tc>
    ".

(** A cell from behind its [<w:tc>]. *)
Definition cellBody (c : CellCall) : jsstring :=
  cellHead (isBold c) (align c) (gridSpan c)
  ++ T_OPEN ++ sanitize (content c) ++ T_CLOSE ++ CELL_TAIL.

(** The text a reader finds in a cell of the fragment. *)
Definition readCell (cell : jsstring) : option jsstring :=
  parseText (between T_OPEN T_CLOSE cell).

(** The texts of an item are made of XML characters. *)
Definition itemReadable (item : ProductItem) : Prop :=
  Forall (fun s : jsstring => xmlChars s = true)
    [name item; model item; unit item; remark item].

(** The literal parts of the fragment hold no match of [pat]. *)
Definition literalsClean (pat : jsstring) : bool :=
  forallb (noMatchIn pat)
    [CELL_LEAD; HEAD_1; GRID_OPEN; GRID_END; HEAD_2; HEAD_3; BOLD_RUN;
     HEAD_4; T_CLOSE; CELL_TAIL; TR_CLOSE; TBL_CLOSE; TR_CLOSE ++ TBL_CLOSE].

(** ** The table editor (ProductTable.tsx)

    The list of line items as the component keeps it, one event at a
    time: the handlers take the list and give the next one. *)

Module ProductTable.

(** The row a new line starts from. *)
Definition newItem (id : jsstring) : ProductItem :=
  mkItem id [] [] (js "个") (ofNat 1) (ofNat 0) (ofNat 0) [].

(** [useState(initialData || [...])]: an array, empty or not, is kept. *)
Definition initialItems (initialData : option (list ProductItem)) : list ProductItem :=
  match initialData with
  | Some items => items
  | None => [newItem (js "1")]
  end.

(** [addItem]; [now] is what [Date.now()] returned. *)
Definition addItem (now : number) (prev : list ProductItem) : list ProductItem :=
  prev ++ [newItem (Number_toString now)].

(** [removeItem(id)] *)
Definition removeItem (id0 : jsstring) (items : list ProductItem) : list ProductItem :=
  if (length items =? 1)%nat then items
  else filter (fun i => id i ≠ id0) items.

(** The columns that hold text. *)
Inductive TextField := FName | FModel | FUnit | FRemark.

(** [{ ...item, [field]: value }] for a text column. *)
Definition withField (field : TextField) (value : jsstring) (item : ProductItem) : ProductItem :=
  match field with
  | FName => mkItem (id item) value (model item) (unit item) (quantity item)
               (price item) (amount item) (remark item)
  | FModel => mkItem (id item) (name item) value (unit item) (quantity item)
                (price item) (amount item) (remark item)
  | FUnit => mkItem (id item) (name item) (model item) value (quantity item)
               (price item) (amount item) (remark item)
  | FRemark => mkItem (id item) (name item) (model item) (unit item)
                 (quantity item) (price item) (amount item) value
  end.

(** [handleInputChange(id, field, value)] for a text column: the
    amount is computed anew for [quantity] and [price] only. *)
Definition handleInputChange (id0 : jsstring) (field : TextField)
    (value : jsstring) (prev : list ProductItem) : list ProductItem :=
  (fun item => if decide (id item ≠ id0) then item else withField field value item)
    <$> prev.

End ProductTable.

(** ** The text service (geminiService.ts) *)

Module Gemini.

(** [ai.models.generateContent] of the client made for an API key: the
    model, the prompt and whether JSON is asked for give the [text] of
    the response, which may be undefined, or the call fails. *)
Class GenAI := {
  generateContent : jsstring -> jsstring -> jsstring -> bool -> Settled (option jsstring)
}.

Definition MODEL : jsstring := js "gemini-2.5-flash".

(** [getAiClient]: the key the client is made for. *)
Definition getAiClient (apiKey : option jsstring) : JsError + jsstring :=
  match apiKey with
  | Some ((_ :: _) as key) => inr key
  | _ => inl (mkError (js "API Key not found"))
  end.

Definition enhancePrompt (fieldName currentValue : jsstring) : jsstring :=
  joinStrings [10]
    [[];
     xml "        Context: A user is filling out a contract.";
     xml "        Field Name: '" ++ fieldName ++ xml "'";
     xml "        User Input (Draft): '" ++ currentValue ++ xml "'";
     xml "        ";
     xml "        Task: Polish the User Input to be professional, legally sound, and formal suitable for a business contract.";
     xml "        If the input is empty, generate a plausible placeholder example for this field.";
     xml "        Return ONLY the polished text, no explanations.";
     xml "        "].

(** [enhanceText]: the text the promise resolves to, and what went to
    the console. *)
Definition enhanceText `{GenAI} (apiKey : option jsstring)
    (fieldName currentValue : jsstring) : jsstring * list Console :=
  let failed error :=
    (currentValue, [ConsoleError (js "Gemini enhancement failed:") error]) in
  match getAiClient apiKey with
  | inl error => failed error
  | inr ai =>
    match generateContent ai MODEL (enhancePrompt fieldName currentValue) false with
    | Rejected error => failed error
    | Resolved text =>
      (match trim <$> text with
       | Some ((_ :: _) as polished) => polished
       | _ => currentValue
       end, [])
    end
  end.

Definition tablePrompt (description : jsstring) : jsstring :=
  joinStrings [10]
    [[];
     xml "        Generate 3 rows of sample product data for a contract based on this description: '" ++ description ++ xml "'.";
     xml "        Return valid JSON array. Each object should have: name, model, quantity (number), price (number), remark.";
     xml "        Example: [{'name': 'Laptop', 'model': 'X1', 'quantity': 2, 'price': 1000, 'remark': ''}]";
     xml "        Return ONLY JSON.";
     xml "        "].

Definition EMPTY_ARRAY : jsstring := js "[]".

(** [suggestTableData] *)
Definition suggestTableData `{GenAI} (apiKey : option jsstring)
    (description : jsstring) : jsstring * list Console :=
  let failed error :=
    (EMPTY_ARRAY, [ConsoleError (js "Gemini table suggestion failed:") error]) in
  match getAiClient apiKey with
  | inl error => failed error
  | inr ai =>
    match generateContent ai MODEL (tablePrompt description) true with
    | Rejected error => failed error
    | Resolved text =>
      (match text with
       | Some ((_ :: _) as json) => json
       | _ => EMPTY_ARRAY
       end, [])
    end
  end.

End Gemini.

(** ** The wizard (App.tsx)

    The state of the component and its handlers, one event at a time.
    A handler that awaits is two steps: what it does at once, and what
    it does when the promise has settled. *)

Module App.

Inductive AppStep := UPLOAD | ANALYZING | WIZARD | GENERATING | COMPLETED.

(** What a handler caught: [err.message], empty when there is none, and
    the messages of [err.properties.errors] when there are such. *)
Record Thrown := mkThrown {
  thrownMessage : jsstring;
  thrownDetails : option (list jsstring)
}.

Record State := mkState {
  step : AppStep;
  file : option jsstring;
  fields : list FieldDefinition;
  currentFieldIndex : nat;
  formData : gmap jsstring jsstring;
  isProcessing : bool;
  error : option jsstring
}.

Definition initial : State := mkState UPLOAD None [] 0 ∅ false None.

Definition setStep (st : AppStep) (s : State) : State :=
  mkState st (file s) (fields s) (currentFieldIndex s) (formData s)
    (isProcessing s) (error s).

Definition setError (e : option jsstring) (s : State) : State :=
  mkState (step s) (file s) (fields s) (currentFieldIndex s) (formData s)
    (isProcessing s) e.

Definition setFields (fs : list FieldDefinition) (s : State) : State :=
  mkState (step s) (file s) fs (currentFieldIndex s) (formData s)
    (isProcessing s) (error s).

Definition setFile (f : jsstring) (s : State) : State :=
  mkState (step s) (Some f) (fields s) (currentFieldIndex s) (formData s)
    (isProcessing s) (error s).

Definition setCurrentFieldIndex (f : nat -> nat) (s : State) : State :=
  mkState (step s) (file s) (fields s) (f (currentFieldIndex s)) (formData s)
    (isProcessing s) (error s).

Definition setFormData (f : gmap jsstring jsstring -> gmap jsstring jsstring)
    (s : State) : State :=
  mkState (step s) (file s) (fields s) (currentFieldIndex s) (f (formData s))
    (isProcessing s) (error s).

Definition setIsProcessing (b : bool) (s : State) : State :=
  mkState (step s) (file s) (fields s) (currentFieldIndex s) (formData s)
    b (error s).

(** [fields[currentFieldIndex]] *)
Definition currentField (s : State) : option FieldDefinition :=
  fields s !! currentFieldIndex s.

(** [handleFileUpload] up to its [await]. *)
Definition handleFileUpload (uploadedFile : option jsstring) (s : State) : State :=
  match uploadedFile with
  | None => s
  | Some f => setError None (setStep ANALYZING (setFile f s))
  end.

Definition parseMessage (err : Thrown) : jsstring :=
  match thrownMessage err with
  | [] => js "解析文档失败，请确保是有效的 .docx 文件"
  | m =>
    if includes m (js "document part")
    then js "解析错误: 无法找到文档主体，请确保上传的是有效的 Word (.docx) 文件"
    else js "解析错误: " ++ m
  end.

(** [handleFileUpload] from its [await] on: the scan gave fields or
    threw. *)
Definition handleFileUploaded (extracted : Thrown + list FieldDefinition)
    (s : State) : State :=
  match extracted with
  | inr [] =>
    setStep UPLOAD
      (setError (Some (js "未能在文档中找到 {--字段--} 格式的标记。请检查模板。")) s)
  | inr extractedFields => setStep WIZARD (setFields extractedFields s)
  | inl err => setStep UPLOAD (setError (Some (parseMessage err)) s)
  end.

(** [handleGenerate] up to its [await]. *)
Definition handleGenerate (s : State) : State :=
  match file s with
  | None => s
  | Some _ => setIsProcessing true s
  end.

Definition generateMessage (err : Thrown) : jsstring :=
  match thrownDetails err with
  | Some details => js "文档模板错误: " ++ joinStrings (js "; ") details
  | None =>
    match thrownMessage err with
    | [] => js "生成文档时出错。"
    | m => js "生成错误: " ++ m
    end
  end.

(** [handleGenerate] from its [await] on. *)
Definition handleGenerated (thrown : option Thrown) (s : State) : State :=
  setIsProcessing false
    match thrown with
    | None => setStep COMPLETED s
    | Some err => setStep WIZARD (setError (Some (generateMessage err)) s)
    end.

Definition handleNext (s : State) : State :=
  if (Z.of_nat (currentFieldIndex s) <? Z.of_nat (length (fields s)) - 1)%Z
  then setCurrentFieldIndex (fun prev => (prev + 1)%nat) s
  else handleGenerate (setStep GENERATING s).

Definition handleBack (s : State) : State :=
  if (0 <? currentFieldIndex s)%nat
  then setCurrentFieldIndex (fun prev => (prev - 1)%nat) s
  else s.

(** [handleInputChange(value)]; without a current field the handler
    throws and no state changes. *)
Definition handleInputChange (value : jsstring) (s : State) : State :=
  match currentField s with
  | Some currentField => setFormData <[fieldName currentField := value]> s
  | None => s
  end.

(** What the page offers in each step. *)
Inductive Event :=
| FileChosen (uploadedFile : option jsstring)
| Scanned (extracted : Thrown + list FieldDefinition)
| Next
| Back
| Typed (value : jsstring)
| Generated (thrown : option Thrown)
| NewFile.

(** An event reaches its handler in the step whose page shows the
    control or started the call. *)
Definition dispatch (s : State) (e : Event) : State :=
  match step s, e with
  | UPLOAD, FileChosen f => handleFileUpload f s
  | ANALYZING, Scanned r => handleFileUploaded r s
  | WIZARD, Next => handleNext s
  | WIZARD, Back => handleBack s
  | WIZARD, Typed v => handleInputChange v s
  | GENERATING, Generated r => handleGenerated r s
  | COMPLETED, NewFile => setStep UPLOAD s
  | _, _ => s
  end.

Definition run (events : list Event) (s : State) : State :=
  foldl dispatch s events.

(** Past the upload the index is that of a field; before it, zero. *)
Definition inRange (s : State) : Prop :=
  match step s with
  | UPLOAD | ANALYZING => currentFieldIndex s = 0%nat
  | WIZARD | GENERATING | COMPLETED =>
    (currentFieldIndex s < length (fields s))%nat
  end.

End App.

(** ** Where the table goes in a sheet: [tableInsertionRow]

    Of the first pass of [generateFilledExcel] over a sheet, the part
    that finds the row of the table placeholder. *)

(** [cell.text] of a String or RichText cell. *)
Definition cellText (c : Cell) : option jsstring :=
  match cellValue c with
  | CString s => Some s
  | CRichText runs => Some (concat runs)
  | _ => None
  end.

(** [tableField && text.includes(tableField.originalTag)] on a cell
    that [eachCell] visits and whose type is String or RichText. *)
Definition holdsTag (tableField : option FieldDefinition) (c : option Cell) : bool :=
  match tableField, c ≫= cellText with
  | Some f, Some text => includes text (originalTag f)
  | _, _ => false
  end.

(** [tableInsertionRow] after [worksheet.eachRow(...)]; it starts
    at -1. *)
Definition findInsertionRow (tableField : option FieldDefinition)
    (ws : Worksheet) : Z :=
  foldl (fun tableInsertionRow '(rowNumber, row) =>
           foldl (fun tableInsertionRow c =>
                    if holdsTag tableField c then rowNumber
                    else tableInsertionRow)
                 tableInsertionRow (rowCells row))
        (-1)%Z
        (imap (fun i row => (Z.of_nat (S i), row)) (sheetRows ws)).

(** Some cell of the row holds the tag. *)
Definition rowHolds (tableField : option FieldDefinition) (row : Row) : bool :=
  existsb (holdsTag tableField) (rowCells row).

(** * Properties *)

Example js_keyword : TABLE_KEYWORD = [21830; 21697; 20449; 24687; 34920; 26684].
Proof. reflexivity. Qed.

Example scan_scenario :
  extractFieldsFromDoc (js "甲方：{-Party A-}，{-商品信息表格-}")
  = [mkField (js "{-Party A-}") (js "Party A") false;
     mkField (js "{-商品信息表格-}") (js "商品信息表格") true].
Proof. vm_compute. reflexivity. Qed.

(** ** The scanner *)

Section ScanFacts.
Implicit Types (ms : list RegExpMatch) (m : RegExpMatch) (st : ScanState).

Lemma scanMatches_app st ms1 ms2 :
    scanMatches st (ms1 ++ ms2) = scanMatches (scanMatches st ms1) ms2.
  Proof. apply foldl_app. Qed.

Lemma scanMatch_fieldOf st m :
    scanMatch st m =
      if decide (contentOf m ∈ st.1) then st
      else ({[contentOf m]} ∪ st.1, st.2 ++ [fieldOf m]).
  Proof. reflexivity. Qed.

  (** The set holds the names of the fields pushed so far. *)
Lemma seen_scanned ms :
    ∀ n, n ∈ (scanMatches (∅, []) ms).1 ↔ n ∈ contentOf <$> ms.
  Proof.
    induction ms as [|m ms IH] using rev_ind; intros n.
    - simpl. set_solver.
    - rewrite scanMatches_app, fmap_app. simpl. rewrite scanMatch_fieldOf.
      case_decide as Hin; simpl.
      + apply IH in Hin. rewrite IH. set_solver.
      + rewrite elem_of_union, IH. set_solver.
  Qed.

Lemma scannedFields_snoc ms m :
    scannedFields (ms ++ [m]) =
      if decide (contentOf m ∈ contentOf <$> ms) then scannedFields ms
      else scannedFields ms ++ [fieldOf m].
  Proof.
    unfold scannedFields. rewrite scanMatches_app. simpl.
    rewrite scanMatch_fieldOf.
    pose proof (seen_scanned ms (contentOf m)) as Hs.
    repeat case_decide; simpl; try reflexivity; tauto.
  Qed.
End ScanFacts.

Section ScanOrder.
Implicit Types (ms : list RegExpMatch) (m : RegExpMatch).

Lemma firstAt_inj names n a b : firstAt names n a → firstAt names n b → a = b.
  Proof.
    intros [Ha Ha'] [Hb Hb'].
    destruct (Nat.lt_trichotomy a b) as [?|[?|?]]; [|done|].
    - by apply Hb' in Ha.
    - by apply Ha' in Hb.
  Qed.

Lemma firstAt_app_l names more n a :
    firstAt names n a → firstAt (names ++ more) n a.
  Proof.
    intros [Ha Ha']. split.
    - by apply lookup_app_l_Some.
    - intros j Hj. rewrite lookup_app_l; [by apply Ha'|].
      apply lookup_lt_Some in Ha. lia.
  Qed.

Lemma firstAt_app_inv names more n a :
    n ∈ names → firstAt (names ++ more) n a → firstAt names n a.
  Proof.
    intros Hin [Ha Ha'].
    apply list_elem_of_lookup in Hin as [i Hi].
    assert (a < length names)%nat as Hlt.
    { destruct (decide (a < length names)%nat); [done|].
      exfalso. apply (Ha' i).
      - apply lookup_lt_Some in Hi. lia.
      - by apply lookup_app_l_Some. }
    split.
    - by rewrite lookup_app_l in Ha.
    - intros j Hj. specialize (Ha' j Hj). rewrite lookup_app_l in Ha'; [done|lia].
  Qed.

Lemma firstAt_new names n :
    n ∉ names → firstAt (names ++ [n]) n (length names).
  Proof.
    intros Hn. split.
    - by rewrite list_lookup_middle.
    - intros j Hj. rewrite lookup_app_l by done. intros Hj'.
      apply Hn. apply list_elem_of_lookup. eauto.
  Qed.

  (** Each scanned field is the field of the first match of its name. *)
Lemma scannedFields_first ms k f :
    scannedFields ms !! k = Some f →
    ∃ a m, ms !! a = Some m ∧ f = fieldOf m
           ∧ firstAt (contentOf <$> ms) (fieldName f) a.
  Proof.
    revert k f. induction ms as [|m ms IH] using rev_ind; intros k f.
    - done.
    - rewrite scannedFields_snoc, fmap_app. case_decide as Hin.
      + intros Hk. destruct (IH _ _ Hk) as (a & m' & Ha & -> & Hf).
        exists a, m'. split_and!; [by apply lookup_app_l_Some|done|].
        by apply firstAt_app_l.
      + intros Hk. apply lookup_app_Some in Hk as [Hk|[Hlen Hk]].
        * destruct (IH _ _ Hk) as (a & m' & Ha & -> & Hf).
          exists a, m'. split_and!; [by apply lookup_app_l_Some|done|].
          by apply firstAt_app_l.
        * apply list_lookup_singleton_Some in Hk as [_ <-].
          exists (length ms), m. split_and!; [by rewrite list_lookup_middle|done|].
          simpl. replace (length ms) with (length (contentOf <$> ms))
            by apply length_fmap.
          by apply firstAt_new.
  Qed.

  (** Every name that occurs has its field. *)
Lemma scannedFields_complete ms n :
    n ∈ contentOf <$> ms → ∃ k f, scannedFields ms !! k = Some f ∧ fieldName f = n.
  Proof.
    induction ms as [|m ms IH] using rev_ind.
    - set_solver.
    - rewrite scannedFields_snoc, fmap_app. intros Hn.
      case_decide as Hin.
      + apply IH. set_solver.
      + apply elem_of_app in Hn as [Hn|Hn].
        * destruct (IH Hn) as (k & f & Hk & Hf). exists k, f.
          split; [by apply lookup_app_l_Some|done].
        * apply list_elem_of_singleton in Hn as ->.
          exists (length (scannedFields ms)), (fieldOf m).
          split; [by rewrite list_lookup_middle|done].
  Qed.

  (** The fields stand in the order of their first occurrences. *)
Lemma scannedFields_mono ms k k' f f' a a' :
    scannedFields ms !! k = Some f → scannedFields ms !! k' = Some f' →
    firstAt (contentOf <$> ms) (fieldName f) a →
    firstAt (contentOf <$> ms) (fieldName f') a' →
    (k < k')%nat → (a < a')%nat.
  Proof.
    revert k k' f f' a a'.
    induction ms as [|m ms IH] using rev_ind; intros k k' f f' a a'.
    - done.
    - rewrite scannedFields_snoc, fmap_app. simpl.
      assert (∀ j g, scannedFields ms !! j = Some g →
                     fieldName g ∈ contentOf <$> ms) as Hmem.
      { intros j g Hj. destruct (scannedFields_first _ _ _ Hj) as (b & ? & _ & _ & [Hb _]).
        apply list_elem_of_lookup. eauto. }
      case_decide as Hin.
      + intros Hk Hk' Ha Ha' Hlt.
        apply firstAt_app_inv in Ha; [|by eapply Hmem].
        apply firstAt_app_inv in Ha'; [|by eapply Hmem].
        exact (IH _ _ _ _ _ _ Hk Hk' Ha Ha' Hlt).
      + intros Hk Hk' Ha Ha' Hlt.
        apply lookup_app_Some in Hk' as [Hk'|[Hlen Hk']].
        * assert (scannedFields ms !! k = Some f) as Hk0.
          { apply lookup_lt_Some in Hk'. rewrite lookup_app_l in Hk; [done|lia]. }
          apply firstAt_app_inv in Ha; [|by eapply Hmem].
          apply firstAt_app_inv in Ha'; [|by eapply Hmem].
          exact (IH _ _ _ _ _ _ Hk0 Hk' Ha Ha' Hlt).
        * apply list_lookup_singleton_Some in Hk' as [Hk' <-].
          assert (scannedFields ms !! k = Some f) as Hk0.
          { rewrite lookup_app_l in Hk; [done|lia]. }
          apply firstAt_app_inv in Ha; [|by eapply Hmem].
          destruct Ha as [Ha _]. apply lookup_lt_Some in Ha.
          rewrite length_fmap in Ha.
          assert (a' = length ms) as ->; [|done].
          eapply firstAt_inj; [exact Ha'|].
          replace (length ms) with (length (contentOf <$> ms)) by apply length_fmap.
          by apply firstAt_new.
  Qed.
End ScanOrder.

Section SortFacts.
Implicit Types (l S T : list FieldDefinition) (f : FieldDefinition).

Lemma insert_scalar f l :
    isTable f = false → insertSorted compareFields f l = f :: l.
  Proof.
    intros Hf. destruct l as [|y l]; [done|]. simpl.
    unfold compareFields. rewrite Hf. by destruct (isTable y).
  Qed.

Lemma insert_table f S T :
    isTable f = true → Forall isScalar S → Forall isTable T →
    insertSorted compareFields f (S ++ T) = S ++ f :: T.
  Proof.
    intros Hf HS HT. induction HS as [|z S Hz _ IH]; simpl.
    - destruct HT as [|y T Hy _]; [done|]. simpl.
      unfold compareFields. rewrite Hf.
      by destruct (isTable y).
    - unfold compareFields at 1. rewrite Hf.
      unfold isScalar in Hz. destruct (isTable z); [done|]. simpl.
      by rewrite IH.
  Qed.

  (** The comparator only tells scalar from table fields, and the sort
      is stable: it is the partition into the two classes. *)
Lemma sort_partition l :
    sort compareFields l = filter isScalar l ++ filter isTable l.
  Proof.
    induction l as [|x l IH]; [done|].
    change (sort compareFields (x :: l))
      with (insertSorted compareFields x (sort compareFields l)).
    rewrite IH. destruct (isTable x) eqn:Hx.
    - rewrite insert_table; [|done|..].
      2,3: apply Forall_forall; intros y Hy; apply list_elem_of_filter in Hy; tauto.
      rewrite (filter_cons_False isScalar), (filter_cons_True isTable); [done|..].
      all: unfold isScalar; rewrite Hx; simpl; tauto.
    - rewrite insert_scalar by done.
      rewrite (filter_cons_True isScalar), (filter_cons_False isTable); [done|..].
      all: unfold isScalar; rewrite Hx; simpl; tauto.
  Qed.

Lemma filter_lookup_inv (P : FieldDefinition → bool) l i x :
    filter P l !! i = Some x → P x = true ∧ ∃ i', l !! i' = Some x.
  Proof.
    intros Hi. assert (x ∈ filter P l) as Hin by (apply list_elem_of_lookup; eauto).
    apply list_elem_of_filter in Hin as [HP Hin].
    split; [by destruct (P x)|]. by apply list_elem_of_lookup.
  Qed.

  (** Filtering keeps the relative order. *)
Lemma filter_lookup_mono (P : FieldDefinition → bool) l i j x y :
    filter P l !! i = Some x → filter P l !! j = Some y → (i < j)%nat →
    ∃ i' j', (i' < j')%nat ∧ l !! i' = Some x ∧ l !! j' = Some y.
  Proof.
    revert i j. induction l as [|z l IH]; intros i j; [done|].
    destruct (P z) eqn:Hz.
    - rewrite filter_cons_True by (rewrite Hz; simpl; tauto).
      destruct i as [|i], j as [|j]; simpl; try lia.
      + intros [= ->] Hj _.
        apply filter_lookup_inv in Hj as [_ [j' Hj']].
        exists 0%nat, (S j'). split_and!; [lia|done..].
      + intros Hi Hj Hlt. destruct (IH i j Hi Hj) as (i' & j' & ? & ? & ?); [lia|].
        exists (S i'), (S j'). split_and!; [lia|done..].
    - rewrite filter_cons_False by (rewrite Hz; simpl; tauto).
      intros Hi Hj Hlt. destruct (IH i j Hi Hj Hlt) as (i' & j' & ? & ? & ?).
      exists (S i'), (S j'). split_and!; [lia|done..].
  Qed.
End SortFacts.

Section ScanResult.
Implicit Types (ms : list RegExpMatch) (m : RegExpMatch).

Lemma extractFieldsFromDoc_matches text :
    extractFieldsFromDoc text = fieldsOfMatches (matchAll text).
  Proof. reflexivity. Qed.

Lemma scanCell_matches st c : scanCell st c = scanMatches st (cellMatches c).
  Proof. by destruct c as [[[] ?]|]. Qed.

Lemma scanRow_matches st r :
    scanRow st r = scanMatches st (rowCells r ≫= cellMatches).
  Proof.
    unfold scanRow. revert st. induction (rowCells r) as [|c cs IH]; intros st; [done|].
    simpl. rewrite IH, scanCell_matches. symmetry. apply scanMatches_app.
  Qed.

Lemma scanSheet_matches st ws :
    scanSheet st ws = scanMatches st (r ← sheetRows ws; rowCells r ≫= cellMatches).
  Proof.
    unfold scanSheet. revert st. induction (sheetRows ws) as [|r rs IH]; intros st; [done|].
    simpl. rewrite IH, scanRow_matches. symmetry. apply scanMatches_app.
  Qed.

Lemma extractFieldsFromExcel_matches workbook :
    extractFieldsFromExcel workbook = fieldsOfMatches (workbookMatches workbook).
  Proof.
    unfold extractFieldsFromExcel, fieldsOfMatches, scannedFields, workbookMatches.
    f_equal. f_equal. generalize (∅ : gset jsstring, [] : list FieldDefinition).
    induction workbook as [|ws wb IH]; intros st; [done|].
    simpl. rewrite IH, scanSheet_matches. symmetry. apply scanMatches_app.
  Qed.

Lemma fieldsOfMatches_partition ms :
    fieldsOfMatches ms
    = filter isScalar (scannedFields ms) ++ filter isTable (scannedFields ms).
  Proof. apply sort_partition. Qed.

  (** Where a field of the result stands in the scan order. *)
Lemma fieldsOfMatches_lookup ms i f :
    fieldsOfMatches ms !! i = Some f → ∃ k, scannedFields ms !! k = Some f.
  Proof.
    rewrite fieldsOfMatches_partition. intros Hi.
    apply lookup_app_Some in Hi as [Hi|[_ Hi]];
      by apply filter_lookup_inv in Hi as [_ ?].
  Qed.

Lemma fieldsOfMatches_scalarsFirst ms : scalarsFirst (fieldsOfMatches ms).
  Proof.
    intros i j fi fj. rewrite fieldsOfMatches_partition. intros Hi Hj Hfi Hfj.
    apply lookup_app_Some in Hj as [Hj|[Hlen Hj]].
    { apply filter_lookup_inv in Hj as [Hs _]. unfold isScalar in Hs.
      by rewrite Hfj in Hs. }
    apply lookup_app_Some in Hi as [Hi|[_ Hi]].
    - apply lookup_lt_Some in Hi. lia.
    - apply filter_lookup_inv in Hi as [Hs _]. congruence.
  Qed.

  (** Two fields of one class keep the order they were scanned in. *)
Lemma fieldsOfMatches_keeps_order ms i j fi fj :
    fieldsOfMatches ms !! i = Some fi → fieldsOfMatches ms !! j = Some fj →
    isTable fi = isTable fj → (i < j)%nat →
    ∃ k k', (k < k')%nat ∧ scannedFields ms !! k = Some fi
            ∧ scannedFields ms !! k' = Some fj.
  Proof.
    rewrite fieldsOfMatches_partition. intros Hi Hj Hc Hlt.
    apply lookup_app_Some in Hi as [Hi|[Hleni Hi]];
      apply lookup_app_Some in Hj as [Hj|[Hlenj Hj]].
    - by eapply filter_lookup_mono.
    - apply filter_lookup_inv in Hi as [Hi _]. apply filter_lookup_inv in Hj as [Hj _].
      unfold isScalar in Hi. rewrite Hc, Hj in Hi. done.
    - apply lookup_lt_Some in Hj. lia.
    - eapply filter_lookup_mono; [exact Hi|exact Hj|lia].
  Qed.

Lemma fieldsOfMatches_order ms : firstOccurrenceOrder ms (fieldsOfMatches ms).
  Proof.
    intros i j fi fj Hi Hj Hc.
    destruct (fieldsOfMatches_lookup _ _ _ Hi) as [k Hk].
    destruct (fieldsOfMatches_lookup _ _ _ Hj) as [k' Hk'].
    destruct (scannedFields_first _ _ _ Hk) as (a & _ & _ & _ & Ha).
    destruct (scannedFields_first _ _ _ Hk') as (b & _ & _ & _ & Hb).
    exists a, b. split_and!; [done..|]. split.
    - intros Hlt.
      destruct (fieldsOfMatches_keeps_order _ _ _ _ _ Hi Hj Hc Hlt)
        as (k1 & k2 & Hlt' & Hk1 & Hk2).
      exact (scannedFields_mono _ _ _ _ _ _ _ Hk1 Hk2 Ha Hb Hlt').
    - intros Hlt. destruct (Nat.lt_trichotomy i j) as [?|[->|Hgt]]; [done|..].
      + assert (fi = fj) as -> by congruence.
        pose proof (firstAt_inj _ _ _ _ Ha Hb). lia.
      + destruct (fieldsOfMatches_keeps_order _ _ _ _ _ Hj Hi (eq_sym Hc) Hgt)
          as (k1 & k2 & Hlt' & Hk1 & Hk2).
        pose proof (scannedFields_mono _ _ _ _ _ _ _ Hk1 Hk2 Hb Ha Hlt'). lia.
  Qed.
End ScanResult.

Section Dedupe.
Implicit Types (ms : list RegExpMatch) (m : RegExpMatch).

Lemma scannedFields_NoDup ms : NoDup (fieldName <$> scannedFields ms).
  Proof.
    apply NoDup_alt. intros k k' n Hk Hk'.
    apply list_lookup_fmap_Some in Hk as (f & -> & Hf).
    apply list_lookup_fmap_Some in Hk' as (f' & Heq & Hf').
    destruct (scannedFields_first _ _ _ Hf) as (a & _ & _ & _ & Ha).
    destruct (scannedFields_first _ _ _ Hf') as (a' & _ & _ & _ & Ha').
    assert (a = a') as Haa by (rewrite <- Heq in Ha'; exact (firstAt_inj _ _ _ _ Ha Ha')).
    destruct (Nat.lt_trichotomy k k') as [Hlt|[?|Hlt]]; [|done|].
    - pose proof (scannedFields_mono _ _ _ _ _ _ _ Hf Hf' Ha Ha' Hlt). lia.
    - pose proof (scannedFields_mono _ _ _ _ _ _ _ Hf' Hf Ha' Ha Hlt). lia.
  Qed.

Lemma partition_Permutation (l : list FieldDefinition) :
    filter isScalar l ++ filter isTable l ≡ₚ l.
  Proof.
    induction l as [|x l IH]; [done|]. destruct (isTable x) eqn:Hx.
    - rewrite (filter_cons_False isScalar), (filter_cons_True isTable).
      + by rewrite <- Permutation_middle, IH.
      + by rewrite Hx.
      + unfold isScalar. rewrite Hx. simpl. tauto.
    - rewrite (filter_cons_True isScalar), (filter_cons_False isTable).
      + simpl. by rewrite IH.
      + rewrite Hx. simpl. tauto.
      + unfold isScalar. by rewrite Hx.
  Qed.

Lemma fieldsOfMatches_Permutation ms : fieldsOfMatches ms ≡ₚ scannedFields ms.
  Proof. rewrite fieldsOfMatches_partition. apply partition_Permutation. Qed.

Lemma fieldsOfMatches_NoDup ms : NoDup (fieldName <$> fieldsOfMatches ms).
  Proof. rewrite fieldsOfMatches_Permutation. apply scannedFields_NoDup. Qed.

Lemma filter_name_none (l : list FieldDefinition) n :
    n ∉ fieldName <$> l → filter (λ g, fieldName g = n) l = [].
  Proof.
    induction l as [|x l IH]; [done|].
    rewrite fmap_cons, not_elem_of_cons. intros [Hx Hl].
    rewrite filter_cons_False by done. by apply IH.
  Qed.

  (** In a list without two fields of one name, the fields of a name
      that is there are one field. *)
Lemma filter_name_singleton (l : list FieldDefinition) f :
    NoDup (fieldName <$> l) → f ∈ l →
    filter (λ g, fieldName g = fieldName f) l = [f].
  Proof.
    induction l as [|x l IH]; [by intros _ ?%elem_of_nil|].
    rewrite fmap_cons, NoDup_cons. intros [Hx Hl] Hin.
    apply elem_of_cons in Hin as [->|Hin].
    - rewrite filter_cons_True by done. f_equal. by apply filter_name_none.
    - rewrite filter_cons_False; [by apply IH|].
      intros Heq. apply Hx. rewrite Heq. apply list_elem_of_fmap. eauto.
  Qed.

Lemma scanMatch_idempotent st m : scanMatch (scanMatch st m) m = scanMatch st m.
  Proof.
    rewrite (scanMatch_fieldOf st). case_decide as Hin.
    - rewrite scanMatch_fieldOf. by rewrite decide_True.
    - rewrite scanMatch_fieldOf. simpl. rewrite decide_True; [done|set_solver].
  Qed.
End Dedupe.

(** ** The pattern on well-formed placeholders *)

Section Placeholders.
Implicit Types (s rest pre : jsstring).

Lemma OPEN_eq : OPEN = [123; 45].
  Proof. reflexivity. Qed.

Lemma CLOSE_eq : CLOSE = [45; 125].
  Proof. reflexivity. Qed.

Lemma lazyBody_unfold s :
    lazyBody s =
      if startsWith s [45; 125] then Some [] else
      match s with
      | [] => None
      | c :: r => cons c <$> lazyBody r
      end.
  Proof. by destruct s. Qed.

  (** A body without [}] is read up to the closing delimiter. *)
Lemma lazyBody_closed body rest :
    125 ∉ body → lazyBody (body ++ CLOSE ++ rest) = Some body.
  Proof.
    rewrite CLOSE_eq. induction body as [|c body IH]; intros Hb.
    - by rewrite lazyBody_unfold.
    - apply not_elem_of_cons in Hb as [Hc Hb].
      assert (startsWith ((c :: body) ++ [45; 125] ++ rest) [45; 125] = false) as Hs.
      { simpl. destruct (N.eqb_spec c 45) as [->|]; [|done].
        destruct body as [|d body]; simpl; [done|].
        apply not_elem_of_cons in Hb as [Hd _].
        destruct (N.eqb_spec d 125); [|done]. congruence. }
      rewrite lazyBody_unfold, Hs. rewrite <- app_comm_cons.
      change (body ++ [45; 125] ++ rest) with (body ++ 45 :: 125 :: rest) in IH.
      simpl. by rewrite IH.
  Qed.

Lemma execAt_tag c body rest :
    125 ∉ body →
    execAt (whole (tagOf (c :: body)) ++ rest) = Some (tagOf (c :: body)).
  Proof.
    intros Hb. unfold tagOf, execAt. simpl whole. rewrite OPEN_eq. simpl.
    rewrite <- (assoc_L (++)). by rewrite lazyBody_closed.
  Qed.

Lemma execAt_plain c s : c ≠ 123 → execAt (c :: s) = None.
  Proof.
    intros Hc. unfold execAt. rewrite OPEN_eq. simpl.
    by destruct (N.eqb_spec c 123).
  Qed.

Lemma matchAllFrom_skip t rest :
    matchAllFrom (length t) (t ++ rest) = matchAllFrom 0 rest.
  Proof. induction t as [|c t IH]; [done|]. simpl. exact IH. Qed.

  (** A placeholder at the start of the text is the first match, and
      the search goes on behind it. *)
Lemma matchAll_tag c body rest :
    125 ∉ body →
    matchAll (whole (tagOf (c :: body)) ++ rest)
    = tagOf (c :: body) :: matchAll rest.
  Proof.
    intros Hb. unfold matchAll.
    pose proof (execAt_tag c body rest Hb) as He.
    destruct (whole (tagOf (c :: body))) as [|o t] eqn:Ht; [done|].
    simpl app. simpl matchAllFrom. simpl app in He. rewrite He, Ht. simpl.
    rewrite Nat.sub_0_r. by rewrite matchAllFrom_skip.
  Qed.

  (** Text without [{] holds no match. *)
Lemma matchAll_plain pre s : 123 ∉ pre → matchAll (pre ++ s) = matchAll s.
  Proof.
    unfold matchAll. induction pre as [|c pre IH]; intros Hp; [done|].
    apply not_elem_of_cons in Hp as [Hc Hp].
    simpl. rewrite execAt_plain by done. by apply IH.
  Qed.

Lemma matchAll_two_tags pre mid post c1 body1 c2 body2 :
    123 ∉ pre → 123 ∉ mid → 123 ∉ post → 125 ∉ body1 → 125 ∉ body2 →
    matchAll (pre ++ whole (tagOf (c1 :: body1)) ++ mid
                  ++ whole (tagOf (c2 :: body2)) ++ post)
    = [tagOf (c1 :: body1); tagOf (c2 :: body2)].
  Proof.
    intros Hpre Hmid Hpost H1 H2.
    rewrite matchAll_plain, matchAll_tag, matchAll_plain, matchAll_tag by done.
    rewrite <- (app_nil_r post). by rewrite matchAll_plain.
  Qed.

Lemma startsWith_app pat s : startsWith (pat ++ s) pat = true.
  Proof. induction pat as [|p pat IH]; [by destruct s|]. simpl. by rewrite N.eqb_refl. Qed.

Lemma includes_prefix pat s : includes (pat ++ s) pat = true.
  Proof. destruct (pat ++ s) eqn:E; simpl; rewrite <- E, startsWith_app; done. Qed.

Lemma trimStart_stops a c b :
    isWhiteSpace c = false → ∃ a', trimStart (a ++ c :: b) = a' ++ c :: b.
  Proof.
    intros Hc. induction a as [|x a IH]; simpl.
    - exists []. by rewrite Hc.
    - destruct (isWhiteSpace x); [done|]. by exists (x :: a).
  Qed.

  (** Trimming leaves the keyword at the head of a name that starts with it. *)
Lemma trim_keyword B : ∃ B', trim (TABLE_KEYWORD ++ B) = TABLE_KEYWORD ++ B'.
  Proof.
    unfold trim, trimEnd.
    assert (trimStart (TABLE_KEYWORD ++ B) = TABLE_KEYWORD ++ B) as -> by reflexivity.
    rewrite rev_app_distr.
    change (rev TABLE_KEYWORD) with (26684 :: rev [21830; 21697; 20449; 24687; 34920]).
    destruct (trimStart_stops (rev B) 26684 (rev [21830; 21697; 20449; 24687; 34920]))
      as [a' ->]; [done|].
    exists (rev a'). rewrite rev_app_distr. reflexivity.
  Qed.

Lemma keyword_field_isTable B :
    isTable (fieldOf (tagOf (TABLE_KEYWORD ++ B))) = true.
  Proof.
    unfold fieldOf, contentOf, tagOf. cbn [isTable group1].
    destruct (trim_keyword B) as [B' ->]. apply includes_prefix.
  Qed.
End Placeholders.

(** ** The scan result *)

Lemma fieldsOfMatches_two m1 m2 :
  isTable (fieldOf m1) = false → isTable (fieldOf m2) = true →
  ∀ ms, onlyTags ms m1 m2 → fieldsOfMatches ms = [fieldOf m1; fieldOf m2].
Proof.
  intros H1 H2 ms Hms.
  assert (contentOf m1 ≠ contentOf m2) as Hne.
  { intros Heq. unfold fieldOf in H1, H2. simpl in H1, H2. congruence. }
  assert (∀ a b, contentOf b ≠ contentOf a →
            scannedFields [a; b] = [fieldOf a; fieldOf b]) as Hscan.
  { intros a b Hab.
    change [a; b] with ([a] ++ [b]). rewrite scannedFields_snoc.
    rewrite decide_False by (by intros ?%list_elem_of_singleton).
    change [a] with ([] ++ [a]). rewrite scannedFields_snoc.
    by rewrite decide_False by (by intros ?%elem_of_nil). }
  unfold fieldsOfMatches. rewrite sort_partition.
  destruct Hms as [->| ->]; rewrite Hscan by congruence.
  - rewrite (filter_cons_True isScalar), (filter_cons_False isScalar), filter_nil,
      (filter_cons_False isTable), (filter_cons_True isTable), filter_nil; [done|..].
    all: unfold isScalar; rewrite ?H1, ?H2; simpl; tauto.
  - rewrite (filter_cons_False isScalar), (filter_cons_True isScalar), filter_nil,
      (filter_cons_True isTable), (filter_cons_False isTable), filter_nil; [done|..].
    all: unfold isScalar; rewrite ?H1, ?H2; simpl; tauto.
Qed.

(** C1 as amended.  For every text and every workbook, the scan result
    has its scalar fields before its table fields, and two fields of one
    class stand in the order in which their names first occur among the
    placeholders.  When the placeholders of the text (or of the
    workbook's cells) are just [{-A-}] and [{-<keyword>B-}], in either
    order, [A] without the keyword, the result is the field of [A]
    followed by the table field of [<keyword>B]. *)
Theorem scan_scalars_before_tables :
  (∀ text,
     scalarsFirst (extractFieldsFromDoc text)
     ∧ firstOccurrenceOrder (matchAll text) (extractFieldsFromDoc text))
  ∧ (∀ workbook,
     scalarsFirst (extractFieldsFromExcel workbook)
     ∧ firstOccurrenceOrder (workbookMatches workbook)
         (extractFieldsFromExcel workbook))
  ∧ (∀ A B,
     let scalar := tagOf A in
     let table := tagOf (TABLE_KEYWORD ++ B) in
     includes (trim A) TABLE_KEYWORD = false →
     isTable (fieldOf scalar) = false ∧ isTable (fieldOf table) = true
     ∧ (∀ text, onlyTags (matchAll text) scalar table →
          extractFieldsFromDoc text = [fieldOf scalar; fieldOf table])
     ∧ (∀ workbook, onlyTags (workbookMatches workbook) scalar table →
          extractFieldsFromExcel workbook = [fieldOf scalar; fieldOf table])).
Proof.
  split_and!.
  - intros text. rewrite extractFieldsFromDoc_matches.
    split; [apply fieldsOfMatches_scalarsFirst|apply fieldsOfMatches_order].
  - intros workbook. rewrite extractFieldsFromExcel_matches.
    split; [apply fieldsOfMatches_scalarsFirst|apply fieldsOfMatches_order].
  - intros A B scalar table HA.
    assert (isTable (fieldOf scalar) = false) as Hs by exact HA.
    assert (isTable (fieldOf table) = true) as Ht by apply keyword_field_isTable.
    split_and!; [done..| |].
    + intros text. rewrite extractFieldsFromDoc_matches.
      by apply fieldsOfMatches_two.
    + intros workbook. rewrite extractFieldsFromExcel_matches.
      by apply fieldsOfMatches_two.
Qed.

(** The scenario of the specification, and the same placeholders the
    other way round. *)
Lemma scan_scalars_before_tables_witness :
  extractFieldsFromDoc (js "甲方：{-Party A-}，{-商品信息表格-}")
  = [fieldOf (tagOf (js "Party A")); fieldOf (tagOf (TABLE_KEYWORD ++ []))]
  ∧ extractFieldsFromDoc (js "{-商品信息表格-}，甲方：{-Party A-}")
  = [fieldOf (tagOf (js "Party A")); fieldOf (tagOf (TABLE_KEYWORD ++ []))].
Proof.
  pose proof (proj2 (proj2 scan_scalars_before_tables) (js "Party A") []) as H.
  simpl in H. destruct H as (_ & _ & Hdoc & _); [vm_compute; reflexivity|].
  split; apply Hdoc; [left|right]; vm_compute; reflexivity.
Defined.

(** C1 as stated fails: a text that contains [{-A-}] and
    [{-<keyword>B-}] and a third placeholder has three fields. *)
Lemma scan_two_fields_counterexample :
  let text := js "{-A-}{-商品信息表格B-}{-C-}" in
  includes text (js "{-A-}") = true
  ∧ includes text (js "{-商品信息表格B-}") = true
  ∧ length (extractFieldsFromDoc text) = 3%nat.
Proof. vm_compute. done. Qed.

(** C7.  The scan keeps one field per trimmed name: no two fields of
    the result have one name; for each placeholder of the text, however
    often its trimmed interior occurs, the result has exactly one field
    of that name, and the field's [originalTag] is the full text of the
    first placeholder with that trimmed interior; and scanning a match
    a second time changes nothing. *)
Theorem dedupe_keeps_first_tag :
  (∀ text,
     let ms := matchAll text in
     let out := extractFieldsFromDoc text in
     NoDup (fieldName <$> out)
     ∧ ∀ a m, ms !! a = Some m →
         ∃ f a0 m0,
           filter (λ g, fieldName g = contentOf m) out = [f]
           ∧ firstAt (contentOf <$> ms) (contentOf m) a0
           ∧ ms !! a0 = Some m0
           ∧ originalTag f = whole m0)
  ∧ (∀ st m, scanMatch (scanMatch st m) m = scanMatch st m).
Proof.
  split; [|apply scanMatch_idempotent].
  intros text ms out. subst out. rewrite extractFieldsFromDoc_matches. fold ms.
  split; [apply fieldsOfMatches_NoDup|].
  intros a m Ha.
  assert (contentOf m ∈ contentOf <$> ms) as Hin.
  { apply list_elem_of_fmap. exists m. split; [done|].
    apply list_elem_of_lookup. eauto. }
  destruct (scannedFields_complete _ _ Hin) as (k & f & Hk & Hf).
  destruct (scannedFields_first _ _ _ Hk) as (a0 & m0 & Ha0 & Hfm & Hfirst).
  exists f, a0, m0. split_and!.
  - rewrite <- Hf. apply filter_name_singleton; [apply fieldsOfMatches_NoDup|].
    rewrite fieldsOfMatches_Permutation. apply list_elem_of_lookup. eauto.
  - by rewrite <- Hf.
  - done.
  - by rewrite Hfm.
Qed.

(** Two placeholders of one trimmed interior: the first tag is kept. *)
Lemma dedupe_keeps_first_tag_witness :
  ∃ f a0 m0,
    filter (λ g, fieldName g = js "x")
      (extractFieldsFromDoc (js "{-x-} and {- x -}")) = [f]
    ∧ firstAt (contentOf <$> matchAll (js "{-x-} and {- x -}")) (js "x") a0
    ∧ matchAll (js "{-x-} and {- x -}") !! a0 = Some m0
    ∧ originalTag f = whole m0.
Proof.
  exact (proj2 (proj1 dedupe_keeps_first_tag (js "{-x-} and {- x -}"))
           1%nat (tagOf (js " x ")) eq_refl).
Defined.

Example dedupe_example :
  extractFieldsFromDoc (js "{-x-} and {- x -}")
  = [mkField (js "{-x-}") (js "x") false].
Proof. vm_compute. reflexivity. Qed.

(** ** Escaping in the table fragment *)

Section Escaping.
Implicit Types (s : jsstring) (c : N).

Lemma replaceAll_flat_map c rep (f : N → jsstring) s :
    replaceAll c rep (flat_map f s) = flat_map (λ x, replaceAll c rep (f x)) s.
  Proof.
    unfold replaceAll. induction s as [|x s IH]; [done|].
    simpl. by rewrite flat_map_app, IH.
  Qed.

  (** The three replacements in a row are one pass over the text. *)
Lemma sanitize_escapeChar content :
    sanitize content = flat_map escapeChar (String_ content).
  Proof.
    unfold sanitize. unfold replaceAll at 3.
    rewrite !replaceAll_flat_map. apply flat_map_ext. intros c.
    unfold escapeChar.
    destruct (N.eqb_spec c 38) as [->|H38]; [reflexivity|].
    destruct (N.eqb_spec c 60) as [->|H60]; [reflexivity|].
    destruct (N.eqb_spec c 62) as [->|H62]; [reflexivity|].
    unfold replaceAll. simpl.
    destruct (N.eqb_spec c 60); [done|]. simpl.
    destruct (N.eqb_spec c 62); [done|]. done.
  Qed.

Lemma escapeChar_cases c :
    (c = 38 ∧ escapeChar c = [38; 97; 109; 112; 59])
    ∨ (c = 60 ∧ escapeChar c = [38; 108; 116; 59])
    ∨ (c = 62 ∧ escapeChar c = [38; 103; 116; 59])
    ∨ (c ≠ 38 ∧ c ≠ 60 ∧ c ≠ 62 ∧ escapeChar c = [c]).
  Proof.
    unfold escapeChar.
    destruct (N.eqb_spec c 38) as [->|H38]; [left; by vm_compute|].
    destruct (N.eqb_spec c 60) as [->|H60]; [right; left; by vm_compute|].
    destruct (N.eqb_spec c 62) as [->|H62]; [right; right; left; by vm_compute|].
    by right; right; right.
  Qed.

  (** Escaping keeps a text made of XML characters such a text. *)
Lemma xmlCharsFrom_escape high s :
    xmlCharsFrom high (flat_map escapeChar s) = xmlCharsFrom high s.
  Proof.
    revert high. induction s as [|c s IH]; intros high; [done|].
    cbn [flat_map].
    destruct (escapeChar_cases c)
      as [[-> ->]|[[-> ->]|[[-> ->]|(_ & _ & _ & ->)]]].
    - destruct high; [reflexivity|]. cbn. apply IH.
    - destruct high; [reflexivity|]. cbn. apply IH.
    - destruct high; [reflexivity|]. cbn. apply IH.
    - cbn [app xmlCharsFrom]. destruct high; [by rewrite IH|].
      destruct (isHighSurrogate c); by rewrite IH.
  Qed.

  (** Escaping and the handling of line ends do not meet. *)
Lemma normalizeFrom_escape cr s :
    normalizeFrom cr (flat_map escapeChar s)
    = flat_map escapeChar (normalizeFrom cr s).
  Proof.
    revert cr. induction s as [|c s IH]; intros cr; [done|].
    cbn [flat_map].
    destruct (escapeChar_cases c)
      as [[-> Hc]|[[-> Hc]|[[-> Hc]|(H38 & H60 & H62 & Hc)]]].
    - rewrite Hc. cbn. rewrite IH. by destruct cr.
    - rewrite Hc. cbn. rewrite IH. by destruct cr.
    - rewrite Hc. cbn. rewrite IH. by destruct cr.
    - rewrite Hc. cbn [app normalizeFrom].
      destruct (N.eqb_spec c 13) as [->|H13].
      + cbn [flat_map]. by rewrite IH.
      + destruct ((c =? 10) && cr); [apply IH|].
        cbn [flat_map]. by rewrite Hc, IH.
  Qed.

  (** Resolving the references gives the text back that was escaped. *)
Lemma unescape_escaped brackets s :
    unescape None brackets (flat_map escapeChar s) = Some s.
  Proof.
    revert brackets. induction s as [|c s IH]; intros brackets; [done|].
    cbn [flat_map].
    destruct (escapeChar_cases c)
      as [[-> Hc]|[[-> Hc]|[[-> Hc]|(H38 & H60 & H62 & Hc)]]]; rewrite Hc.
    - change (unescape None brackets ([38; 97; 109; 112; 59] ++ flat_map escapeChar s))
        with (app [38] <$> unescape None 0 (flat_map escapeChar s)).
      by rewrite IH.
    - change (unescape None brackets ([38; 108; 116; 59] ++ flat_map escapeChar s))
        with (app [60] <$> unescape None 0 (flat_map escapeChar s)).
      by rewrite IH.
    - change (unescape None brackets ([38; 103; 116; 59] ++ flat_map escapeChar s))
        with (app [62] <$> unescape None 0 (flat_map escapeChar s)).
      by rewrite IH.
    - cbn [app unescape].
      destruct (N.eqb_spec c 38); [done|]. destruct (N.eqb_spec c 60); [done|].
      destruct (N.eqb_spec c 62); [done|]. cbn [andb]. by rewrite IH.
  Qed.

  (** What a parser reads from an embedded value. *)
Lemma parseText_sanitize content :
    parseText (sanitize content)
    = if xmlChars (String_ content)
      then Some (normalizeLines (String_ content)) else None.
  Proof.
    rewrite sanitize_escapeChar. unfold parseText, xmlChars, normalizeLines.
    rewrite xmlCharsFrom_escape, normalizeFrom_escape.
    destruct (xmlCharsFrom false (String_ content)); [|done].
    apply unescape_escaped.
  Qed.

Lemma normalizeFrom_plain s : 13 ∉ s → normalizeFrom false s = s.
  Proof.
    induction s as [|c s IH]; [done|]. intros [Hc Hs]%not_elem_of_cons.
    cbn [normalizeFrom]. destruct (N.eqb_spec c 13); [done|].
    rewrite andb_false_r. by rewrite IH.
  Qed.

Lemma xmlChars_units s : Forall (fun c => isXmlUnit c = true) s → xmlChars s = true.
  Proof.
    unfold xmlChars. induction 1 as [|c s Hc _ IH]; [done|].
    cbn [xmlCharsFrom]. rewrite Hc, IH.
    destruct (isHighSurrogate c) eqn:Hhigh; [|done]. exfalso.
    unfold isXmlUnit, isHighSurrogate in *.
    repeat match goal with
    | H : context [N.eqb ?a ?b] |- _ => destruct (N.eqb_spec a b); [subst; done|]
    end.
    cbn [orb] in Hc.
    destruct (N.leb_spec 55296 c), (N.leb_spec c 56319), (N.leb_spec 32 c),
      (N.leb_spec c 55295), (N.leb_spec 57344 c), (N.leb_spec c 65533);
      cbn in *; try done; lia.
  Qed.

  (** Escaping is one to one, first character by first character. *)
Lemma escapeChar_inj a b x y :
    escapeChar a ++ x = escapeChar b ++ y → a = b ∧ x = y.
  Proof.
    destruct (escapeChar_cases a)
      as [[-> Ha]|[[-> Ha]|[[-> Ha]|(? & ? & ? & Ha)]]];
    destruct (escapeChar_cases b)
      as [[-> Hb]|[[-> Hb]|[[-> Hb]|(? & ? & ? & Hb)]]];
    rewrite ?Ha, ?Hb; cbn [app]; intros Heq; by simplify_eq.
  Qed.

Lemma escape_inj s t : flat_map escapeChar s = flat_map escapeChar t → s = t.
  Proof.
    revert t. induction s as [|a s IH]; intros [|b t]; cbn [flat_map].
    - done.
    - intros Heq. exfalso. symmetry in Heq.
      apply app_eq_nil in Heq as [Hb _].
      destruct (escapeChar_cases b) as [[_ H]|[[_ H]|[[_ H]|(_ & _ & _ & H)]]];
        by rewrite H in Hb.
    - intros Heq. exfalso. apply app_eq_nil in Heq as [Ha _].
      destruct (escapeChar_cases a) as [[_ H]|[[_ H]|[[_ H]|(_ & _ & _ & H)]]];
        by rewrite H in Ha.
    - intros [-> Heq]%escapeChar_inj. by rewrite (IH _ Heq).
  Qed.

Lemma escapeChar_no_markup c : (60 ∉ escapeChar c) ∧ (62 ∉ escapeChar c).
  Proof.
    unfold escapeChar.
    destruct (N.eqb_spec c 38); [split; apply (bool_decide_unpack _); by vm_compute|].
    destruct (N.eqb_spec c 60); [split; apply (bool_decide_unpack _); by vm_compute|].
    destruct (N.eqb_spec c 62); [split; apply (bool_decide_unpack _); by vm_compute|].
    split; by intros ?%list_elem_of_singleton.
  Qed.
End Escaping.

(** C6 as amended.  Every value that [createCell] embeds stands
    between [<w:t>] and [</w:t>] with each [&], [<] and [>] replaced by
    [&amp;], [&lt;] and [&gt;] and nothing else changed, and the
    embedded text holds no [<] and no [>].  Read back by an XML
    parser, a value made of XML characters gives its text with the
    line ends normalised; it gives the original text when that holds
    no carriage return. *)
Theorem escape_round_trip content bold align gridSpan :
  (∃ before after,
     createCell content bold align gridSpan
     = before ++ xml "<w:t>" ++ sanitize content ++ xml "</w:t>" ++ after)
  ∧ sanitize content = flat_map escapeChar (String_ content)
  ∧ (60 ∉ sanitize content) ∧ (62 ∉ sanitize content)
  ∧ (xmlChars (String_ content) = true →
       parseText (sanitize content) = Some (normalizeLines (String_ content)))
  ∧ (xmlChars (String_ content) = true → 13 ∉ String_ content →
       parseText (sanitize content) = Some (String_ content)).
Proof.
  split_and!.
  - unfold createCell. cbv zeta.
    lazymatch goal with
    | |- ∃ before after,
           ?a ++ ?g ++ ?b ++ ?al ++ ?c ++ ?bo ++ ?d ++ ?sc ++ ?e = _ =>
      assert (d = take 13 d ++ xml "<w:t>") as Hd by (vm_compute; reflexivity);
      assert (e = xml "</w:t>" ++ drop 6 e) as He by (vm_compute; reflexivity);
      exists (a ++ g ++ b ++ al ++ c ++ bo ++ take 13 d), (drop 6 e);
      set (d1 := take 13 d) in *; set (e1 := drop 6 e) in *;
      clearbody d1 e1; rewrite Hd, He
    end.
    by rewrite <- !(assoc_L (++)).
  - apply sanitize_escapeChar.
  - rewrite sanitize_escapeChar. intros Hin.
    apply list_elem_of_In, in_flat_map in Hin as (c & _ & Hc).
    by apply (proj1 (escapeChar_no_markup c)), list_elem_of_In.
  - rewrite sanitize_escapeChar. intros Hin.
    apply list_elem_of_In, in_flat_map in Hin as (c & _ & Hc).
    by apply (proj2 (escapeChar_no_markup c)), list_elem_of_In.
  - intros Hxml. by rewrite parseText_sanitize, Hxml.
  - intros Hxml Hcr. rewrite parseText_sanitize, Hxml.
    unfold normalizeLines. by rewrite normalizeFrom_plain.
Qed.

(** A name with the three reserved characters in it is read back as
    it was. *)
Lemma escape_round_trip_witness :
  parseText (sanitize (VStr (js "a<b&c>d"))) = Some (String_ (VStr (js "a<b&c>d"))).
Proof.
  destruct (escape_round_trip (VStr (js "a<b&c>d")) false center 0)
    as (_ & _ & _ & _ & _ & Hread).
  apply Hread.
  - vm_compute. reflexivity.
  - apply (bool_decide_unpack _). vm_compute. reflexivity.
Defined.

(** C6 as stated fails: a text with a carriage return and a line feed
    in it, and the three reserved characters behind them, is read back
    with a line feed alone. *)
Lemma escape_round_trip_counterexample :
  parseText (sanitize (VStr [97; 13; 10; 98; 60; 38; 62; 99]))
  = Some [97; 10; 98; 60; 38; 62; 99]
  ∧ parseText (sanitize (VStr [97; 13; 10; 98; 60; 38; 62; 99]))
    ≠ Some (String_ (VStr [97; 13; 10; 98; 60; 38; 62; 99])).
Proof. split; vm_compute; [reflexivity|by intros [=]]. Qed.

(** ** The rows of the table fragment *)

Section Fragment.
  #[local] Opaque createCell xml.
Implicit Types (items : list ProductItem) (total : number) (acc : jsstring).

Lemma forEach_header acc (l : list jsstring) i :
    forEachFrom (fun acc _ h => acc ++ createCell (VStr h) true center 0) i l acc
    = acc ++ concat ((fun h => cellXml (mkCellCall (VStr h) true center 0)) <$> l).
  Proof.
    revert acc i. induction l as [|h l IH]; intros acc i.
    - by rewrite app_nil_r.
    - cbn [forEachFrom fmap list_fmap concat]. rewrite IH.
      unfold cellXml. cbn [content isBold align gridSpan].
      by rewrite <- (assoc_L (++)).
  Qed.

Lemma orEmpty_id (s : jsstring) : orEmpty s = s.
  Proof. by destruct s. Qed.

Lemma itemRow_rowXml acc index item :
    itemRow acc index item = acc ++ rowXml (itemCells index item).
  Proof.
    unfold itemRow, rowXml, itemCells, cellXml, plainCell.
    cbn [fmap list_fmap concat content isBold align gridSpan].
    rewrite orEmpty_id, app_nil_r. by rewrite <- !(assoc_L (++)).
  Qed.

Lemma forEach_items acc items i :
    forEachFrom itemRow i items acc
    = acc ++ concat (rowXml <$> imap (fun k => itemCells (i + k)) items).
  Proof.
    revert acc i. induction items as [|item items IH]; intros acc i.
    - by rewrite app_nil_r.
    - cbn [forEachFrom imap fmap list_fmap concat]. rewrite IH, itemRow_rowXml.
      rewrite Nat.add_0_r, <- (assoc_L (++)).
      assert (imap (fun k => itemCells (S i + k)) items
              = imap ((fun k => itemCells (i + k)) ∘ S) items) as ->; [|done].
      apply imap_ext. intros k x _. simpl. f_equal. lia.
  Qed.

Lemma rowXml_header :
    rowXml headerCells
    = xml "<w:tr>"
      ++ concat ((fun h => cellXml (mkCellCall (VStr h) true center 0)) <$> headers)
      ++ xml "</w:tr>".
  Proof. unfold rowXml, headerCells. by rewrite <- list_fmap_compose. Qed.

Lemma rowXml_total total :
    rowXml (totalCells total)
    = xml "<w:tr>"
      ++ createCell (VStr (js "合计：")) true (js "right") 6
      ++ createCell (VNum total) true center 0
      ++ createCell (VStr []) false center 0
      ++ xml "</w:tr>".
  Proof.
    unfold rowXml, totalCells, cellXml.
    cbn [fmap list_fmap concat content isBold align gridSpan].
    by rewrite app_nil_r, <- !(assoc_L (++)).
  Qed.

  (** The fragment is the opening of the table, its rows, and the
      closing tag. *)
Lemma generateTableXml_rows items total :
    generateTableXml items total
    = TABLE_OPEN ++ concat (rowXml <$> tableRows items total) ++ xml "</w:tbl>".
  Proof.
    unfold generateTableXml. cbv zeta.
    rewrite forEach_items, forEach_header.
    unfold tableRows. rewrite fmap_cons, fmap_app, concat_cons, concat_app.
    rewrite rowXml_header.
    change (concat (rowXml <$> [totalCells total]))
      with (rowXml (totalCells total) ++ []).
    rewrite rowXml_total, app_nil_r.
    by rewrite <- !(assoc_L (++)).
  Qed.

Lemma tableRows_length items total :
    length (tableRows items total) = (length items + 2)%nat.
  Proof. unfold tableRows. simpl. rewrite length_app, length_imap. simpl. lia. Qed.

Lemma tableRows_last items total :
    last (tableRows items total) = Some (totalCells total).
  Proof. unfold tableRows. by rewrite app_comm_cons, last_snoc. Qed.

Lemma startsWith_app_l (a b pat : jsstring) :
    startsWith a pat = true → startsWith (a ++ b) pat = true.
  Proof.
    revert a. induction pat as [|p pat IH]; intros [|c a]; simpl; try done.
    intros [-> ?]%andb_true_iff. by rewrite IH.
  Qed.

Lemma includes_app_l (a b pat : jsstring) :
    includes a pat = true → includes (a ++ b) pat = true.
  Proof.
    induction a as [|c a IH]; simpl.
    - rewrite orb_false_r. intros H. apply (startsWith_app_l [] b) in H.
      destruct b; simpl in *; by rewrite H.
    - intros [H|H]%orb_true_iff.
      + apply (startsWith_app_l (c :: a) b) in H. simpl in H. by rewrite H.
      + rewrite IH by done. apply orb_true_r.
  Qed.

  #[local] Transparent createCell xml.
End Fragment.

Lemma sanitize_no_markup content : (60 ∉ sanitize content) ∧ (62 ∉ sanitize content).
Proof.
  rewrite sanitize_escapeChar.
  split; intros Hin; apply list_elem_of_In, in_flat_map in Hin as (c & _ & Hc);
    apply list_elem_of_In in Hc; destruct (escapeChar_no_markup c); done.
Qed.

(** Reads the markup of a cell whose [bold], [align] and [gridSpan]
    arguments are given: the text stands between the first [<w:t>] and
    [</w:t>]; what the markup in front of it holds is computed. *)
Ltac read_cell :=
  unfold cellReads, createCell; cbv zeta;
  lazymatch goal with
  | |- ∃ before after,
         ?a ++ ?g ++ ?b ++ ?al ++ ?c ++ ?bo ++ ?d ++ ?sc ++ ?e = _ ∧ _ =>
    assert (d = take 13 d ++ xml "<w:t>") as Hd by (vm_compute; reflexivity);
    assert (e = xml "</w:t>" ++ drop 6 e) as He by (vm_compute; reflexivity);
    exists (a ++ g ++ b ++ al ++ c ++ bo ++ take 13 d), (drop 6 e);
    split;
    [ set (d1 := take 13 d) in *; set (e1 := drop 6 e) in *;
      clearbody d1 e1; rewrite Hd, He; by rewrite <- !(assoc_L (++))
    | clear Hd He; split_and!;
      [ vm_compute; reflexivity
      | apply sanitize_no_markup
      | repeat constructor; vm_compute; reflexivity
      | repeat constructor; vm_compute; reflexivity ] ]
  end.

Lemma total_label_cell content :
  cellReads (createCell content true (js "right") 6)
    [GRID_SPAN_6; JC_RIGHT; BOLD_RUN] [JC_CENTER] (sanitize content).
Proof. read_cell. Qed.

Lemma total_value_cell content :
  cellReads (createCell content true center 0)
    [JC_CENTER; BOLD_RUN] [GRID_SPAN; JC_RIGHT] (sanitize content).
Proof. read_cell. Qed.

Lemma plain_cell content :
  cellReads (createCell content false center 0)
    [JC_CENTER] [GRID_SPAN; BOLD_RUN; JC_RIGHT] (sanitize content).
Proof. read_cell. Qed.

(** C8.  For an empty item list and total 0 the builder returns a
    fragment of two rows, the header row and the total row; read as
    text it holds the eight header labels and then the total label,
    the text "0" and an empty cell. *)
Theorem empty_table_two_rows :
  generateTableXml [] (ofNat 0)
  = TABLE_OPEN ++ rowXml headerCells ++ rowXml (totalCells (ofNat 0))
    ++ xml "</w:tbl>"
  ∧ length (tableRows [] (ofNat 0)) = 2%nat
  ∧ fragmentRows (generateTableXml [] (ofNat 0))
    = [Some <$> headers; [Some (js "合计："); Some (js "0"); Some []]].
Proof. split_and!; vm_compute; reflexivity. Qed.

Example total_row_example :
  fragmentRows (generateTableXml
    [mkItem (js "1") (js "a<b") (js "m") (js "u") (ofNat 2)
       (Finite false 100555 (-3)) (Finite false 20111 (-2)) []]
    (Finite false 20111 (-2)))
  = [Some <$> headers;
     Some <$> [js "1"; js "a<b"; js "m"; js "u"; js "2"; js "100.555";
               js "201.11"; []];
     Some <$> [js "合计："; js "201.11"; []]].
Proof. vm_compute. reflexivity. Qed.

(** ** The CSV export *)

Section Csv.
Implicit Types (items : list ProductItem) (total : number).
  #[local] Opaque Number_toString.

Lemma joinStrings_cons sep x (l : list jsstring) :
    joinStrings sep (x :: l) = x ++ concat ((fun y => sep ++ y) <$> l).
  Proof.
    revert x. induction l as [|y l IH]; intros x.
    - by rewrite app_nil_r.
    - change (joinStrings sep (x :: y :: l))
        with (x ++ sep ++ joinStrings sep (y :: l)).
      rewrite IH. cbn [fmap list_fmap concat]. by rewrite <- !(assoc_L (++)).
  Qed.

Lemma utf8Encode_BOM (s : jsstring) :
    utf8Encode (BOM ++ s) = [239; 187; 191] ++ utf8Encode s.
  Proof. reflexivity. Qed.

Lemma csvContent_lines items total :
    csvContent items total
    = csvHeader
      ++ concat (imap (fun index item => NEWLINE ++ csvRow index item) items)
      ++ NEWLINE ++ csvTotalRow total.
  Proof.
    unfold csvContent. cbv zeta. rewrite joinStrings_cons.
    rewrite fmap_app, fmap_app, concat_app.
    assert (join (js ",") (VStr <$> headers) = csvHeader) as -> by (vm_compute; reflexivity).
    assert (∀ a b c d : jsstring, a = c → b = d → a ++ b = c ++ d) as Happ
      by (by intros ???? -> ->).
    f_equal. apply Happ.
    - rewrite <- !list_fmap_compose. rewrite fmap_imap.
      apply (f_equal (@concat N)), imap_ext. intros i item _.
      unfold compose, join, csvRow, NEWLINE, COMMA.
      cbn [fmap list_fmap joinStrings String_]. done.
    - cbn [fmap list_fmap concat]. rewrite app_nil_r.
      unfold join, csvTotalRow, NEWLINE, COMMA.
      cbn [fmap list_fmap joinStrings String_].
      reflexivity.
  Qed.
  #[local] Transparent Number_toString.
End Csv.

(** C5.  The CSV export is the UTF-8 form of a byte-order mark, the
    header line, one line per item in input order and the total line,
    with a line feed between lines; a line is the values as they are
    with a comma between them: nothing is quoted or escaped. *)
Theorem csv_export_layout items total :
  blobContent (generateExcelTable items total)
  = [239; 187; 191] ++ utf8Encode (csvContent items total)
  ∧ csvContent items total
    = csvHeader
      ++ concat (imap (fun index item => NEWLINE ++ csvRow index item) items)
      ++ NEWLINE ++ csvTotalRow total
  ∧ csvHeader = joinStrings COMMA headers
  ∧ csvTotalRow total
    = joinStrings COMMA
        [[]; []; []; []; []; js "合计"; Number_toString total; []].
Proof.
  split_and!.
  - apply utf8Encode_BOM.
  - apply csvContent_lines.
  - vm_compute. reflexivity.
  - unfold csvTotalRow, COMMA. cbn [joinStrings]. reflexivity.
Qed.

(** The scenario of the specification, and a name with a comma and a
    line feed in it: both go into the line as they are. *)
Example csv_scenario :
  split (csvContent
           [mkItem (js "1") (js "pen") (js "P-1") (js "box") (ofNat 2)
              (Finite false 100555 (-3)) (Finite false 20111 (-2)) []]
           (Finite false 20111 (-2))) NEWLINE
  = [csvHeader; js "1,pen,P-1,box,2,100.555,201.11,"; js ",,,,,合计,201.11,"].
Proof. vm_compute. reflexivity. Qed.

Example csv_not_quoted :
  csvRow 0 (mkItem (js "1") (js "a,b") [10] [] (ofNat 1) (ofNat 1) (ofNat 1) [])
  = js "1,a,b," ++ [10] ++ js ",,1,1,1,".
Proof. vm_compute. reflexivity. Qed.

(** ** The document generator *)

Section Generator.
Context `{Host}.
Implicit Types (doc : Document) (zip : Zip) (td : TableData).


Lemma generate_rendered (c : N) (content : list N) data tableData fields random :
    generateFilledDocument (Some (c :: content)) data tableData fields random
    = match docxtemplater (c :: content)
              (match findTableField fields with
               | Some f => <[fieldName f := VStr (tablePlaceholder random)]> data
               | None => data
               end) with
      | inl error =>
        ([ConsoleError (js "Error generating doc:") error], Rejected error)
      | inr outZip =>
        let '(outZip, console) :=
          spliceTable outZip (tablePlaceholder random) (findTableField fields)
            tableData in
        (console, Resolved (mkBlob outZip DOCX_MIME))
      end.
  Proof. reflexivity. Qed.



Lemma spliceTable_spliced zip placeholder field td c docXml target tableNode :
    zip !! DOCUMENT_XML = Some (c :: docXml) →
    let xmlDoc := parseFromString (c :: docXml) in
    let tempDoc := parseFromString (wrapTable (generateTableXml (items td) (total td))) in
    findTargetParagraph xmlDoc placeholder (getElementsByTagName xmlDoc W_T)
      = Some target →
    head (getElementsByTagName tempDoc W_TBL) ≫= nodeAt tempDoc = Some tableNode →
    spliceTable zip placeholder (Some field) (Some td)
    = (<[DOCUMENT_XML := serializeToString (replaceChild xmlDoc target tableNode)]> zip,
       []).
  Proof.
    intros Hzip xmlDoc tempDoc Hfind Htable. unfold spliceTable.
    rewrite Hzip. fold xmlDoc. rewrite Hfind. fold tempDoc. by rewrite Htable.
  Qed.
End Generator.






(** C3 as amended.  Neither the generator nor the builder compares the
    total with the amounts: for every table data, when the anchor
    paragraph is found and the fragment parses to a table node, the
    generator resolves with the primary part rewritten to the document
    in which that node stands for the paragraph, and the fragment's
    last row shows the total as it was given. *)
Theorem table_data_taken_as_given `{Host} content data td fields random
    field zip docXml target tableNode :
  let xmlDoc := parseFromString docXml in
  let tempDoc := parseFromString (wrapTable (generateTableXml (items td) (total td))) in
  content ≠ [] →
  findTableField fields = Some field →
  docxtemplater content (<[fieldName field := VStr (tablePlaceholder random)]> data)
    = inr zip →
  zip !! DOCUMENT_XML = Some docXml → docXml ≠ [] →
  findTargetParagraph xmlDoc (tablePlaceholder random)
    (getElementsByTagName xmlDoc W_T) = Some target →
  head (getElementsByTagName tempDoc W_TBL) ≫= nodeAt tempDoc = Some tableNode →
  generateFilledDocument (Some content) data (Some td) fields random
  = ([], Resolved (mkBlob
       (<[DOCUMENT_XML := serializeToString (replaceChild xmlDoc target tableNode)]> zip)
       DOCX_MIME))
  ∧ generateTableXml (items td) (total td)
    = TABLE_OPEN ++ concat (rowXml <$> tableRows (items td) (total td))
      ++ xml "</w:tbl>"
  ∧ last (tableRows (items td) (total td))
    = Some [mkCellCall (VStr (js "合计：")) true (js "right") 6;
            mkCellCall (VNum (total td)) true center 0;
            mkCellCall (VStr []) false center 0].
Proof.
  intros xmlDoc tempDoc Hcontent Hfield Hrender Hpart Hdoc Hfind Htable.
  destruct content as [|c content]; [done|].
  destruct docXml as [|d docXml]; [done|].
  split_and!.
  - rewrite generate_rendered, Hfield, Hrender.
    by rewrite (spliceTable_spliced _ _ _ _ _ _ _ _ Hpart Hfind Htable).
  - apply generateTableXml_rows.
  - apply tableRows_last.
Qed.

(** One item of amount 1 and a total of 5: the table is spliced in. *)
Lemma table_data_taken_as_given_witness :
  @generateFilledDocument stubHost (Some [80; 75]) ∅ (Some unchecked)
    (Some [mkField (js "{-商品信息表格-}") TABLE_KEYWORD true]) 7
  = ([], Resolved (mkBlob
       {[ DOCUMENT_XML :=
            wrapTable (generateTableXml (items unchecked) (total unchecked)) ]}
       DOCX_MIME)).
Proof.
  pose proof (@table_data_taken_as_given stubHost [80; 75] ∅ unchecked
    (Some [mkField (js "{-商品信息表格-}") TABLE_KEYWORD true]) 7
    (mkField (js "{-商品信息表格-}") TABLE_KEYWORD true)
    {[ DOCUMENT_XML := tablePlaceholder 7 ]} (tablePlaceholder 7) [0%nat]
    (Element W_TBL []
       [Text (wrapTable (generateTableXml (items unchecked) (total unchecked)))]))
    as Hthm.
  cbv zeta in Hthm. destruct Hthm as (Hgen & _).
  - done.
  - reflexivity.
  - vm_compute. reflexivity.
  - vm_compute. reflexivity.
  - done.
  - vm_compute. reflexivity.
  - vm_compute. reflexivity.
  - rewrite Hgen. vm_compute. reflexivity.
Defined.

(** C3 as stated fails: the amounts add up to 1, the total given is 5,
    and the builder returns the fragment with 5 in its total row. *)
Lemma total_not_verified_counterexample :
  sumAmounts (items unchecked) = Some (ofNat 1)
  ∧ ofNat 1 ≠ total unchecked
  ∧ fragmentRows (generateTableXml (items unchecked) (total unchecked))
    = [Some <$> headers;
       Some <$> [js "1"; js "pen"; []; []; js "1"; js "1"; js "1"; []];
       Some <$> [js "合计："; js "5"; []]].
Proof. split_and!; [vm_compute; reflexivity|done|vm_compute; reflexivity]. Qed.

(** ** Table rows in a sheet *)

Section SheetRows.
Implicit Types (ws : Worksheet) (rows : list Row) (c k n : nat).

Lemma setValues_columns ws ws' vals row :
    sheetColumns ws = sheetColumns ws' → setValues ws vals row = setValues ws' vals row.
  Proof.
    intros Hc. unfold setValues. f_equal. apply imap_ext. intros i v _.
    unfold columnStyle. by rewrite Hc.
  Qed.

Lemma getRow_lookup ws k :
    getRow ws (S k) = default emptyRow (sheetRows ws !! k).
  Proof. unfold getRow. by replace (S k - 1)%nat with k by lia. Qed.

Lemma padRows_lookup rows n k :
    default emptyRow (padRows rows n !! k) = default emptyRow (rows !! k).
  Proof.
    unfold padRows. destruct (decide (k < length rows)%nat).
    - by rewrite lookup_app_l.
    - rewrite lookup_app_r, (lookup_ge_None_2 rows) by lia.
      destruct (replicate _ _ !! _) eqn:E; [|done].
      by apply lookup_replicate in E as [-> _].
  Qed.

Lemma padRows_length rows n : (n ≤ length (padRows rows n))%nat.
  Proof. unfold padRows. rewrite length_app, length_replicate. lia. Qed.

Lemma padRows_enough rows n : (n ≤ length rows)%nat → padRows rows n = rows.
  Proof.
    intros Hn. unfold padRows. replace (n - length rows)%nat with 0%nat by lia.
    apply app_nil_r.
  Qed.

Lemma insertRow_rows ws c vals :
    (c ≤ length (sheetRows ws))%nat →
    sheetRows (insertRow ws (S c) vals)
    = take c (sheetRows ws) ++ setValues ws vals emptyRow :: drop c (sheetRows ws).
  Proof.
    intros Hc. unfold insertRow. cbn [sheetRows].
    replace (S c - 1)%nat with c by lia. by rewrite padRows_enough.
  Qed.

Lemma updateRow_rows ws c f :
    sheetRows (updateRow ws (S c) f)
    = <[c := f (getRow ws (S c))]> (padRows (sheetRows ws) (S c)).
  Proof. unfold updateRow. cbn [sheetRows]. by replace (S c - 1)%nat with c by lia. Qed.

Lemma itemSheetRow_built ws idx item :
    itemSheetRow ws idx item
    = setAlignment (mkAlignment center)
        (setValues ws
           [VNum (ofNat (idx + 1)); VStr (name item); VStr (model item);
            VStr (unit item); VNum (quantity item); VNum (price item);
            VNum (amount item); VStr (remark item)] emptyRow).
  Proof. reflexivity. Qed.

  (** One pass of the item loop puts the row of the item behind the
      rows before [S c]. *)
Lemma insertItemRow_rows ws c idx item :
    (c ≤ length (sheetRows ws))%nat →
    insertItemRow (ws, S c) idx item
    = (mkSheet (take c (sheetRows ws) ++ itemSheetRow ws idx item
                  :: drop c (sheetRows ws)) (sheetColumns ws),
       S (S c)).
  Proof.
    intros Hc. unfold insertItemRow. f_equal.
    set (ws1 := insertRow ws (S c) _).
    assert (sheetRows ws1 = take c (sheetRows ws) ++ _ :: drop c (sheetRows ws))
      as Hrows by (by apply insertRow_rows).
    assert (length (take c (sheetRows ws)) = c) as Hlen
      by (rewrite length_take; lia).
    unfold updateRow. rewrite getRow_lookup. replace (S c - 1)%nat with c by lia.
    assert (S c ≤ length (sheetRows ws1))%nat as Hfits.
    { rewrite Hrows, length_app, Hlen. simpl. lia. }
    rewrite (padRows_enough _ _ Hfits), Hrows. clear Hfits Hrows.
    change (sheetColumns ws1) with (sheetColumns ws). clearbody ws1.
    assert (∀ (pre post : list Row) x f, length pre = c →
              <[c := f (default emptyRow ((pre ++ x :: post) !! c))]>
                (pre ++ x :: post) = pre ++ f x :: post) as Hmid.
    { intros pre post x f <-. rewrite list_lookup_middle by done.
      rewrite insert_app_r_alt, Nat.sub_diag by lia. done. }
    rewrite Hmid by done. by rewrite itemSheetRow_built.
  Qed.

Lemma forEachItem_rows ws c idx (l : list ProductItem) :
    (c ≤ length (sheetRows ws))%nat →
    forEachItem (ws, S c) idx l
    = (mkSheet (take c (sheetRows ws)
                  ++ imap (fun k => itemSheetRow ws (idx + k)) l
                  ++ drop c (sheetRows ws)) (sheetColumns ws),
       S (c + length l)).
  Proof.
    revert ws c idx. induction l as [|item l IH]; intros ws c idx Hc.
    - simpl. rewrite take_drop, Nat.add_0_r. by destruct ws.
    - cbn [forEachItem]. rewrite insertItemRow_rows by done.
      assert (length (take c (sheetRows ws)) = c) as Hlen
        by (rewrite length_take; lia).
      rewrite IH by (cbn [sheetRows]; rewrite length_app, Hlen; simpl; lia).
      cbn [sheetRows sheetColumns length imap].
      set (I := itemSheetRow ws idx item).
      assert (take c (sheetRows ws) ++ I :: drop c (sheetRows ws)
              = (take c (sheetRows ws) ++ [I]) ++ drop c (sheetRows ws)) as ->
        by (by rewrite <- (assoc_L (++))).
      assert (length (take c (sheetRows ws) ++ [I]) = S c) as Hlen'
        by (rewrite length_app, Hlen; simpl; lia).
      rewrite take_app_length', drop_app_length' by done.
      f_equal; [|lia]. f_equal.
      rewrite <- (assoc_L (++)). simpl. rewrite Nat.add_0_r. do 3 f_equal.
      apply imap_ext. intros k x _. simpl.
      replace (idx + S k)%nat with (S (idx + k)) by lia. reflexivity.
  Qed.

Lemma headerSheetRow_built ws row :
    setAlignment (mkAlignment center)
      (setFont (mkFont true) (setValues ws (VStr <$> headers) row))
    = headerSheetRow.
  Proof. reflexivity. Qed.

Lemma totalSheetRow_built ws ws' total :
    setCellAlignment ws' 7 (mkAlignment center)
      (setAlignment (mkAlignment (js "right"))
         (setFont (mkFont true)
            (setValues ws
               [VStr (js "合计"); VStr []; VStr []; VStr []; VStr []; VStr [];
                VNum total; VStr []] emptyRow)))
    = totalSheetRow total.
  Proof. reflexivity. Qed.
End SheetRows.

(** The rows of the sheet after the table went in at row [S a]: the
    rows before it, the header row in the place of the anchor row, the
    item rows, the total row, and the rows that followed the anchor. *)
Lemma insertTable_rows ws a td :
  sheetRows (insertTable ws (Z.of_nat (S a)) (Some td))
  = take a (sheetRows ws ++ replicate (a - length (sheetRows ws)) emptyRow)
    ++ headerSheetRow :: imap (itemSheetRow ws) (items td)
    ++ totalSheetRow (total td) :: drop (S a) (sheetRows ws).
Proof.
  unfold insertTable. rewrite decide_True by lia. rewrite Nat2Z.id.
  set (ws1 := updateRow ws (S a) _).
  assert (sheetRows ws1 = <[a := headerSheetRow]> (padRows (sheetRows ws) (S a)))
    as Hrows1.
  { subst ws1. rewrite updateRow_rows. by rewrite headerSheetRow_built. }
  assert (sheetColumns ws1 = sheetColumns ws) as Hcols1 by reflexivity.
  pose proof (padRows_length (sheetRows ws) (S a)) as Hpad.
  assert (S a ≤ length (sheetRows ws1))%nat as Hfit1
    by (rewrite Hrows1, length_insert; lia).
  rewrite (forEachItem_rows ws1 (S a) 0 (items td) Hfit1).
  set (rows2 := take (S a) (sheetRows ws1) ++ _ ++ drop (S a) (sheetRows ws1)).
  set (ws2 := mkSheet rows2 (sheetColumns ws1)).
  assert (length (take (S a) (sheetRows ws1)) = S a) as Hlen1
    by (rewrite length_take; lia).
  set (c2 := (S a + length (items td))%nat).
  assert (take c2 rows2
          = take (S a) (sheetRows ws1) ++ imap (fun k => itemSheetRow ws1 (0 + k)) (items td))
    as Htake2.
  { subst rows2. rewrite (assoc_L (++)). apply take_app_length'.
    rewrite length_app, Hlen1, length_imap. done. }
  assert (drop c2 rows2 = drop (S a) (sheetRows ws1)) as Hdrop2.
  { subst rows2. rewrite (assoc_L (++)). apply drop_app_length'.
    rewrite length_app, Hlen1, length_imap. done. }
  assert (c2 ≤ length (sheetRows ws2))%nat as Hfit2.
  { cbn [ws2 sheetRows]. subst rows2.
    rewrite !length_app, Hlen1, length_imap. subst c2. lia. }
  rewrite updateRow_rows, (insertRow_rows ws2 c2 _ Hfit2).
  cbn [ws2 sheetRows]. rewrite Htake2, Hdrop2.
  rewrite padRows_enough.
  2:{ rewrite !length_app, Hlen1, length_imap. simpl. subst c2. lia. }
  rewrite getRow_lookup, (insertRow_rows ws2 c2 _ Hfit2).
  cbn [ws2 sheetRows]. rewrite Htake2, Hdrop2.
  assert (length (take (S a) (sheetRows ws1)
                  ++ imap (fun k => itemSheetRow ws1 (0 + k)) (items td)) = c2) as Hlen2
    by (rewrite length_app, Hlen1, length_imap; done).
  rewrite <- Hlen2 at 1 2. rewrite list_lookup_middle by done.
  rewrite insert_app_r_alt, Nat.sub_diag by lia. cbn [default insert list_insert].
  cbv beta delta [Datatypes.id]. rewrite totalSheetRow_built.
  rewrite Hrows1.
  assert (length (take a (padRows (sheetRows ws) (S a))) = a) as Hlena
    by (rewrite length_take; lia).
  rewrite insert_take_drop by lia.
  set (rest := drop (S a) (padRows (sheetRows ws) (S a))).
  rewrite (cons_middle headerSheetRow (take a _)), (assoc_L (++) (take a _)).
  rewrite take_app_length' by (rewrite length_app, Hlena; simpl; lia).
  rewrite drop_app_length' by (rewrite length_app, Hlena; simpl; lia).
  rewrite <- !(assoc_L (++)). simpl. subst rest.
  assert (take a (padRows (sheetRows ws) (S a))
          = take a (sheetRows ws ++ replicate (a - length (sheetRows ws)) emptyRow))
    as ->.
  { unfold padRows. destruct (decide (a < length (sheetRows ws))%nat).
    - replace (S a - length (sheetRows ws))%nat with 0%nat by lia.
      replace (a - length (sheetRows ws))%nat with 0%nat by lia. done.
    - replace (S a - length (sheetRows ws))%nat
        with (S (a - length (sheetRows ws))) by lia.
      rewrite replicate_S_end, (assoc_L (++)).
      rewrite take_app_length'; [|rewrite length_app, length_replicate; lia].
      rewrite take_ge; [done|rewrite length_app, length_replicate; lia]. }
  assert (drop (S a) (padRows (sheetRows ws) (S a)) = drop (S a) (sheetRows ws)) as ->.
  { unfold padRows. rewrite drop_app.
    rewrite (drop_ge (replicate _ _)); [apply app_nil_r|].
    rewrite length_replicate. lia. }
  reflexivity.
Qed.

(** C2 as amended.  When the anchor was found at row [anchor], the
    header takes the place of the anchor row, the item rows and the
    total row are inserted behind it, and each row that followed the
    anchor row is moved down by the number of items plus one.  The
    header row is bold and centered, each item row is centered, the
    total row is bold and right-aligned but for its seventh cell, the
    total, which is centered; the rows before the anchor stay. *)
Theorem table_rows_in_sheet ws anchor td :
  (1 ≤ anchor)%nat →
  let n := length (items td) in
  let ws' := insertTable ws (Z.of_nat anchor) (Some td) in
  (∀ k, (1 ≤ k < anchor)%nat → getRow ws' k = getRow ws k)
  ∧ getRow ws' anchor = headerSheetRow
  ∧ (∀ i item, items td !! i = Some item →
       getRow ws' (anchor + 1 + i) = itemSheetRow ws i item)
  ∧ getRow ws' (anchor + n + 1) = totalSheetRow (total td)
  ∧ (∀ k, (anchor < k)%nat → getRow ws' (k + n + 1) = getRow ws k).
Proof.
  intros Hanchor n ws'. destruct anchor as [|a]; [lia|clear Hanchor].
  pose proof (insertTable_rows ws a td) as Hrows. fold ws' in Hrows.
  set (A := take a (sheetRows ws ++ replicate (a - length (sheetRows ws)) emptyRow))
    in Hrows.
  assert (length A = a) as HA.
  { subst A. rewrite length_take, length_app, length_replicate. lia. }
  assert (length (imap (itemSheetRow ws) (items td)) = n) as HI
    by apply length_imap.
  split_and!.
  - intros [|k] [Hk1 Hk2]; [lia|]. rewrite !getRow_lookup, Hrows.
    rewrite lookup_app_l by lia. subst A. rewrite lookup_take_lt by lia.
    destruct (decide (k < length (sheetRows ws))%nat).
    + by rewrite lookup_app_l.
    + rewrite lookup_app_r, (lookup_ge_None_2 (sheetRows ws)) by lia.
      by rewrite lookup_replicate_2 by lia.
  - rewrite getRow_lookup, Hrows. rewrite <- HA at 1.
    by rewrite list_lookup_middle.
  - intros i item Hi. replace (S a + 1 + i)%nat with (S (S a + i)) by lia.
    rewrite getRow_lookup, Hrows.
    rewrite lookup_app_r by lia. replace (S a + i - length A)%nat with (S i) by lia.
    rewrite lookup_cons_ne_0 by lia. cbn [Nat.pred].
    rewrite lookup_app_l by (apply lookup_lt_Some in Hi; lia).
    by rewrite list_lookup_imap, Hi.
  - replace (S a + n + 1)%nat with (S (S a + n)) by lia.
    rewrite getRow_lookup, Hrows.
    rewrite lookup_app_r by lia. replace (S a + n - length A)%nat with (S n) by lia.
    rewrite lookup_cons_ne_0 by lia. cbn [Nat.pred].
    rewrite <- HI at 1. by rewrite list_lookup_middle.
  - intros [|k] Hk; [lia|]. replace (S k + n + 1)%nat with (S (S k + n)) by lia.
    rewrite !getRow_lookup, Hrows.
    rewrite lookup_app_r by lia.
    replace (S k + n - length A)%nat with (S (n + S (k - S a))) by lia.
    rewrite lookup_cons_ne_0 by lia. cbn [Nat.pred].
    rewrite lookup_app_r by lia.
    replace (n + S (k - S a) - length (imap (itemSheetRow ws) (items td)))%nat
      with (S (k - S a)) by lia.
    rewrite lookup_cons_ne_0 by lia. cbn [Nat.pred]. rewrite lookup_drop. f_equal. f_equal. lia.
Qed.

(** The table at row 1 of a sheet of two rows, one item: the row that
    followed the anchor is at row 4. *)
Lemma table_rows_in_sheet_witness :
  getRow (insertTable twoRowSheet 1 (Some unchecked)) (2 + 1 + 1)
  = getRow twoRowSheet 2.
Proof.
  pose proof (table_rows_in_sheet twoRowSheet 1 unchecked (le_n 1)) as H.
  cbv zeta in H. destruct H as (_ & _ & _ & _ & H).
  apply (H 2%nat). lia.
Defined.

(** C2 as stated fails: with no item the row that followed the anchor
    row is one row further down, not two. *)
Lemma table_rows_shift_counterexample :
  let td := mkTableData [] (ofNat 0) in
  let ws' := insertTable twoRowSheet 1 (Some td) in
  getRow ws' (2 + (length (items td) + 2)) ≠ getRow twoRowSheet 2
  ∧ getRow ws' (2 + (length (items td) + 1)) = getRow twoRowSheet 2
  ∧ getRow ws' 1 = headerSheetRow
  ∧ getRow ws' 2 = totalSheetRow (ofNat 0).
Proof. split_and!; [by vm_compute|vm_compute; reflexivity..]. Qed.

(** * Further properties *)

(** ** What the pattern matches *)

Section Matching.
Implicit Types (s pat text : jsstring) (m : RegExpMatch).

Lemma startsWith_spec s pat : startsWith s pat = true ↔ ∃ r, s = pat ++ r.
Proof.
  revert s. induction pat as [|p pat IH]; intros s.
  - split; [by exists s|done].
  - destruct s as [|c s]; simpl.
    + split; [done|by intros [r ?]].
    + rewrite andb_true_iff, IH, N.eqb_eq. split.
      * intros [-> [r ->]]. by exists r.
      * intros [r [= -> ->]]. eauto.
Qed.

Lemma includes_spec s pat : includes s pat = true ↔ ∃ l r, s = l ++ pat ++ r.
Proof.
  induction s as [|c s IH].
  - simpl. rewrite orb_false_r, startsWith_spec. split.
    + intros [r Hr]. by exists [], r.
    + intros (l & r & Hs). symmetry in Hs.
      apply app_eq_nil in Hs as [-> [-> ->]%app_eq_nil]. by exists [].
  - cbn [includes]. rewrite orb_true_iff, startsWith_spec, IH. split.
    + intros [[r Hr]|(l & r & ->)]; [by exists [], r|by exists (c :: l), r].
    + intros ([|c' l] & r & Hs).
      * left. by exists r.
      * right. injection Hs as -> ->. by exists l, r.
Qed.

Lemma lazyBody_sound s body :
  lazyBody s = Some body → ∃ rest, s = body ++ CLOSE ++ rest.
Proof.
  revert body. induction s as [|c s IH]; intros body; rewrite lazyBody_unfold.
  - done.
  - destruct (startsWith (c :: s) [45; 125]) eqn:Hs.
    + intros [= <-]. apply startsWith_spec in Hs as [r Hr]. by exists r.
    + destruct (lazyBody s) as [b|]; [|done]. intros [= <-].
      destruct (IH b eq_refl) as [rest ->]. by exists rest.
Qed.

Lemma execAt_open c r :
  execAt (OPEN ++ c :: r)
  = (fun b => mkMatch (OPEN ++ c :: b ++ CLOSE) (c :: b)) <$> lazyBody r.
Proof. reflexivity. Qed.

Lemma execAt_short : execAt OPEN = None.
Proof. reflexivity. Qed.

#[local] Opaque OPEN CLOSE.

(** A match is an opening delimiter, a non-empty interior and a
    closing delimiter, and it stands at the start of the text tried. *)
Lemma execAt_sound s m :
  execAt s = Some m →
  group1 m ≠ [] ∧ whole m = OPEN ++ group1 m ++ CLOSE ∧ ∃ rest, s = whole m ++ rest.
Proof.
  destruct (startsWith s OPEN) eqn:Hs.
  - apply startsWith_spec in Hs as [[|c r] ->].
    + by rewrite app_nil_r, execAt_short.
    + rewrite execAt_open. destruct (lazyBody r) as [b|] eqn:Hb; [|done].
      intros [= <-]. cbn [whole group1]. split_and!; [done..|].
      destruct (lazyBody_sound _ _ Hb) as [rest ->]. exists rest.
      by rewrite <- !(assoc_L (++)), <- !app_comm_cons, <- !(assoc_L (++)).
  - unfold execAt. by rewrite Hs.
Qed.

Lemma matchAllFrom_sound skip s m :
  m ∈ matchAllFrom skip s →
  group1 m ≠ [] ∧ whole m = OPEN ++ group1 m ++ CLOSE
  ∧ ∃ l r, s = l ++ whole m ++ r.
Proof.
  revert skip. induction s as [|c s IH]; intros skip; [by intros ?%elem_of_nil|].
  assert (∀ k, m ∈ matchAllFrom k s →
            group1 m ≠ [] ∧ whole m = OPEN ++ group1 m ++ CLOSE
            ∧ ∃ l r, c :: s = l ++ whole m ++ r) as Hrest.
  { intros k Hk. destruct (IH _ Hk) as (? & ? & l & r & ->).
    split_and!; [done..|]. by exists (c :: l), r. }
  cbn [matchAllFrom]. destruct skip as [|k]; [|apply Hrest].
  destruct (execAt (c :: s)) as [m'|] eqn:He; [|apply Hrest].
  intros [->|Hin]%elem_of_cons; [|by eapply Hrest].
  destruct (execAt_sound _ _ He) as (? & ? & rest & Hs).
  split_and!; [done..|]. by exists [], rest.
Qed.
#[local] Transparent OPEN CLOSE.
End Matching.

(** ** The fields of a scan *)

Section ScanExtras.
Implicit Types (s text : jsstring) (ms : list RegExpMatch) (f : FieldDefinition).

Lemma trimStart_suffix s : ∃ ws, s = ws ++ trimStart s.
Proof.
  induction s as [|c s [ws IH]]; [by exists []|]. simpl.
  destruct (isWhiteSpace c); [|by exists []].
  exists (c :: ws). by rewrite <- app_comm_cons, <- IH.
Qed.

Lemma trimStart_head s c : head (trimStart s) = Some c → isWhiteSpace c = false.
Proof.
  induction s as [|x s IH]; [done|]. simpl.
  destruct (isWhiteSpace x) eqn:Hx; [done|]. by intros [= <-].
Qed.

Lemma trimStart_fixed s :
  (∀ c, head s = Some c → isWhiteSpace c = false) → trimStart s = s.
Proof. destruct s as [|c s]; [done|]. intros H. simpl. by rewrite (H c). Qed.

Lemma trimEnd_prefix s : ∃ ws, s = trimEnd s ++ ws.
Proof.
  unfold trimEnd. destruct (trimStart_suffix (rev s)) as [ws Hws].
  exists (rev ws). rewrite <- rev_app_distr, <- Hws. by rewrite rev_involutive.
Qed.

Lemma head_rev (l : jsstring) : head (rev l) = last l.
Proof.
  induction l as [|x l IH] using rev_ind; [done|].
  by rewrite rev_app_distr, last_snoc.
Qed.

Lemma trimEnd_last s c : last (trimEnd s) = Some c → isWhiteSpace c = false.
Proof.
  unfold trimEnd. rewrite <- head_rev, rev_involutive. apply trimStart_head.
Qed.

Lemma trim_head s c : head (trim s) = Some c → isWhiteSpace c = false.
Proof.
  unfold trim. destruct (trimEnd_prefix (trimStart s)) as [ws Hws].
  intros Hc. apply (trimStart_head s). rewrite Hws.
  destruct (trimEnd (trimStart s)); [done|]. exact Hc.
Qed.

Lemma trim_last s c : last (trim s) = Some c → isWhiteSpace c = false.
Proof. apply trimEnd_last. Qed.

Lemma trim_fixed s :
  (∀ c, head s = Some c → isWhiteSpace c = false) →
  (∀ c, last s = Some c → isWhiteSpace c = false) →
  trim s = s.
Proof.
  intros Hh Hl. unfold trim. rewrite (trimStart_fixed s Hh). unfold trimEnd.
  rewrite trimStart_fixed; [apply rev_involutive|].
  intros c. rewrite head_rev. apply Hl.
Qed.

Lemma trim_idempotent s : trim (trim s) = trim s.
Proof. apply trim_fixed; [apply trim_head|apply trim_last]. Qed.

(** A field of the result is the field of a match of the text. *)
Lemma fieldsOfMatches_from_match ms f :
  f ∈ fieldsOfMatches ms → ∃ m, m ∈ ms ∧ f = fieldOf m.
Proof.
  rewrite fieldsOfMatches_Permutation. intros [k Hk]%list_elem_of_lookup.
  destruct (scannedFields_first _ _ _ Hk) as (a & m & Ha & -> & _).
  exists m. split; [|done]. apply list_elem_of_lookup. eauto.
Qed.

Lemma find_app {A} (P : A → bool) (l1 l2 : list A) :
  List.find P (l1 ++ l2)
  = match List.find P l1 with Some x => Some x | None => List.find P l2 end.
Proof. induction l1 as [|x l1 IH]; [done|]. simpl. by destruct (P x). Qed.

Lemma find_none_filter (l : list FieldDefinition) :
  List.find isTable (filter isScalar l) = None.
Proof.
  induction l as [|x l IH]; [done|]. destruct (isTable x) eqn:Hx.
  - rewrite filter_cons_False; [done|]. unfold isScalar. rewrite Hx. simpl. tauto.
  - rewrite filter_cons_True by (unfold isScalar; by rewrite Hx).
    simpl. by rewrite Hx.
Qed.

Lemma find_filter (l : list FieldDefinition) :
  List.find isTable (filter isTable l) = List.find isTable l.
Proof.
  induction l as [|x l IH]; [done|]. destruct (isTable x) eqn:Hx.
  - rewrite filter_cons_True by (by rewrite Hx). simpl. by rewrite Hx.
  - rewrite filter_cons_False by (rewrite Hx; simpl; tauto). simpl. by rewrite Hx.
Qed.

Lemma find_scannedFields ms :
  List.find isTable (scannedFields ms)
  = fieldOf <$> List.find (fun m => isTable (fieldOf m)) ms.
Proof.
  induction ms as [|m ms IH] using rev_ind; [done|].
  rewrite scannedFields_snoc, !find_app. case_decide as Hin.
  - rewrite IH. destruct (List.find _ ms) as [m'|] eqn:Hfind; [done|].
    cbn [List.find]. destruct (isTable (fieldOf m)) eqn:Hm; [|done].
    (* an earlier match of the same name is a table field too *)
    apply list_elem_of_fmap in Hin as (m' & Heq & Hm').
    apply list_elem_of_In in Hm'.
    pose proof (find_none _ _ Hfind m' Hm') as Hnone.
    unfold fieldOf in Hm, Hnone. simpl in Hm, Hnone. congruence.
  - rewrite find_app, IH. destruct (List.find _ ms) as [m'|]; [done|].
    cbn [List.find]. by destruct (isTable (fieldOf m)).
Qed.
End ScanExtras.

(** X1.  Every field the scan returns comes from a placeholder of the
    text: its tag is the opening delimiter, a non-empty interior and
    the closing delimiter, the tag occurs in the text as it is, the
    name is the trimmed interior, and the field is a table field exactly
    when the name holds the keyword. *)
Theorem scan_fields_are_placeholders text f :
  f ∈ extractFieldsFromDoc text →
  ∃ interior,
    interior ≠ []
    ∧ originalTag f = OPEN ++ interior ++ CLOSE
    ∧ fieldName f = trim interior
    ∧ isTable f = includes (fieldName f) TABLE_KEYWORD
    ∧ ∃ before after, text = before ++ originalTag f ++ after.
Proof.
  rewrite extractFieldsFromDoc_matches. intros Hf.
  destruct (fieldsOfMatches_from_match _ _ Hf) as (m & Hm & ->).
  destruct (matchAllFrom_sound _ _ _ Hm) as (Hne & Hw & Hocc).
  exists (group1 m). by split_and!.
Qed.

Lemma scan_fields_are_placeholders_witness :
  ∃ interior,
    interior ≠ []
    ∧ js "{- Party A -}" = OPEN ++ interior ++ CLOSE
    ∧ js "Party A" = trim interior
    ∧ false = includes (js "Party A") TABLE_KEYWORD
    ∧ ∃ before after, js "甲方：{- Party A -}。" = before ++ js "{- Party A -}" ++ after.
Proof.
  apply (scan_fields_are_placeholders (js "甲方：{- Party A -}。")
           (mkField (js "{- Party A -}") (js "Party A") false)).
  vm_compute. left.
Defined.

(** X2.  A text without an opening delimiter, or without a closing
    one, has no field: an unterminated placeholder is passed over, and
    the scan returns the empty list rather than failing. *)
Theorem scan_without_delimiters text :
  includes text OPEN = false ∨ includes text CLOSE = false →
  matchAll text = [] ∧ extractFieldsFromDoc text = [].
Proof.
  intros Hno.
  assert (matchAll text = []) as Hnil.
  { destruct (matchAll text) as [|m ms] eqn:Hms; [done|]. exfalso.
    assert (m ∈ matchAllFrom 0 text) as Hm by (fold (matchAll text); rewrite Hms; left).
    destruct (matchAllFrom_sound _ _ _ Hm) as (_ & Hw & l & r & Htext).
    assert (includes text OPEN = true) as Ho.
    { apply includes_spec. exists l, (group1 m ++ CLOSE ++ r).
      rewrite Htext, Hw. by rewrite <- !(assoc_L (++)). }
    assert (includes text CLOSE = true) as Hc.
    { apply includes_spec. exists (l ++ OPEN ++ group1 m), r.
      rewrite Htext, Hw. by rewrite <- !(assoc_L (++)). }
    destruct Hno; congruence. }
  split; [done|]. by rewrite extractFieldsFromDoc_matches, Hnil.
Qed.

Lemma scan_without_delimiters_witness :
  matchAll (js "see {-Party A- } and {x}") = []
  ∧ extractFieldsFromDoc (js "see {-Party A- } and {x}") = [].
Proof.
  apply scan_without_delimiters. right. vm_compute. reflexivity.
Defined.

(** X3.  A field name has no white space at its start or at its end,
    and trimming it again changes nothing. *)
Theorem field_names_are_trimmed text f :
  f ∈ extractFieldsFromDoc text →
  (∀ c, head (fieldName f) = Some c → isWhiteSpace c = false)
  ∧ (∀ c, last (fieldName f) = Some c → isWhiteSpace c = false)
  ∧ trim (fieldName f) = fieldName f.
Proof.
  rewrite extractFieldsFromDoc_matches. intros Hf.
  destruct (fieldsOfMatches_from_match _ _ Hf) as (m & _ & ->).
  cbn [fieldOf fieldName]. unfold contentOf.
  split_and!; [apply trim_head|apply trim_last|apply trim_idempotent].
Qed.

Lemma field_names_are_trimmed_witness :
  trim (js "Party A") = js "Party A".
Proof.
  apply (field_names_are_trimmed (js "{-  Party A
  -}") (mkField (js "{-  Party A
  -}") (js "Party A") false)).
  vm_compute. left.
Defined.

(** X4.  The table field that the generators pick from a scan result,
    the first one flagged as table, is the field of the first
    placeholder in the text whose trimmed interior holds the keyword;
    there is none exactly when no placeholder holds it. *)
Theorem table_field_of_scan text :
  findTableField (Some (extractFieldsFromDoc text))
  = fieldOf <$> List.find (fun m => isTable (fieldOf m)) (matchAll text).
Proof.
  rewrite extractFieldsFromDoc_matches, fieldsOfMatches_partition.
  cbn [findTableField mbind option_bind].
  rewrite find_app, find_none_filter, find_filter. apply find_scannedFields.
Qed.

(** ** How generation settles *)

Section Settling.
Context `{Host}.
Implicit Types (zip : Zip) (td : option TableData).

Lemma generate_unreadable content data td fields random :
  ¬ readable content →
  generateFilledDocument content data td fields random
  = ([ConsoleError (js "Error generating doc:")
        (mkError (js "Cannot read file content"))],
     Rejected (mkError (js "Cannot read file content"))).
Proof.
  intros Hno. destruct content as [[|c bytes]|]; [done| |done].
  destruct Hno. by exists c, bytes.
Qed.

Lemma generate_readable c bytes data td fields random :
  generateFilledDocument (Some (c :: bytes)) data td fields random
  = match docxtemplater (c :: bytes) (templateDataOf data fields random) with
    | inl error =>
      ([ConsoleError (js "Error generating doc:") error], Rejected error)
    | inr outZip =>
      ((spliceTable outZip (tablePlaceholder random) (findTableField fields) td).2,
       Resolved (mkBlob
         (spliceTable outZip (tablePlaceholder random) (findTableField fields) td).1
         DOCX_MIME))
    end.
Proof.
  rewrite generate_rendered. unfold templateDataOf.
  destruct (docxtemplater _ _); [done|]. by destruct (spliceTable _ _ _ _).
Qed.

(** The splice step touches the primary part only, and that only by
    writing the serialized document over it. *)
Lemma spliceTable_parts zip placeholder tableField td part :
  part ≠ DOCUMENT_XML →
  (spliceTable zip placeholder tableField td).1 !! part = zip !! part.
Proof.
  intros Hpart. unfold spliceTable.
  destruct (zip !! DOCUMENT_XML) as [[|d docXml]|], tableField, td; try done.
  destruct (findTargetParagraph _ _ _); [|done].
  destruct (_ ≫= _); [|done]. cbn [fst]. by rewrite lookup_insert_ne.
Qed.

Lemma spliceTable_dom zip placeholder tableField td :
  dom (spliceTable zip placeholder tableField td).1 = dom zip.
Proof.
  unfold spliceTable.
  destruct (zip !! DOCUMENT_XML) as [[|d docXml]|] eqn:Hz, tableField, td; try done.
  destruct (findTargetParagraph _ _ _); [|done].
  destruct (_ ≫= _); [|done]. cbn [fst]. rewrite dom_insert_L.
  assert (DOCUMENT_XML ∈ dom zip) by (apply elem_of_dom; eauto). set_solver.
Qed.

Lemma spliceTable_console zip placeholder tableField td :
  (spliceTable zip placeholder tableField td).2 = []
  ∨ (spliceTable zip placeholder tableField td).2 = [ConsoleWarn WARNING]
    ∧ (spliceTable zip placeholder tableField td).1 = zip.
Proof.
  unfold spliceTable.
  destruct (zip !! DOCUMENT_XML) as [[|d docXml]|], tableField, td; auto.
  destruct (findTargetParagraph _ _ _); [|auto].
  destruct (_ ≫= _); auto.
Qed.
End Settling.

(** X5.  Generation is rejected in two cases only: nothing (or an
    empty buffer) was read, with the error "Cannot read file content",
    or the template engine threw, with the engine's error.  In both
    the error is logged and nothing else is; the table step never
    rejects. *)
Theorem generation_rejected_iff `{Host} content data td fields random error :
  (generateFilledDocument content data td fields random).2 = Rejected error
  ↔ (¬ readable content ∧ error = mkError (js "Cannot read file content"))
    ∨ (∃ c bytes, content = Some (c :: bytes)
         ∧ docxtemplater (c :: bytes) (templateDataOf data fields random)
           = inl error).
Proof.
  destruct content as [[|c bytes]|].
  - rewrite generate_unreadable by (by intros (? & ? & ?)). cbn [snd]. split.
    + intros [= <-]. left. split; [by intros (? & ? & ?)|done].
    + intros [[_ ->]|(? & ? & ? & _)]; done.
  - rewrite generate_readable. split.
    + destruct (docxtemplater _ _) as [e|zip] eqn:Hr; [|done].
      intros [= <-]. right. by exists c, bytes.
    + intros [[Hno _]|(c' & bytes' & [= <- <-] & ->)]; [|done].
      destruct Hno. by exists c, bytes.
  - rewrite generate_unreadable by (by intros (? & ? & ?)). cbn [snd]. split.
    + intros [= <-]. left. split; [by intros (? & ? & ?)|done].
    + intros [[_ ->]|(? & ? & ? & _)]; done.
Qed.

(** X6.  When generation resolves, the package returned has the parts
    of the rendered package, each part but the primary one as the
    engine left it, and the document type; the console holds nothing
    or the one warning, and with the warning the package is the
    rendered one. *)
Theorem generation_keeps_other_parts `{Host} content data td fields random out :
  (generateFilledDocument content data td fields random).2 = Resolved out →
  ∃ c bytes rendered,
    content = Some (c :: bytes)
    ∧ docxtemplater (c :: bytes) (templateDataOf data fields random) = inr rendered
    ∧ blobType out = DOCX_MIME
    ∧ dom (blobContent out) = dom rendered
    ∧ (∀ part, part ≠ DOCUMENT_XML → blobContent out !! part = rendered !! part)
    ∧ ((generateFilledDocument content data td fields random).1 = []
       ∨ (generateFilledDocument content data td fields random).1
           = [ConsoleWarn WARNING]
         ∧ blobContent out = rendered).
Proof.
  destruct content as [[|c bytes]|].
  - by rewrite generate_unreadable by (by intros (? & ? & ?)).
  - rewrite generate_readable.
    destruct (docxtemplater _ _) as [e|zip] eqn:Hr; [done|].
    intros [= <-]. exists c, bytes, zip. cbn [blobType blobContent fst].
    split_and!; [done..|apply spliceTable_dom| |apply spliceTable_console].
    intros part Hpart. by apply spliceTable_parts.
  - by rewrite generate_unreadable by (by intros (? & ? & ?)).
Qed.

Lemma generation_keeps_other_parts_witness :
  ∃ c bytes rendered,
    Some [80; 75] = Some (c :: bytes)
    ∧ @docxtemplater stubHost (c :: bytes)
        (templateDataOf ∅ (Some [mkField (js "{-other-}") (js "other") true]) 7)
      = inr rendered
    ∧ blobType (mkBlob ({[ DOCUMENT_XML := js "no table" ]} : Zip) DOCX_MIME)
      = DOCX_MIME
    ∧ dom (blobContent (mkBlob ({[ DOCUMENT_XML := js "no table" ]} : Zip) DOCX_MIME))
      = dom rendered
    ∧ (∀ part, part ≠ DOCUMENT_XML →
         blobContent (mkBlob ({[ DOCUMENT_XML := js "no table" ]} : Zip) DOCX_MIME)
           !! part = rendered !! part)
    ∧ ((@generateFilledDocument stubHost (Some [80; 75]) ∅
          (Some (mkTableData [] (ofNat 0)))
          (Some [mkField (js "{-other-}") (js "other") true]) 7).1 = []
       ∨ (@generateFilledDocument stubHost (Some [80; 75]) ∅
            (Some (mkTableData [] (ofNat 0)))
            (Some [mkField (js "{-other-}") (js "other") true]) 7).1
           = [ConsoleWarn WARNING]
         ∧ blobContent (mkBlob ({[ DOCUMENT_XML := js "no table" ]} : Zip) DOCX_MIME)
           = rendered).
Proof.
  apply (@generation_keeps_other_parts stubHost).
  vm_compute. reflexivity.
Defined.

(** ** The document tree *)

Section Tree.
Implicit Types (doc : Document) (cs : list Node) (path : list nat) (ref : NodeRef).

Lemma descend_replaceAt cs path old new :
  descend cs path = Some old → descend (replaceAt cs path new) path = Some new.
Proof.
  revert cs. induction path as [|i path IH]; intros cs; [done|].
  cbn [descend replaceAt]. destruct (cs !! i) as [n|] eqn:Hi; [|done].
  destruct path as [|j path].
  - intros _. rewrite list_lookup_insert_eq; [done|by eapply lookup_lt_Some].
  - destruct n as [t a cs'| |]; try done. intros Hold.
    rewrite list_lookup_insert_eq by (by eapply lookup_lt_Some).
    by apply IH.
Qed.

Lemma descend_replaceAt_other cs path other new :
  diverge path other →
  descend (replaceAt cs path new) other = descend cs other.
Proof.
  revert cs other. induction path as [|i path IH]; intros cs [|j other]; try done.
  cbn [diverge]. intros Hd. cbn [replaceAt].
  destruct path as [|i' path].
  - destruct Hd as [Hne|[_ []]]. cbn [descend]. by rewrite list_lookup_insert_ne.
  - destruct (cs !! i) as [[t a cs'| |]|] eqn:Hi; try done.
    cbn [descend]. destruct (decide (i = j)) as [<-|Hne].
    + destruct Hd as [?|[_ Hd]]; [done|].
      rewrite list_lookup_insert_eq by (by eapply lookup_lt_Some). rewrite Hi.
      destruct other as [|j' other]; [by destruct Hd|]. by apply IH.
    + by rewrite list_lookup_insert_ne.
Qed.

Lemma replaceAt_length cs path new : length (replaceAt cs path new) = length cs.
Proof.
  destruct path as [|i [|j path]]; cbn [replaceAt]; [done|apply length_insert|].
  destruct (cs !! i) as [[]|]; try done. apply length_insert.
Qed.

(** The walk up from a node ends at that node or above it, at an
    element of the name looked for. *)
Lemma enclosing_sound doc tag ref p :
  enclosing doc tag ref = Some p →
  p ≠ [] ∧ p `suffix_of` ref
  ∧ ∃ n, nodeAt doc p = Some n ∧ nodeName n = tag.
Proof.
  induction ref as [|i parent IH]; [done|]. cbn [enclosing].
  destruct (nodeAt doc (i :: parent)) as [n|] eqn:Hn; [|done].
  case_decide as Hname.
  - intros [= <-]. split_and!; [done|done|by exists n].
  - intros Hp. destruct (IH Hp) as (? & ? & ?). split_and!; [done| |done].
    by apply suffix_cons_r.
Qed.

Lemma findTargetParagraph_sound doc placeholder (textNodes : list NodeRef) p :
  findTargetParagraph doc placeholder textNodes = Some p →
  ∃ t n, t ∈ textNodes ∧ nodeAt doc t = Some n ∧ textContent n = placeholder
         ∧ enclosing doc W_P t = Some p.
Proof.
  induction textNodes as [|t rest IH]; [done|]. cbn [findTargetParagraph].
  assert (findTargetParagraph doc placeholder rest = Some p →
          ∃ t0 n, t0 ∈ t :: rest ∧ nodeAt doc t0 = Some n
                  ∧ textContent n = placeholder ∧ enclosing doc W_P t0 = Some p)
    as Hrest.
  { intros Hp. destruct (IH Hp) as (t0 & n & ? & ?). exists t0, n.
    split; [by right|done]. }
  destruct (nodeAt doc t) as [n|] eqn:Hn; [|done].
  case_decide as Htext; [|done].
  destruct (enclosing doc W_P t) as [q|] eqn:Hq; [|done].
  intros [= <-]. exists t, n. split; [by left|done].
Qed.

Lemma descend_cons cs i path :
  descend cs (i :: path) = cs !! i ≫= fun n => below n path.
Proof.
  cbn [descend]. destruct (cs !! i) as [n|]; [|done]. simpl.
  by destruct path, n.
Qed.

(** Induction on a node with the hypothesis for each child. *)
Lemma Node_nested_ind (P : Node → Prop)
    (HE : ∀ t a cs, Forall P cs → P (Element t a cs))
    (HT : ∀ d, P (Text d)) (HC : ∀ d, P (Comment d)) :
  ∀ n, P n.
Proof.
  fix ind 1. intros [t a cs|d|d]; [|apply HT|apply HC].
  apply HE. induction cs as [|c cs IHcs]; constructor; [apply ind|apply IHcs].
Qed.

(** The elements found below a node are elements of the name asked
    for; the reference of each is its path below the node put in front
    of the node's own reference. *)
Lemma elementsIn_sound tag (n : Node) :
  ∀ here r, r ∈ elementsIn tag n here →
    ∃ path a cs, r = rev path ++ here ∧ below n path = Some (Element tag a cs).
Proof.
  induction n as [t a cs IH| |] using Node_nested_ind; intros here r;
    [|by intros ?%elem_of_nil..].
  cbn [elementsIn]. intros [Hself|Hkids]%elem_of_app.
  - case_decide as Ht; [|by apply elem_of_nil in Hself].
    apply list_elem_of_singleton in Hself as ->. subst t.
    by exists [], a, cs.
  - assert (∀ l i, Forall (fun c => ∀ here r, r ∈ elementsIn tag c here →
                ∃ path a cs, r = rev path ++ here
                             ∧ below c path = Some (Element tag a cs)) l →
              r ∈ (fix children (cs : list Node) (i : nat) : list NodeRef :=
                     match cs with
                     | [] => []
                     | c :: r => elementsIn tag c (i :: here) ++ children r (S i)
                     end) l i →
              ∃ k c path a' cs', l !! k = Some c ∧ r = rev path ++ (i + k)%nat :: here
                                 ∧ below c path = Some (Element tag a' cs')) as Hlist.
    { clear. induction l as [|c l IHl]; intros i Hall; [by intros ?%elem_of_nil|].
      apply Forall_cons in Hall as [Hc Hl].
      intros [Hin|Hin]%elem_of_app.
      - destruct (Hc _ _ Hin) as (path & a' & cs' & -> & Hb).
        exists 0%nat, c, path, a', cs'. by rewrite Nat.add_0_r.
      - destruct (IHl (S i) Hl Hin) as (k & c' & path & a' & cs' & Hk & -> & Hb).
        exists (S k), c', path, a', cs'.
        split_and!; [done| |done]. do 2 f_equal. lia. }
    destruct (Hlist cs 0%nat IH Hkids) as (k & c & path & a' & cs' & Hk & -> & Hb).
    exists (k :: path), a', cs'. split.
    + cbn [rev]. by rewrite <- (assoc_L (++)).
    + cbn [below]. rewrite descend_cons, Hk. done.
Qed.

Lemma getElementsByTagName_sound doc tag r :
  r ∈ getElementsByTagName doc tag →
  ∃ a cs, nodeAt doc r = Some (Element tag a cs).
Proof.
  unfold getElementsByTagName, nodeAt.
  assert (∀ l i, r ∈ elementsFrom tag l i →
            ∃ k c path a cs, l !! k = Some c ∧ r = rev path ++ [(i + k)%nat]
                             ∧ below c path = Some (Element tag a cs)) as Hlist.
  { induction l as [|c l IHl]; intros i; [by intros ?%elem_of_nil|].
    cbn [elementsFrom]. intros [Hin|Hin]%elem_of_app.
    - destruct (elementsIn_sound _ _ _ _ Hin) as (path & a & cs & -> & Hb).
      exists 0%nat, c, path, a, cs. by rewrite Nat.add_0_r.
    - destruct (IHl (S i) Hin) as (k & c' & path & a & cs & Hk & -> & Hb).
      exists (S k), c', path, a, cs. split_and!; [done| |done].
      by replace (i + S k)%nat with (S i + k)%nat by lia. }
  intros Hr. destruct (Hlist _ _ Hr) as (k & c & path & a & cs & Hk & -> & Hb).
  exists a, cs. rewrite rev_app_distr, rev_involutive. cbn [rev app Nat.add].
  by rewrite descend_cons, Hk.
Qed.
End Tree.

(** X7.  Replacing a node of a document puts the new node at that
    place: looking the place up gives the new node, the document keeps
    its number of top-level nodes, and a place on another branch holds
    what it held. *)
Theorem replaced_node_is_found doc ref old new :
  nodeAt doc ref = Some old →
  nodeAt (replaceChild doc ref new) ref = Some new
  ∧ length (replaceChild doc ref new) = length doc
  ∧ ∀ other, diverge (rev ref) (rev other) →
      nodeAt (replaceChild doc ref new) other = nodeAt doc other.
Proof.
  unfold nodeAt, replaceChild. intros Hold. split_and!.
  - by eapply descend_replaceAt.
  - apply replaceAt_length.
  - intros other Hd. by apply descend_replaceAt_other.
Qed.

Lemma replaced_node_is_found_witness :
  nodeAt (replaceChild [Element W_P [] [Text (js "a")]; Element W_P [] []]
            [0%nat; 0%nat] (Text (js "b"))) [0%nat; 0%nat]
  = Some (Text (js "b")).
Proof.
  apply (replaced_node_is_found _ [0%nat; 0%nat] (Text (js "a"))). reflexivity.
Defined.

(** X8.  The paragraph that the search returns is a [w:p] element
    strictly above a [w:t] element of the document whose text is the
    placeholder. *)
Theorem target_paragraph_encloses_placeholder doc placeholder p :
  findTargetParagraph doc placeholder (getElementsByTagName doc W_T) = Some p →
  ∃ t a cs pn,
    nodeAt doc t = Some (Element W_T a cs)
    ∧ textContent (Element W_T a cs) = placeholder
    ∧ p ≠ [] ∧ p ≠ t ∧ p `suffix_of` t
    ∧ nodeAt doc p = Some pn ∧ nodeName pn = W_P.
Proof.
  intros Hfind.
  destruct (findTargetParagraph_sound _ _ _ _ Hfind) as (t & n & Ht & Hn & Htext & Hp).
  destruct (getElementsByTagName_sound _ _ _ Ht) as (a & cs & Ht').
  destruct (enclosing_sound _ _ _ _ Hp) as (Hne & Hsuf & pn & Hpn & Hname).
  assert (n = Element W_T a cs) as -> by congruence.
  exists t, a, cs, pn. split_and!; try done.
  intros ->. rewrite Ht' in Hpn. injection Hpn as <-. by vm_compute in Hname.
Qed.

Lemma target_paragraph_encloses_placeholder_witness :
  ∃ t a cs pn,
    nodeAt [Element W_P [] [Element (js "w:r") [] [Element W_T [] [Text (js "S")]]]] t
      = Some (Element W_T a cs)
    ∧ textContent (Element W_T a cs) = js "S"
    ∧ [0%nat] ≠ [] ∧ [0%nat] ≠ t ∧ [0%nat] `suffix_of` t
    ∧ nodeAt [Element W_P [] [Element (js "w:r") [] [Element W_T [] [Text (js "S")]]]]
        [0%nat] = Some pn
    ∧ nodeName pn = W_P.
Proof.
  apply target_paragraph_encloses_placeholder. vm_compute. reflexivity.
Defined.

(** ** Numbers as text *)

Section NumberText.
Implicit Types (s l : jsstring) (c m : N) (x : number).

Lemma uintChars_digits u : Forall (fun c => isDigit c = true) (uintChars u).
Proof. induction u; cbn [uintChars]; by constructor. Qed.

Lemma decimal_digits m : Forall (fun c => isDigit c = true) (decimal m).
Proof. apply uintChars_digits. Qed.

Lemma dropZeros_split l : ∃ z, l = replicate z 48 ++ dropZeros l.
Proof.
  induction l as [|c l [z IH]]; [by exists 0%nat|]. cbn [dropZeros].
  destruct (N.eqb_spec c 48) as [->|]; [|by exists 0%nat].
  exists (S z). cbn [replicate app]. by rewrite <- IH.
Qed.

Lemma rev_replicate (z : nat) c : rev (replicate z c) = replicate z c.
Proof.
  induction z as [|z IH]; [done|]. cbn [replicate rev]. rewrite IH.
  by rewrite <- replicate_S_end.
Qed.

(** The digits without their trailing zeros, then the zeros. *)
Lemma significand_split l :
  rev (dropZeros (rev l))
    ++ replicate (length l - length (rev (dropZeros (rev l)))) 48 = l.
Proof.
  destruct (dropZeros_split (rev l)) as [z Hz].
  assert (l = rev (dropZeros (rev l)) ++ replicate z 48) as Hl.
  { rewrite <- (rev_involutive l) at 1. rewrite Hz at 1.
    by rewrite rev_app_distr, rev_replicate. }
  clear Hz. generalize dependent (rev (dropZeros (rev l))). intros sig ->.
  rewrite length_app, length_replicate.
  by replace (length sig + z - length sig)%nat with z by lia.
Qed.

Lemma significand_digits l :
  Forall (fun c => isDigit c = true) l →
  Forall (fun c => isDigit c = true) (rev (dropZeros (rev l))).
Proof.
  intros Hl. rewrite <- (significand_split l) in Hl.
  by apply Forall_app in Hl as [? _].
Qed.

Lemma decimal_zero : decimal 0 = js "0".
Proof. reflexivity. Qed.

Lemma Number_toString_whole m :
  (length (decimal m) ≤ 21)%nat → Number_toString (Finite false m 0) = decimal m.
Proof.
  intros Hlen. cbn [Number_toString].
  destruct (N.eqb_spec m 0) as [->|Hm]; [done|]. cbv zeta.
  set (ds := decimal m) in *. set (sig := rev (dropZeros (rev ds))).
  rewrite Z.add_0_r.
  assert (length sig ≤ length ds)%nat as Hle.
  { pose proof (f_equal length (significand_split ds)) as Hs.
    rewrite length_app, length_replicate in Hs. fold sig in Hs. lia. }
  rewrite (proj2 (andb_true_iff _ _)) by (split; apply Z.leb_le; lia).
  cbn [app]. rewrite <- Nat2Z.inj_sub, Nat2Z.id by done.
  apply significand_split.
Qed.

Lemma isNumberChar_digit c : isDigit c = true → isNumberChar c = true.
Proof. unfold isNumberChar. by intros ->. Qed.

(** A number is printed with number characters only. *)
Lemma Number_toString_chars x :
  Forall (fun c => isNumberChar c = true) (Number_toString x).
Proof.
  assert (∀ l, Forall (fun c => isDigit c = true) l →
               Forall (fun c => isNumberChar c = true) l) as Hdig.
  { intros l Hl. eapply Forall_impl; [exact Hl|apply isNumberChar_digit]. }
  destruct x as [|neg|neg m e]; cbn [Number_toString].
  - by repeat constructor.
  - destruct neg; by repeat constructor.
  - destruct (m =? 0); [by repeat constructor|]. cbv zeta.
    pose proof (Hdig _ (significand_digits _ (decimal_digits m))) as Hsig.
    set (sig := rev (dropZeros (rev (decimal m)))) in *.
    apply Forall_app. split; [destruct neg; by repeat constructor|].
    repeat case_match; repeat (apply Forall_app; split);
      try (by repeat constructor);
      try done;
      try (by apply Forall_take); try (by apply Forall_drop);
      try (apply Forall_replicate; by vm_compute);
      try (apply Hdig, decimal_digits).
Qed.

Lemma isNumberChar_not_reserved c : isNumberChar c = true → isReserved c = false.
Proof.
  unfold isNumberChar, isReserved. intros Hc.
  destruct (N.eqb_spec c 38) as [->|]; [by vm_compute in Hc|].
  destruct (N.eqb_spec c 60) as [->|]; [by vm_compute in Hc|].
  destruct (N.eqb_spec c 62) as [->|]; [by vm_compute in Hc|]. done.
Qed.

Lemma escapeChar_plain c : isReserved c = false → escapeChar c = [c].
Proof.
  unfold isReserved, escapeChar.
  by destruct (c =? 38), (c =? 60), (c =? 62).
Qed.

Lemma escape_plain s :
  Forall (fun c => isReserved c = false) s → flat_map escapeChar s = s.
Proof.
  induction 1 as [|c s Hc _ IH]; [done|]. cbn [flat_map].
  by rewrite escapeChar_plain, IH.
Qed.

Lemma escapeChar_length c : (1 ≤ length (escapeChar c))%nat.
Proof.
  unfold escapeChar. destruct (c =? 38), (c =? 60), (c =? 62); vm_compute; lia.
Qed.
End NumberText.

Lemma sanitize_number x : sanitize (VNum x) = Number_toString x.
Proof.
  rewrite sanitize_escapeChar. apply escape_plain.
  eapply Forall_impl; [apply Number_toString_chars|].
  apply isNumberChar_not_reserved.
Qed.

Lemma isNumberChar_xml c : isNumberChar c = true → isXmlUnit c = true ∧ c ≠ 13.
Proof.
  unfold isNumberChar. intros [Hd|Hm]%orb_true_iff.
  - unfold isDigit in Hd. apply andb_true_iff in Hd as [H1%N.leb_le H2%N.leb_le].
    split; [|lia]. unfold isXmlUnit.
    assert ((32 <=? c) && (c <=? 55295) = true) as ->; [|by rewrite !orb_true_r].
    apply andb_true_iff. split; apply N.leb_le; lia.
  - apply bool_decide_eq_true in Hm.
    assert (js "-+.eNaInfity"
            = [45; 43; 46; 101; 78; 97; 73; 110; 102; 105; 116; 121]) as E
      by (vm_compute; reflexivity).
    rewrite E in Hm.
    repeat (apply elem_of_cons in Hm as [->|Hm]; [by split; [vm_compute|]|]).
    by apply elem_of_nil in Hm.
Qed.

(** A printed number is made of XML characters and has one line. *)
Lemma number_text_xml x :
  xmlChars (Number_toString x) = true ∧ 13 ∉ Number_toString x.
Proof.
  pose proof (Number_toString_chars x) as Hchars. split.
  - apply xmlChars_units. eapply Forall_impl; [exact Hchars|].
    intros c Hc. by apply isNumberChar_xml.
  - intros Hin. eapply Forall_forall in Hchars; [|exact Hin].
    by apply isNumberChar_xml in Hchars as [_ ?].
Qed.

Lemma parseText_number x : parseText (sanitize (VNum x)) = Some (Number_toString x).
Proof.
  destruct (number_text_xml x) as [Hxml Hcr].
  rewrite parseText_sanitize. cbn [String_]. rewrite Hxml.
  unfold normalizeLines. by rewrite normalizeFrom_plain.
Qed.

(** C9.  For every item list and total the fragment is the table
    opening, one [<w:tr>] row per entry of [tableRows] and the closing
    tag, and the last row is made of three cells: the label cell with
    [gridSpan] 6, right-aligned; the cell of the total value, centered
    and without span; an empty cell. *)
Theorem total_row_three_cells items total :
  generateTableXml items total
  = TABLE_OPEN ++ concat (rowXml <$> tableRows items total) ++ xml "</w:tbl>"
  ∧ ∃ label value empty,
      last (tableRows items total) = Some [label; value; empty]
      ∧ cellReads (cellXml label) [GRID_SPAN_6; JC_RIGHT; BOLD_RUN] [JC_CENTER]
          (js "合计：")
      ∧ cellReads (cellXml value) [JC_CENTER; BOLD_RUN] [GRID_SPAN; JC_RIGHT]
          (sanitize (VNum total))
      ∧ parseText (sanitize (VNum total)) = Some (Number_toString total)
      ∧ cellReads (cellXml empty) [JC_CENTER] [GRID_SPAN; BOLD_RUN; JC_RIGHT] [].
Proof.
  split; [apply generateTableXml_rows|].
  eexists _, _, _. split; [apply tableRows_last|].
  unfold cellXml. cbn [content isBold align gridSpan]. split_and!.
  - apply (total_label_cell (VStr (js "合计："))).
  - apply total_value_cell.
  - apply parseText_number.
  - apply (plain_cell (VStr [])).
Qed.


(** X9.  A number is embedded in a cell as [String] prints it: no
    character of it is replaced; nor does it hold a comma or a line
    feed, the separators of the CSV export. *)
Theorem numbers_are_embedded_as_printed x :
  sanitize (VNum x) = Number_toString x
  ∧ (44 ∉ Number_toString x) ∧ (10 ∉ Number_toString x).
Proof.
  pose proof (Number_toString_chars x) as Hchars. split_and!.
  - apply sanitize_number.
  - intros Hin. eapply Forall_forall in Hchars; [|exact Hin]. by vm_compute in Hchars.
  - intros Hin. eapply Forall_forall in Hchars; [|exact Hin]. by vm_compute in Hchars.
Qed.




Lemma upFrom_In (fuel : nat) (start r : N) :
  start ≤ r → r < start + N.of_nat fuel → In r (upFrom fuel start).
Proof.
  revert start. induction fuel as [|fuel IH]; intros start Hle Hlt; [lia|].
  cbn [upFrom]. destruct (N.eq_dec start r) as [->|Hne]; [by left|].
  right. apply IH; lia.
Qed.

Lemma decimal_short (r : N) : r < 100000 → (length (decimal r) ≤ 5)%nat.
Proof.
  intros Hr.
  assert (forallb (fun n => length (decimal n) <=? 5)%nat
                  (upFrom (N.to_nat 100000) 0) = true) as Hall
    by (vm_compute; reflexivity).
  rewrite forallb_forall in Hall. apply Nat.leb_le, Hall, upFrom_In; [lia|].
  rewrite N2Nat.id. lia.
Qed.

(** X11.  The sentinel is the fixed prefix, the decimal digits of the
    random number (at most five) and three underscores.  It holds no
    character that the table builder would replace and no brace, and
    trimming leaves it as it is. *)
Theorem sentinel_is_plain (random : N) :
  random < 100000 →
  tablePlaceholder random
  = js "___INSERT_TABLE_HERE_" ++ decimal random ++ js "___"
  ∧ (length (decimal random) ≤ 5)%nat
  ∧ sanitize (VStr (tablePlaceholder random)) = tablePlaceholder random
  ∧ trim (tablePlaceholder random) = tablePlaceholder random
  ∧ matchAll (tablePlaceholder random) = [].
Proof.
  intros Hr. pose proof (decimal_short random Hr) as Hlen.
  assert (tablePlaceholder random
          = js "___INSERT_TABLE_HERE_" ++ decimal random ++ js "___") as Heq.
  { unfold tablePlaceholder. rewrite Number_toString_whole; [done|lia]. }
  assert (Forall (fun c => isSentinelChar c = true) (tablePlaceholder random))
    as Hchars.
  { rewrite Heq. apply Forall_app. split; [|apply Forall_app; split].
    - apply Forall_forall. intros c Hc. apply list_elem_of_In in Hc.
      revert c Hc. apply forallb_forall. vm_compute. reflexivity.
    - eapply Forall_impl; [apply decimal_digits|].
      intros c Hc. unfold isSentinelChar. by rewrite Hc.
    - by repeat constructor. }
  assert (∀ c, isSentinelChar c = true →
               isReserved c = false ∧ isWhiteSpace c = false ∧ c ≠ 123) as Hplain.
  { intros c. unfold isSentinelChar, isDigit, isReserved, isWhiteSpace.
    rewrite !orb_true_iff, !andb_true_iff, !N.leb_le, N.eqb_eq.
    intros Hc. rewrite !orb_false_iff, !andb_false_iff, !N.eqb_neq, !N.leb_gt.
    lia. }
  split_and!; [done|done|..].
  - rewrite sanitize_escapeChar. apply escape_plain.
    eapply Forall_impl; [exact Hchars|]. intros c Hc. by apply Hplain.
  - apply trim_fixed; intros c Hc; apply Hplain.
    + apply head_Some_elem_of in Hc. by eapply Forall_forall in Hchars.
    + apply last_Some_elem_of in Hc. by eapply Forall_forall in Hchars.
  - rewrite <- (app_nil_r (tablePlaceholder random)). apply matchAll_plain.
    intros Hin. eapply Forall_forall in Hchars; [|exact Hin].
    by destruct (Hplain _ Hchars) as (_ & _ & ?).
Qed.

Lemma sentinel_is_plain_witness :
  tablePlaceholder 42 = js "___INSERT_TABLE_HERE_" ++ decimal 42 ++ js "___"
  ∧ (length (decimal 42) ≤ 5)%nat
  ∧ sanitize (VStr (tablePlaceholder 42)) = tablePlaceholder 42
  ∧ trim (tablePlaceholder 42) = tablePlaceholder 42
  ∧ matchAll (tablePlaceholder 42) = [].
Proof. apply sentinel_is_plain. reflexivity. Defined.

(** X12.  Escaping loses nothing and adds only where it must: two
    values that are embedded as the same text print as the same text;
    a text without [&], [<] and [>] is embedded as it is; the embedded
    text is never shorter than the printed one. *)
Theorem escaping_is_injective :
  (∀ a b, sanitize a = sanitize b → String_ a = String_ b)
  ∧ (∀ v, Forall (fun c => isReserved c = false) (String_ v) →
          sanitize v = String_ v)
  ∧ (∀ v, (length (String_ v) ≤ length (sanitize v))%nat).
Proof.
  split_and!.
  - intros a b Heq. rewrite !sanitize_escapeChar in Heq. by apply escape_inj.
  - intros v Hv. rewrite sanitize_escapeChar. by apply escape_plain.
  - intros v. rewrite sanitize_escapeChar.
    induction (String_ v) as [|c s IH]; [done|]. cbn [flat_map].
    rewrite length_app. pose proof (escapeChar_length c). simpl. lia.
Qed.

(** ** Splitting text *)

Section Splitting.
Implicit Types (s pat piece rest : jsstring).

Lemma differs_app s pat rest :
  differs s pat = true → differs (s ++ rest) pat = true.
Proof.
  revert pat. induction s as [|c s IH]; intros [|p pat]; try done. simpl.
  destruct (c =? p); [apply IH|done].
Qed.

Lemma differs_startsWith s pat : differs s pat = true → startsWith s pat = false.
Proof.
  revert s. induction pat as [|p pat IH]; intros [|c s]; try done. simpl.
  destruct (c =? p); [apply IH|done].
Qed.

Lemma noMatchIn_app pat s1 s2 :
  noMatchIn pat s1 = true → noMatchIn pat s2 = true →
  noMatchIn pat (s1 ++ s2) = true.
Proof.
  intros H1 H2. induction s1 as [|c s1 IH]; [done|].
  cbn [noMatchIn] in H1. apply andb_true_iff in H1 as [Hd H1].
  pose proof (differs_app (c :: s1) pat s2 Hd) as Hd'.
  rewrite <- app_comm_cons in Hd' |- *. cbn [noMatchIn].
  rewrite Hd'. by apply IH.
Qed.

(** Text without the first character of the pattern holds no match. *)
Lemma noMatchIn_absent p pat s : p ∉ s → noMatchIn (p :: pat) s = true.
Proof.
  induction s as [|c s IH]; [done|].
  intros [Hc Hs]%not_elem_of_cons. cbn [noMatchIn differs].
  destruct (N.eqb_spec c p); [congruence|]. by apply IH.
Qed.

Lemma splitFrom_skip pat k acc skipped rest :
  length skipped = k →
  splitFrom pat k acc (skipped ++ rest) = splitFrom pat 0 acc rest.
Proof.
  revert k. induction skipped as [|c skipped IH]; intros k <-; [done|].
  cbn [length app splitFrom]. by apply IH.
Qed.

(** Up to the first occurrence of the separator, which is behind a
    piece that holds no match. *)
Lemma splitFrom_piece p pat acc piece rest :
  noMatchIn (p :: pat) piece = true →
  splitFrom (p :: pat) 0 acc (piece ++ (p :: pat) ++ rest)
  = (rev acc ++ piece) :: splitFrom (p :: pat) 0 [] rest.
Proof.
  revert acc. induction piece as [|c piece IH]; intros acc Hno.
  - pose proof (startsWith_app (p :: pat) rest) as Hs.
    rewrite <- app_comm_cons in Hs. rewrite app_nil_l, <- app_comm_cons.
    cbn [splitFrom].
    rewrite Hs, app_nil_r. f_equal. apply splitFrom_skip.
    cbn [length]. lia.
  - cbn [noMatchIn] in Hno. apply andb_true_iff in Hno as [Hd Hno].
    pose proof (differs_startsWith _ _
      (differs_app _ _ ((p :: pat) ++ rest) Hd)) as Hs.
    rewrite <- app_comm_cons in Hs |- *. cbn [splitFrom].
    rewrite Hs, IH by done. cbn [rev]. by rewrite <- (assoc_L (++)).
Qed.

Lemma splitFrom_last p pat acc piece :
  noMatchIn (p :: pat) piece = true →
  splitFrom (p :: pat) 0 acc piece = [rev acc ++ piece].
Proof.
  revert acc. induction piece as [|c piece IH]; intros acc Hno.
  - by rewrite app_nil_r.
  - cbn [noMatchIn] in Hno. apply andb_true_iff in Hno as [Hd Hno].
    cbn [splitFrom]. rewrite (differs_startsWith _ _ Hd).
    rewrite IH by done. cbn [rev]. by rewrite <- (assoc_L (++)).
Qed.

Lemma split_piece p pat piece rest :
  noMatchIn (p :: pat) piece = true →
  split (piece ++ (p :: pat) ++ rest) (p :: pat) = piece :: split rest (p :: pat).
Proof. intros Hno. unfold split. by rewrite splitFrom_piece. Qed.

Lemma split_last p pat piece :
  noMatchIn (p :: pat) piece = true → split piece (p :: pat) = [piece].
Proof. intros Hno. unfold split. by rewrite splitFrom_last. Qed.

(** Splitting what [join] put together gives the pieces back, when no
    piece holds a match of the separator. *)
Lemma split_joinStrings p pat x (l : list jsstring) :
  Forall (fun piece => noMatchIn (p :: pat) piece = true) (x :: l) →
  split (joinStrings (p :: pat) (x :: l)) (p :: pat) = x :: l.
Proof.
  revert x. induction l as [|y l IH]; intros x [Hx Hl]%Forall_cons.
  - by apply split_last.
  - change (joinStrings (p :: pat) (x :: y :: l))
      with (x ++ (p :: pat) ++ joinStrings (p :: pat) (y :: l)).
    rewrite split_piece by done. by rewrite IH.
Qed.
End Splitting.

(** ** The CSV export read back *)

Section CsvReadBack.
Implicit Types (items : list ProductItem) (total : number) (v : value).

(** A value whose text holds neither a comma nor a line feed. *)
Let plain v : Prop := 44 ∉ String_ v ∧ 10 ∉ String_ v.

Lemma notin_check (c : N) (s : jsstring) :
  forallb (fun x => negb (x =? c)) s = true → c ∉ s.
Proof.
  intros Hall Hin%list_elem_of_In. eapply forallb_forall in Hall; [|exact Hin].
  by rewrite N.eqb_refl in Hall.
Qed.

Lemma number_text_plain x : 44 ∉ Number_toString x ∧ 10 ∉ Number_toString x.
Proof.
  pose proof (Number_toString_chars x) as Hchars.
  split; intros Hin; eapply Forall_forall in Hchars; try exact Hin;
    by vm_compute in Hchars.
Qed.

Lemma joinStrings_notin c sep (l : list jsstring) :
  c ∉ sep → Forall (fun s => c ∉ s) l → c ∉ joinStrings sep l.
Proof.
  intros Hsep. induction 1 as [|x l Hx Hl IH]; [by apply not_elem_of_nil|].
  destruct l as [|y l]; [done|].
  change (joinStrings sep (x :: y :: l))
    with (x ++ sep ++ joinStrings sep (y :: l)).
  rewrite !not_elem_of_app. done.
Qed.

Lemma csvRows_content items total :
  csvContent items total = joinStrings [10] (join [44] <$> csvRows items total).
Proof.
  assert (js "," = [44]) as Hcomma by (vm_compute; reflexivity).
  assert (js "
" = [10]) as Hfeed by (vm_compute; reflexivity).
  unfold csvContent, csvRows. rewrite Hcomma, Hfeed. by rewrite fmap_cons.
Qed.

Lemma item_rows_plain items (number : nat → number) :
  Forall csvSafe items →
  Forall (fun row => row ≠ [] ∧ Forall plain row)
    (imap (fun index item =>
       [VNum (number index); VStr (name item); VStr (model item);
        VStr (unit item); VNum (quantity item); VNum (price item);
        VNum (amount item); VStr (remark item)]) items).
Proof.
  intros Hsafe. revert number.
  induction Hsafe as [|item items Hitem _ IH]; intros number; [constructor|].
  cbn [imap]. constructor; [|apply (IH (number ∘ S))].
  split; [done|]. unfold csvSafe in Hitem.
  rewrite !Forall_cons in Hitem. destruct Hitem as (? & ? & ? & ? & _).
  repeat (constructor; [first [exact (number_text_plain _)|assumption]|]).
  constructor.
Qed.

Lemma item_rows_length items (number : nat → number) :
  Forall (fun row : list value => length row = 8%nat)
    (imap (fun index item =>
       [VNum (number index); VStr (name item); VStr (model item);
        VStr (unit item); VNum (quantity item); VNum (price item);
        VNum (amount item); VStr (remark item)]) items).
Proof.
  revert number. induction items as [|item items IH]; intros number;
    [constructor|].
  cbn [imap]. constructor; [done|apply (IH (number ∘ S))].
Qed.

Lemma csvRows_plain items total :
  Forall csvSafe items →
  Forall (fun row => row ≠ [] ∧ Forall plain row) (csvRows items total).
Proof.
  intros Hsafe. unfold csvRows. constructor; [|apply Forall_app; split].
  - split; [done|]. apply Forall_fmap, Forall_forall. intros s Hs.
    unfold plain. cbn [compose String_]. revert s Hs. apply Forall_forall.
    unfold headers.
    repeat (constructor; [by split; apply notin_check; vm_compute|]).
    constructor.
  - by apply item_rows_plain.
  - constructor; [|constructor]. split; [done|].
    repeat (constructor;
      [first [exact (number_text_plain _)
             |by split; apply notin_check; vm_compute]|]).
    constructor.
Qed.

Lemma row_reads_back (row : list value) :
  row ≠ [] → Forall plain row → split (join [44] row) [44] = String_ <$> row.
Proof.
  intros Hne Hrow. unfold join. destruct row as [|v row]; [done|].
  rewrite fmap_cons. apply split_joinStrings. rewrite <- fmap_cons.
  apply Forall_fmap. eapply Forall_impl; [exact Hrow|].
  intros w [Hw _]. by apply noMatchIn_absent.
Qed.

Lemma row_one_line (row : list value) :
  Forall plain row → noMatchIn [10] (join [44] row) = true.
Proof.
  intros Hrow. apply noMatchIn_absent, joinStrings_notin.
  - by apply notin_check.
  - apply Forall_fmap. eapply Forall_impl; [exact Hrow|]. by intros w [_ Hw].
Qed.
End CsvReadBack.

(** X13.  When no name, model, unit or remark holds a comma or a line
    feed, the CSV text reads back as the table: cut at the line feeds
    and then at the commas it is the header, the items in order, each
    with its position, and the total row, every line with eight
    fields. *)
Theorem csv_reads_back items total :
  Forall csvSafe items →
  (fun line => split line COMMA) <$> split (csvContent items total) NEWLINE
  = fmap String_ <$> csvRows items total
  ∧ length (split (csvContent items total) NEWLINE) = (length items + 2)%nat
  ∧ Forall (fun fields : list jsstring => length fields = 8%nat)
      ((fun line => split line COMMA)
         <$> split (csvContent items total) NEWLINE).
Proof.
  intros Hsafe. pose proof (csvRows_plain items total Hsafe) as Hrows.
  assert (COMMA = [44]) as -> by (vm_compute; reflexivity).
  unfold NEWLINE. rewrite csvRows_content.
  assert (split (joinStrings [10] (join [44] <$> csvRows items total)) [10]
          = join [44] <$> csvRows items total) as ->.
  { unfold csvRows in *. rewrite fmap_cons. apply split_joinStrings.
    rewrite <- fmap_cons. apply Forall_fmap.
    eapply Forall_impl; [exact Hrows|]. intros row [_ Hrow].
    by apply row_one_line. }
  assert ((fun line => split line [44]) <$> (join [44] <$> csvRows items total)
          = fmap String_ <$> csvRows items total) as Hread.
  { rewrite <- list_fmap_compose. apply Forall_fmap_ext.
    eapply Forall_impl; [exact Hrows|]. intros row [Hne Hrow].
    by apply row_reads_back. }
  split_and!.
  - exact Hread.
  - unfold csvRows. rewrite length_fmap. cbn [length].
    rewrite length_app, length_imap. cbn [length]. lia.
  - rewrite Hread. apply Forall_fmap. unfold csvRows.
    constructor; [done|]. apply Forall_app. split.
    + eapply Forall_impl;
        [apply (item_rows_length items (fun index => ofNat (index + 1)))|].
      intros row Hlen. cbn [compose]. by rewrite length_fmap.
    + by repeat constructor.
Qed.

Lemma csv_reads_back_witness :
  (fun line => split line COMMA)
    <$> split (csvContent [mkItem (js "1") (js "螺栓") (js "M8") (js "个")
                             (ofNat 2) (ofNat 3) (ofNat 6) []] (ofNat 6))
          NEWLINE
  = fmap String_
      <$> csvRows [mkItem (js "1") (js "螺栓") (js "M8") (js "个")
                     (ofNat 2) (ofNat 3) (ofNat 6) []] (ofNat 6)
  ∧ length (split (csvContent [mkItem (js "1") (js "螺栓") (js "M8") (js "个")
                                 (ofNat 2) (ofNat 3) (ofNat 6) []] (ofNat 6))
              NEWLINE) = (length [mkItem (js "1") (js "螺栓") (js "M8") (js "个")
                                 (ofNat 2) (ofNat 3) (ofNat 6) []] + 2)%nat
  ∧ Forall (fun fields : list jsstring => length fields = 8%nat)
      ((fun line => split line COMMA)
         <$> split (csvContent [mkItem (js "1") (js "螺栓") (js "M8") (js "个")
                                  (ofNat 2) (ofNat 3) (ofNat 6) []] (ofNat 6))
               NEWLINE).
Proof.
  apply (csv_reads_back
           [mkItem (js "1") (js "螺栓") (js "M8") (js "个")
              (ofNat 2) (ofNat 3) (ofNat 6) []] (ofNat 6)).
  repeat constructor; by apply notin_check; vm_compute.
Defined.

(** ** The table fragment read back *)

Section ReadBack.
#[local] Opaque xml.
Implicit Types (c : CellCall) (cells : list CellCall) (pat junk : jsstring).

(** A cell whose alignment holds no [<] and whose value is made of XML
    characters. *)
Let cellReadable c : Prop := 60 ∉ align c ∧ xmlChars (String_ (content c)) = true.

Lemma split_first pat piece rest :
  pat ≠ [] → noMatchIn pat piece = true →
  split (piece ++ pat ++ rest) pat = piece :: split rest pat.
Proof. destruct pat; [done|]. intros _. apply split_piece. Qed.

Lemma split_whole pat piece :
  pat ≠ [] → noMatchIn pat piece = true → split piece pat = [piece].
Proof. destruct pat; [done|]. intros _. apply split_last. Qed.

Lemma noMatchIn_text pat s :
  head pat = Some 60 → 60 ∉ s → noMatchIn pat s = true.
Proof.
  destruct pat as [|p pat]; [done|]. intros [= ->]. apply noMatchIn_absent.
Qed.

Lemma digits_no_markup l : Forall (fun d => isDigit d = true) l → 60 ∉ l.
Proof.
  intros Hl Hin. eapply Forall_forall in Hl; [|exact Hin]. by vm_compute in Hl.
Qed.

Lemma createCell_parts v bold al span :
  createCell v bold al span
  = CELL_LEAD ++ TC_OPEN ++ cellBody (mkCellCall v bold al span).
Proof.
  unfold createCell, cellBody, cellHead. cbv zeta.
  cbn [content isBold align gridSpan].
  unfold GRID_OPEN, GRID_END, BOLD_RUN.
  lazymatch goal with
  | |- ?a ++ ?g ++ ?b ++ ?al ++ ?c ++ ?bo ++ ?d ++ ?sc ++ ?e = _ =>
    assert (a = CELL_LEAD ++ TC_OPEN ++ HEAD_1) as Ha by (vm_compute; reflexivity);
    assert (b = HEAD_2) as Hb by reflexivity;
    assert (c = HEAD_3) as Hc by reflexivity;
    assert (d = HEAD_4 ++ T_OPEN) as Hd by (vm_compute; reflexivity);
    assert (e = T_CLOSE ++ CELL_TAIL) as He by (vm_compute; reflexivity);
    rewrite Ha, Hb, Hc, Hd, He
  end.
  by rewrite <- !(assoc_L (++)).
Qed.

Lemma literalsClean_parts pat :
  literalsClean pat = true →
  Forall (fun s => noMatchIn pat s = true)
    [CELL_LEAD; HEAD_1; GRID_OPEN; GRID_END; HEAD_2; HEAD_3; BOLD_RUN;
     HEAD_4; T_CLOSE; CELL_TAIL; TR_CLOSE; TBL_CLOSE; TR_CLOSE ++ TBL_CLOSE].
Proof. intros Hlit. apply Forall_forall. intros s Hs%list_elem_of_In.
  unfold literalsClean in Hlit. by eapply forallb_forall in Hlit. Qed.

Lemma cellHead_clean pat bold al span :
  head pat = Some 60 → literalsClean pat = true → 60 ∉ al →
  noMatchIn pat (cellHead bold al span) = true.
Proof.
  intros Hpat Hlit%literalsClean_parts Hal.
  rewrite !Forall_cons in Hlit.
  destruct Hlit as (_ & H1 & Hgo & Hge & H2 & H3 & Hbo & H4 & _).
  unfold cellHead.
  apply noMatchIn_app; [exact H1|]. apply noMatchIn_app.
  { destruct (0 <? span); [|reflexivity].
    apply noMatchIn_app; [exact Hgo|]. apply noMatchIn_app; [|exact Hge].
    apply noMatchIn_text; [exact Hpat|].
    apply digits_no_markup, decimal_digits. }
  apply noMatchIn_app; [exact H2|].
  apply noMatchIn_app; [by apply noMatchIn_text|].
  apply noMatchIn_app; [exact H3|].
  apply noMatchIn_app; [destruct bold; [exact Hbo|reflexivity]|exact H4].
Qed.

Lemma sanitize_clean pat v : head pat = Some 60 → noMatchIn pat (sanitize v) = true.
Proof. intros Hpat. apply noMatchIn_text; [done|]. apply sanitize_no_markup. Qed.

Lemma cellBody_clean pat c :
  head pat = Some 60 → literalsClean pat = true →
  noMatchIn pat T_OPEN = true → 60 ∉ align c →
  noMatchIn pat (cellBody c) = true.
Proof.
  intros Hpat Hlit Hopen Hal. pose proof (literalsClean_parts pat Hlit) as Hparts.
  rewrite !Forall_cons in Hparts.
  destruct Hparts as (_ & _ & _ & _ & _ & _ & _ & _ & Hclose & Htail & _).
  unfold cellBody.
  apply noMatchIn_app; [by apply cellHead_clean|].
  apply noMatchIn_app; [done|].
  apply noMatchIn_app; [by apply sanitize_clean|].
  by apply noMatchIn_app.
Qed.

Lemma cellXml_parts c : cellXml c = CELL_LEAD ++ TC_OPEN ++ cellBody c.
Proof. destruct c. unfold cellXml. apply createCell_parts. Qed.

#[local] Opaque createCell.

Lemma cells_clean pat cells :
  head pat = Some 60 → literalsClean pat = true →
  noMatchIn pat T_OPEN = true → noMatchIn pat TC_OPEN = true →
  Forall (fun c => 60 ∉ align c) cells →
  noMatchIn pat (concat (cellXml <$> cells)) = true.
Proof.
  intros Hpat Hlit Ht Htc. pose proof (literalsClean_parts pat Hlit) as Hparts.
  rewrite !Forall_cons in Hparts. destruct Hparts as (Hlead & _).
  induction 1 as [|c cells Hc _ IH]; [done|].
  rewrite fmap_cons, concat_cons, cellXml_parts.
  apply noMatchIn_app; [|done].
  apply noMatchIn_app; [done|]. apply noMatchIn_app; [done|].
  by apply cellBody_clean.
Qed.

Lemma T_OPEN_clean : literalsClean T_OPEN = true.
Proof. vm_compute. reflexivity. Qed.

Lemma TC_OPEN_clean : literalsClean TC_OPEN = true.
Proof. vm_compute. reflexivity. Qed.

Lemma TR_OPEN_clean : literalsClean TR_OPEN = true.
Proof. vm_compute. reflexivity. Qed.

(** The text of a cell is found whatever follows the cell, as long as
    no other text element does. *)
Lemma readCell_body c junk :
  60 ∉ align c → xmlChars (String_ (content c)) = true →
  noMatchIn T_OPEN junk = true →
  readCell (cellBody c ++ junk) = Some (normalizeLines (String_ (content c))).
Proof.
  intros Hal Hxml Hjunk.
  pose proof (literalsClean_parts _ T_OPEN_clean) as Hparts.
  rewrite !Forall_cons in Hparts.
  destruct Hparts as (_ & _ & _ & _ & _ & _ & _ & _ & Hclose & Htail & _).
  assert (head T_OPEN = Some 60) as Hopen by (vm_compute; reflexivity).
  assert (head T_CLOSE = Some 60) as Hcl by (vm_compute; reflexivity).
  assert (T_OPEN ≠ []) as Hne1 by (by intros E; rewrite E in Hopen).
  assert (T_CLOSE ≠ []) as Hne2 by (by intros E; rewrite E in Hcl).
  unfold readCell, between, cellBody.
  rewrite <- !(assoc_L (++)).
  rewrite (split_first T_OPEN) by
    (try done; apply cellHead_clean; try done; apply T_OPEN_clean).
  rewrite (split_whole T_OPEN); [|done|].
  2:{ apply noMatchIn_app; [by apply sanitize_clean|].
      apply noMatchIn_app; [done|]. by apply noMatchIn_app. }
  rewrite (split_first T_CLOSE) by (try done; by apply sanitize_clean).
  cbn [head default]. cbv beta delta [Datatypes.id].
  by rewrite parseText_sanitize, Hxml.
Qed.

(** Cutting a row at its cells. *)
Lemma row_pieces junk cells :
  noMatchIn TC_OPEN junk = true → noMatchIn T_OPEN junk = true →
  Forall cellReadable cells →
  ∀ piece, noMatchIn TC_OPEN piece = true →
    ∃ more rest,
      split (piece ++ concat (cellXml <$> cells) ++ junk) TC_OPEN
      = (piece ++ more) :: rest
      ∧ noMatchIn T_OPEN more = true
      ∧ readCell <$> rest
        = (fun c => Some (normalizeLines (String_ (content c)))) <$> cells.
Proof.
  intros Hj1 Hj2.
  pose proof (literalsClean_parts _ T_OPEN_clean) as HT.
  pose proof (literalsClean_parts _ TC_OPEN_clean) as HC.
  rewrite !Forall_cons in HT, HC.
  destruct HT as (HTlead & _). destruct HC as (HClead & _).
  assert (head TC_OPEN = Some 60) as Hopen by (vm_compute; reflexivity).
  assert (TC_OPEN ≠ []) as Hne by (by intros E; rewrite E in Hopen).
  assert (noMatchIn TC_OPEN T_OPEN = true) as Ht by (vm_compute; reflexivity).
  induction 1 as [|c cells [Hc Hxml] _ IH]; intros piece Hpiece.
  - exists junk, []. split_and!; [|done..].
    cbn [fmap list_fmap concat app]. apply split_whole; [done|].
    by apply noMatchIn_app.
  - destruct (IH (cellBody c)) as (more & rest & Hsplit & Hmore & Hread).
    { apply cellBody_clean; try done; try apply TC_OPEN_clean. }
    exists CELL_LEAD, ((cellBody c ++ more) :: rest). split_and!; [|done|].
    + rewrite fmap_cons, concat_cons, cellXml_parts.
      rewrite <- Hsplit, <- !(assoc_L (++)).
      rewrite (assoc_L (++) piece CELL_LEAD).
      apply split_first; [done|]. by apply noMatchIn_app.
    + rewrite !fmap_cons, Hread. f_equal. by apply readCell_body.
Qed.

Lemma row_reads junk cells :
  noMatchIn TC_OPEN junk = true → noMatchIn T_OPEN junk = true →
  Forall cellReadable cells →
  readCell <$> tail (split (concat (cellXml <$> cells) ++ junk) TC_OPEN)
  = (fun c => Some (normalizeLines (String_ (content c)))) <$> cells.
Proof.
  intros Hj1 Hj2 Hcells.
  destruct (row_pieces junk cells Hj1 Hj2 Hcells []) as (more & rest & Hs & _ & Hr);
    [done|].
  rewrite app_nil_l in Hs. by rewrite Hs.
Qed.

(** Cutting the fragment at its rows. *)
Lemma fragment_pieces (rows : list (list CellCall)) :
  Forall (Forall cellReadable) rows →
  ∀ piece, noMatchIn TR_OPEN piece = true →
    ∃ more rest,
      (more = [] ∨ more = TBL_CLOSE)
      ∧ split (piece ++ concat (rowXml <$> rows) ++ TBL_CLOSE) TR_OPEN
        = (piece ++ more) :: rest
      ∧ (fun row => readCell <$> tail (split row TC_OPEN)) <$> rest
        = fmap (fun c => Some (normalizeLines (String_ (content c)))) <$> rows.
Proof.
  pose proof (literalsClean_parts _ T_OPEN_clean) as HT.
  pose proof (literalsClean_parts _ TC_OPEN_clean) as HC.
  pose proof (literalsClean_parts _ TR_OPEN_clean) as HR.
  rewrite !Forall_cons in HT, HC, HR.
  destruct HT as (_&_&_&_&_&_&_&_&_&_& HT1 & _ & HT2 & _).
  destruct HC as (_&_&_&_&_&_&_&_&_&_& HC1 & _ & HC2 & _).
  destruct HR as (_&_&_&_&_&_&_&_&_&_& HR1 & HR2 & _).
  assert (head TR_OPEN = Some 60) as Hopen by (vm_compute; reflexivity).
  assert (TR_OPEN ≠ []) as Hne by (by intros E; rewrite E in Hopen).
  assert (noMatchIn TR_OPEN T_OPEN = true) as Ht by (vm_compute; reflexivity).
  assert (noMatchIn TR_OPEN TC_OPEN = true) as Htc by (vm_compute; reflexivity).
  induction 1 as [|cells rows Hcells _ IH]; intros piece Hpiece.
  - exists TBL_CLOSE, []. split_and!; [by right| |done].
    cbn [fmap list_fmap concat app]. apply split_whole; [done|].
    by apply noMatchIn_app.
  - destruct (IH (concat (cellXml <$> cells) ++ TR_CLOSE))
      as (more & rest & Hmore & Hsplit & Hread).
    { apply noMatchIn_app; [|done].
      apply cells_clean; try done; try apply TR_OPEN_clean.
      eapply Forall_impl; [exact Hcells|]. by intros c [? _]. }
    exists [], ((concat (cellXml <$> cells) ++ TR_CLOSE ++ more) :: rest).
    split_and!; [by left| |].
    + rewrite fmap_cons, concat_cons. unfold rowXml at 1.
      fold TR_OPEN TR_CLOSE.
      rewrite (assoc_L (++) _ TR_CLOSE more), <- Hsplit, app_nil_r.
      rewrite <- !(assoc_L (++)). by apply split_first.
    + rewrite !fmap_cons, Hread. f_equal.
      apply row_reads; [..|done]; by destruct Hmore as [->| ->];
        rewrite ?app_nil_r.
Qed.

Lemma tableRows_readable items total :
  Forall itemReadable items →
  Forall (Forall cellReadable) (tableRows items total).
Proof.
  intros Hitems.
  assert (60 ∉ center) as Hcenter by (apply notin_check; vm_compute; reflexivity).
  assert (60 ∉ js "right") as Hright by (apply notin_check; vm_compute; reflexivity).
  assert (∀ x, xmlChars (Number_toString x) = true) as Hnum
    by (intros x; apply number_text_xml).
  unfold tableRows. constructor; [|apply Forall_app; split].
  - unfold headerCells, headers. cbn [fmap list_fmap].
    repeat (constructor; [split; [exact Hcenter|vm_compute; reflexivity]|]).
    constructor.
  - apply Forall_forall.
    intros cells (index & item & -> & Hitem)%elem_of_lookup_imap.
    apply list_elem_of_lookup_2 in Hitem.
    eapply Forall_forall in Hitems; [|exact Hitem].
    unfold itemReadable in Hitems. rewrite !Forall_cons in Hitems.
    destruct Hitems as (? & ? & ? & ? & _).
    unfold itemCells, plainCell. cbn [fmap list_fmap].
    repeat (constructor;
      [split; [exact Hcenter|cbn [content String_]; first [apply Hnum|assumption]]|]).
    constructor.
  - constructor; [|constructor]. unfold totalCells.
    repeat (constructor;
      [split; [first [exact Hcenter|exact Hright]
              |cbn [content String_]; first [apply Hnum|vm_compute; reflexivity]]|]).
    constructor.
Qed.
#[local] Transparent createCell.
#[local] Transparent xml.
End ReadBack.

(** X14.  The table fragment holds the values it was built from and
    no markup of theirs: when the names, models, units and remarks are
    made of XML characters, cutting the fragment at [<w:tr>] and
    [<w:tc>] and reading the character data between [<w:t>] and
    [</w:t>] of each cell, as an XML parser reads it, gives the text
    of the value of that cell with its line ends normalised, row by
    row in the order header, items, total. *)
Theorem fragment_reads_back items total :
  Forall itemReadable items →
  fragmentRows (generateTableXml items total)
  = fmap (M := list) (fun c => Some (normalizeLines (String_ (content c))))
      <$> tableRows items total.
Proof.
  intros Hitems. rewrite generateTableXml_rows.
  assert (noMatchIn TR_OPEN TABLE_OPEN = true) as Hopen by (vm_compute; reflexivity).
  destruct (fragment_pieces (tableRows items total)
              (tableRows_readable items total Hitems) TABLE_OPEN Hopen)
    as (more & rest & _ & Hsplit & Hread).
  set (rows := tableRows items total) in *. clearbody rows.
  rewrite <- Hread. unfold fragmentRows.
  change (xml "</w:tbl>") with TBL_CLOSE.
  change (xml "<w:tr>") with TR_OPEN.
  by rewrite Hsplit.
Qed.

(** A name with markup and a line break in it: the cell reads as the
    name, the line break as a line feed. *)
Lemma fragment_reads_back_witness :
  fragmentRows
    (generateTableXml
       [mkItem (js "1") [60; 98; 62; 13; 10; 38] (js "M8") (js "个")
          (ofNat 2) (ofNat 3) (ofNat 6) []] (ofNat 6))
  = fmap (M := list) (fun c => Some (normalizeLines (String_ (content c))))
      <$> tableRows
            [mkItem (js "1") [60; 98; 62; 13; 10; 38] (js "M8") (js "个")
               (ofNat 2) (ofNat 3) (ofNat 6) []] (ofNat 6).
Proof.
  apply (fragment_reads_back
           [mkItem (js "1") [60; 98; 62; 13; 10; 38] (js "M8") (js "个")
              (ofNat 2) (ofNat 3) (ofNat 6) []] (ofNat 6)).
  repeat constructor.
Defined.

(** X15.  Every field of a workbook comes from a placeholder in the
    text of a string or rich-text cell: numbers and empty cells are
    never scanned.  The tag occurs in that text as it is, with a
    non-empty interior, and the name is the trimmed interior. *)
Theorem workbook_fields_come_from_text_cells workbook f :
  f ∈ extractFieldsFromExcel workbook →
  ∃ ws row v style interior,
    ws ∈ workbook ∧ row ∈ sheetRows ws ∧ Some (mkCell v style) ∈ rowCells row
    ∧ ((∃ s, v = CString s) ∨ (∃ runs, v = CRichText runs))
    ∧ interior ≠ []
    ∧ originalTag f = OPEN ++ interior ++ CLOSE
    ∧ fieldName f = trim interior
    ∧ isTable f = includes (fieldName f) TABLE_KEYWORD
    ∧ ∃ before after, scannedText v = before ++ originalTag f ++ after.
Proof.
  rewrite extractFieldsFromExcel_matches. intros Hf.
  destruct (fieldsOfMatches_from_match _ _ Hf) as (m & Hm & ->).
  unfold workbookMatches in Hm.
  apply list_elem_of_bind in Hm as (ws & Hm & Hws).
  apply list_elem_of_bind in Hm as (row & Hm & Hrow).
  apply list_elem_of_bind in Hm as (cell & Hm & Hcell).
  destruct cell as [[v style]|]; [|by apply elem_of_nil in Hm].
  assert (m ∈ matchAll (scannedText v)
          ∧ ((∃ s, v = CString s) ∨ (∃ runs, v = CRichText runs))) as [Hin Hv].
  { destruct v; cbn [cellMatches] in Hm; try (by apply elem_of_nil in Hm);
      split; eauto. }
  destruct (matchAllFrom_sound _ _ _ Hin) as (Hne & Hw & Hocc).
  exists ws, row, v, style, (group1 m). by split_and!.
Qed.

Lemma workbook_fields_come_from_text_cells_witness :
  ∃ ws row v style interior,
    ws ∈ [mkSheet
            [mkRow noStyle [Some (mkCell (CNumber (ofNat 7)) noStyle);
                            Some (mkCell (CString (js "{-甲方-}")) noStyle)]] []]
    ∧ row ∈ sheetRows ws ∧ Some (mkCell v style) ∈ rowCells row
    ∧ ((∃ s, v = CString s) ∨ (∃ runs, v = CRichText runs))
    ∧ interior ≠ []
    ∧ js "{-甲方-}" = OPEN ++ interior ++ CLOSE
    ∧ js "甲方" = trim interior
    ∧ false = includes (js "甲方") TABLE_KEYWORD
    ∧ ∃ before after, scannedText v = before ++ js "{-甲方-}" ++ after.
Proof.
  apply (workbook_fields_come_from_text_cells
           [mkSheet
              [mkRow noStyle [Some (mkCell (CNumber (ofNat 7)) noStyle);
                              Some (mkCell (CString (js "{-甲方-}")) noStyle)]] []]
           (mkField (js "{-甲方-}") (js "甲方") false)).
  vm_compute. left.
Defined.

(** ** The table editor *)

Section Editor.
Import ProductTable.
Implicit Types (items : list ProductItem) (i : jsstring).

Lemma filter_other_length items i :
  NoDup (id <$> items) →
  (length (filter (fun x => id x ≠ i) items)
   + (if decide (i ∈ id <$> items) then 1 else 0))%nat = length items.
Proof.
  induction items as [|x items IH]; [done|].
  rewrite fmap_cons. intros [Hx Hnd]%NoDup_cons. specialize (IH Hnd).
  rewrite filter_cons. destruct (decide (id x ≠ i)) as [Hne|Heq].
  - cbn [length]. destruct (decide (i ∈ id x :: (id <$> items))) as [Hin|Hout].
    + apply elem_of_cons in Hin as [->|Hin]; [done|].
      rewrite decide_True in IH by done. lia.
    + rewrite decide_False in IH; [lia|].
      intros Hin. apply Hout. by right.
  - assert (id x = i) as <- by (by destruct (decide (id x = i)); [|exfalso; auto]).
    rewrite decide_True by left. rewrite decide_False in IH by done.
    cbn [length]. lia.
Qed.

Lemma filter_other_absent items i :
  i ∉ id <$> items → filter (fun x => id x ≠ i) items = items.
Proof.
  induction items as [|x items IH]; [done|].
  rewrite fmap_cons. intros [Hx Hrest]%not_elem_of_cons.
  rewrite filter_cons, decide_True by done. by rewrite IH.
Qed.

Lemma sumAmounts_amounts items items' :
  amount <$> items = amount <$> items' → sumAmounts items = sumAmounts items'.
Proof.
  unfold sumAmounts. generalize (Some (ofNat 0)). revert items'.
  induction items as [|x items IH]; intros [|y items'] acc; try done.
  rewrite !fmap_cons. intros [= Hy Hrest]. cbn [foldl]. rewrite Hy.
  by apply IH.
Qed.
End Editor.

(** X16.  Removing a line never empties the table when the lines have
    distinct ids: the only line is kept; otherwise the line with the
    id goes and every other line stays, and an id that no line has
    changes nothing. *)
Theorem remove_keeps_a_row items i :
  NoDup (id <$> items) → items ≠ [] →
  ProductTable.removeItem i items ≠ []
  ∧ (length items = 1%nat → ProductTable.removeItem i items = items)
  ∧ (i ∉ id <$> items → ProductTable.removeItem i items = items)
  ∧ ((2 ≤ length items)%nat → i ∈ id <$> items →
       S (length (ProductTable.removeItem i items)) = length items
       ∧ i ∉ id <$> ProductTable.removeItem i items)
  ∧ (∀ x, x ∈ ProductTable.removeItem i items → x ∈ items).
Proof.
  intros Hnd Hne. pose proof (filter_other_length items i Hnd) as Hlen.
  unfold ProductTable.removeItem.
  destruct (Nat.eqb_spec (length items) 1) as [H1|H1].
  - split_and!; try done. lia.
  - assert (2 ≤ length items)%nat as H2 by (destruct items as [|? [|? ?]]; simpl in *; try done; lia).
    split_and!.
    + intros Hnil. rewrite Hnil in Hlen. cbn [length] in Hlen.
      destruct (decide (i ∈ id <$> items)); lia.
    + done.
    + apply filter_other_absent.
    + intros _ Hin. rewrite decide_True in Hlen by done. split; [lia|].
      intros (x & Hx & Hmem)%list_elem_of_fmap.
      apply list_elem_of_filter in Hmem as [Hmem _]. done.
    + by intros x [_ ?]%list_elem_of_filter.
Qed.

Lemma remove_keeps_a_row_witness :
  ProductTable.removeItem (js "2")
    [ProductTable.newItem (js "1"); ProductTable.newItem (js "2")] ≠ []
  ∧ (length [ProductTable.newItem (js "1"); ProductTable.newItem (js "2")] = 1%nat →
       ProductTable.removeItem (js "2")
         [ProductTable.newItem (js "1"); ProductTable.newItem (js "2")]
       = [ProductTable.newItem (js "1"); ProductTable.newItem (js "2")])
  ∧ (js "2" ∉ id <$> [ProductTable.newItem (js "1"); ProductTable.newItem (js "2")] →
       ProductTable.removeItem (js "2")
         [ProductTable.newItem (js "1"); ProductTable.newItem (js "2")]
       = [ProductTable.newItem (js "1"); ProductTable.newItem (js "2")])
  ∧ ((2 ≤ length [ProductTable.newItem (js "1"); ProductTable.newItem (js "2")])%nat →
     js "2" ∈ id <$> [ProductTable.newItem (js "1"); ProductTable.newItem (js "2")] →
       S (length (ProductTable.removeItem (js "2")
                    [ProductTable.newItem (js "1"); ProductTable.newItem (js "2")]))
       = length [ProductTable.newItem (js "1"); ProductTable.newItem (js "2")]
       ∧ js "2" ∉ id <$> ProductTable.removeItem (js "2")
                           [ProductTable.newItem (js "1"); ProductTable.newItem (js "2")])
  ∧ (∀ x, x ∈ ProductTable.removeItem (js "2")
                [ProductTable.newItem (js "1"); ProductTable.newItem (js "2")] →
          x ∈ [ProductTable.newItem (js "1"); ProductTable.newItem (js "2")]).
Proof.
  apply (remove_keeps_a_row
           [ProductTable.newItem (js "1"); ProductTable.newItem (js "2")] (js "2")).
  - apply (bool_decide_unpack _). vm_compute. reflexivity.
  - done.
Defined.

(** X17.  The guard counts lines, not ids: when every line has the id
    and there are two or more, removing it leaves no line at all. *)
Theorem remove_shared_id_empties items i :
  (2 ≤ length items)%nat → Forall (fun x => id x = i) items →
  ProductTable.removeItem i items = [].
Proof.
  intros Hlen Hall. unfold ProductTable.removeItem.
  destruct (Nat.eqb_spec (length items) 1) as [H1|_]; [lia|].
  clear Hlen. induction Hall as [|x items Hx _ IH]; [done|].
  rewrite filter_cons, decide_False by (by intros ?). done.
Qed.

Lemma remove_shared_id_empties_witness :
  ProductTable.removeItem (Number_toString (Finite false 1700000000000 0))
    (ProductTable.addItem (Finite false 1700000000000 0)
       (ProductTable.addItem (Finite false 1700000000000 0) []))
  = [].
Proof.
  apply (remove_shared_id_empties
           (ProductTable.addItem (Finite false 1700000000000 0)
              (ProductTable.addItem (Finite false 1700000000000 0) []))
           (Number_toString (Finite false 1700000000000 0))).
  - simpl. lia.
  - repeat constructor.
Defined.

(** X18.  A line that was added is removed again by its id: when the
    table had a line and the new id is not in use, adding and then
    removing gives the table back; on an empty table the added line is
    the only one and stays. *)
Theorem add_then_remove now items :
  Number_toString now ∉ id <$> items →
  ProductTable.removeItem (Number_toString now) (ProductTable.addItem now items)
  = match items with
    | [] => ProductTable.addItem now []
    | _ :: _ => items
    end.
Proof.
  intros Hfresh. unfold ProductTable.removeItem, ProductTable.addItem.
  rewrite length_app. cbn [length].
  destruct items as [|x items]; [done|].
  destruct (Nat.eqb_spec (length (x :: items) + 1) 1) as [H1|_];
    [cbn [length] in H1; lia|].
  rewrite filter_app, (filter_other_absent _ _ Hfresh).
  rewrite filter_cons, decide_False, filter_nil by (by intros ?).
  apply app_nil_r.
Qed.

Lemma add_then_remove_witness :
  ProductTable.removeItem (Number_toString (Finite false 1700000000000 0))
    (ProductTable.addItem (Finite false 1700000000000 0) (ProductTable.initialItems None))
  = match ProductTable.initialItems None with
    | [] => ProductTable.addItem (Finite false 1700000000000 0) []
    | _ :: _ => ProductTable.initialItems None
    end.
Proof.
  apply (add_then_remove (Finite false 1700000000000 0) (ProductTable.initialItems None)).
  apply (bool_decide_unpack _). vm_compute. reflexivity.
Defined.

(** X19.  Editing a text column changes that column of the lines with
    the id and nothing else: the number of lines, their ids,
    quantities, prices and amounts stay, and so does the total. *)
Theorem text_edit_keeps_amounts i field value items :
  let items' := ProductTable.handleInputChange i field value items in
  length items' = length items
  ∧ id <$> items' = id <$> items
  ∧ quantity <$> items' = quantity <$> items
  ∧ price <$> items' = price <$> items
  ∧ amount <$> items' = amount <$> items
  ∧ sumAmounts items' = sumAmounts items
  ∧ (∀ x, x ∈ items → id x ≠ i → x ∈ items').
Proof.
  intros items'. subst items'. unfold ProductTable.handleInputChange.
  assert (∀ (A : Type) (f : ProductItem → A),
            (∀ fd v x, f (ProductTable.withField fd v x) = f x) →
            f <$> ((fun item => if decide (id item ≠ i) then item
                                else ProductTable.withField field value item)
                     <$> items) = f <$> items) as Hkeep.
  { intros A f Hf. rewrite <- list_fmap_compose. apply list_fmap_ext.
    intros k x _. cbn [compose]. destruct (decide (id x ≠ i)); [done|apply Hf]. }
  assert (amount <$> ((fun item => if decide (id item ≠ i) then item
                                   else ProductTable.withField field value item)
                        <$> items) = amount <$> items) as Hamount
    by (apply Hkeep; by intros [] ? []).
  split_and!.
  - apply length_fmap.
  - apply Hkeep. by intros [] ? [].
  - apply Hkeep. by intros [] ? [].
  - apply Hkeep. by intros [] ? [].
  - exact Hamount.
  - by apply sumAmounts_amounts.
  - intros x Hx Hid. apply list_elem_of_fmap. exists x.
    by rewrite decide_True.
Qed.

(** ** The text service *)

(** X20.  Polishing never loses the draft and never fails.  Without a
    key, or with an empty one, the result is the draft and the error
    "API Key not found" goes to the console.  With a key, a failed
    call gives the draft and its error goes to the console; an answer
    without text, or with white space only, gives the draft; any other
    answer gives the answer trimmed; nothing on the console in these.
    So the result is the draft or a non-empty trimmed text, and is not
    empty when the draft is not. *)
Theorem polish_falls_back_to_draft `{Gemini.GenAI} apiKey fieldName draft :
  let r := Gemini.enhanceText apiKey fieldName draft in
  let failed error :=
    (draft, [ConsoleError (js "Gemini enhancement failed:") error]) in
  (apiKey = None ∨ apiKey = Some [] →
     r = failed (mkError (js "API Key not found")))
  ∧ (∀ key, apiKey = Some key → key ≠ [] →
       match Gemini.generateContent key Gemini.MODEL
               (Gemini.enhancePrompt fieldName draft) false with
       | Rejected error => r = failed error
       | Resolved None => r = (draft, [])
       | Resolved (Some answer) =>
         r = (if decide (trim answer = []) then draft else trim answer, [])
       end)
  ∧ (r.1 = draft ∨ (r.1 ≠ [] ∧ trim r.1 = r.1))
  ∧ (draft ≠ [] → r.1 ≠ [])
  ∧ (r.2 ≠ [] → r.1 = draft).
Proof.
  intros r failed. subst r failed.
  unfold Gemini.enhanceText, Gemini.getAiClient.
  destruct apiKey as [[|k key]|].
  - split_and!; cbn [fst snd]; eauto. by intros key [= <-].
  - destruct (Gemini.generateContent _ _ _ _) as [[answer|]|error] eqn:Hcall.
    + cbn [fmap option_fmap option_map].
      destruct (trim answer) as [|c polished] eqn:Htrim.
      * split_and!; cbn [fst snd]; eauto.
        -- by intros [[=]|[=]].
        -- intros ? [= <-] _. by rewrite Hcall, Htrim.
      * cbn [fst snd]. rewrite <- Htrim. split_and!.
        -- by intros [[=]|[=]].
        -- intros ? [= <-] _. rewrite Hcall.
           by rewrite decide_False by (by rewrite Htrim).
        -- right. split; [by rewrite Htrim|apply trim_idempotent].
        -- intros _. by rewrite Htrim.
        -- done.
    + split_and!; cbn [fst snd]; eauto.
      * by intros [[=]|[=]].
      * intros ? [= <-] _. by rewrite Hcall.
    + split_and!; cbn [fst snd]; eauto.
      * by intros [[=]|[=]].
      * intros ? [= <-] _. by rewrite Hcall.
  - split_and!; cbn [fst snd]; eauto. by intros key [=].
Qed.

(** X21.  The table suggestion is never the empty text.  Without a
    key, or with an empty one, it is the text of an empty array and the
    error "API Key not found" goes to the console.  With a key, a
    failed call gives the text of an empty array and its error goes to
    the console; an answer without text gives the text of an empty
    array; any other answer is handed on as it is, not trimmed and not
    parsed; nothing on the console in these. *)
Theorem suggestion_is_never_empty `{Gemini.GenAI} apiKey description :
  let r := Gemini.suggestTableData apiKey description in
  let failed error :=
    (Gemini.EMPTY_ARRAY,
     [ConsoleError (js "Gemini table suggestion failed:") error]) in
  (apiKey = None ∨ apiKey = Some [] →
     r = failed (mkError (js "API Key not found")))
  ∧ (∀ key, apiKey = Some key → key ≠ [] →
       match Gemini.generateContent key Gemini.MODEL
               (Gemini.tablePrompt description) true with
       | Rejected error => r = failed error
       | Resolved (Some ((_ :: _) as answer)) => r = (answer, [])
       | Resolved _ => r = (Gemini.EMPTY_ARRAY, [])
       end)
  ∧ r.1 ≠ []
  ∧ (r.2 ≠ [] → r.1 = Gemini.EMPTY_ARRAY).
Proof.
  intros r failed. subst r failed.
  unfold Gemini.suggestTableData, Gemini.getAiClient.
  assert (Gemini.EMPTY_ARRAY ≠ []) as Hne by (by vm_compute).
  destruct apiKey as [[|k key]|].
  - split_and!; cbn [fst snd]; eauto. by intros key [= <-].
  - destruct (Gemini.generateContent _ _ _ _) as [[[|c json]|]|error] eqn:Hcall;
      cbn [fst snd]; split_and!; eauto; try done;
      try (by intros [[=]|[=]]); intros ? [= <-] _; by rewrite Hcall.
  - split_and!; cbn [fst snd]; eauto. by intros key [=].
Qed.

(** ** The wizard *)

Section Wizard.
Import App.
Implicit Types (s : State) (e : Event) (events : list Event).

Lemma dispatch_inRange s e : e ≠ NewFile → inRange s → inRange (dispatch s e).
Proof.
  intros He. unfold inRange, dispatch.
  destruct s as [st f fs idx data busy err]. cbn [step currentFieldIndex fields].
  destruct st, e; try done; cbn [step currentFieldIndex fields]; intros Hin.
  - by destruct uploadedFile.
  - destruct extracted as [thrown|[|x extracted]]; cbn; [done..|]. subst. lia.
  - unfold handleNext. cbn [currentFieldIndex fields].
    destruct (Z.ltb_spec (Z.of_nat idx) (Z.of_nat (length fs) - 1)).
    + cbn. lia.
    + unfold handleGenerate. cbn. by destruct f.
  - unfold handleBack. cbn [currentFieldIndex].
    destruct (Nat.ltb_spec 0 idx); cbn; [lia|done].
  - unfold handleInputChange, currentField. cbn [currentFieldIndex fields].
    by destruct (fs !! idx).
  - by destruct thrown.
Qed.

Lemma run_inRange events s :
  NewFile ∉ events → inRange s → inRange (run events s).
Proof.
  revert s. induction events as [|e events IH]; intros s Hev Hs; [done|].
  apply not_elem_of_cons in Hev as [He Hev]. cbn [run foldl].
  apply IH; [done|]. by apply dispatch_inRange.
Qed.

Lemma run_app events1 events2 s :
  run (events1 ++ events2) s = run events2 (run events1 s).
Proof. apply foldl_app. Qed.

(** [k] times Next from the first field. *)
Lemma run_next k f fs data busy err idx :
  (idx + k < length fs)%nat →
  run (replicate k Next) (mkState WIZARD f fs idx data busy err)
  = mkState WIZARD f fs (idx + k) data busy err.
Proof.
  revert idx. induction k as [|k IH]; intros idx Hk.
  - by rewrite Nat.add_0_r.
  - cbn [replicate run foldl dispatch step]. unfold handleNext.
    cbn [currentFieldIndex fields].
    destruct (Z.ltb_spec (Z.of_nat idx) (Z.of_nat (length fs) - 1)); [|lia].
    unfold setCurrentFieldIndex. cbn. change (foldl dispatch) with (fun s l => run l s).
    cbn beta. rewrite IH by lia. f_equal. lia.
Qed.
End Wizard.

(** X22.  Until a new file is asked for, the wizard always has a
    current field: from the start, whatever the events, the index is
    that of a field in the wizard, while generating and when done, and
    zero before. *)
Theorem wizard_has_current_field events :
  App.NewFile ∉ events →
  App.inRange (App.run events App.initial)
  ∧ (App.step (App.run events App.initial) = App.WIZARD →
       is_Some (App.currentField (App.run events App.initial))).
Proof.
  intros Hev. assert (App.inRange (App.run events App.initial)) as Hin
    by (by apply run_inRange).
  split; [done|]. intros Hstep. unfold App.inRange in Hin. rewrite Hstep in Hin.
  by apply lookup_lt_is_Some.
Qed.

Lemma wizard_has_current_field_witness :
  App.inRange
    (App.run [App.FileChosen (Some (js "a.docx"));
              App.Scanned (inr [mkField (js "{-甲方-}") (js "甲方") false]);
              App.Typed (js "某公司"); App.Back] App.initial)
  ∧ (App.step
       (App.run [App.FileChosen (Some (js "a.docx"));
                 App.Scanned (inr [mkField (js "{-甲方-}") (js "甲方") false]);
                 App.Typed (js "某公司"); App.Back] App.initial) = App.WIZARD →
     is_Some
       (App.currentField
          (App.run [App.FileChosen (Some (js "a.docx"));
                    App.Scanned (inr [mkField (js "{-甲方-}") (js "甲方") false]);
                    App.Typed (js "某公司"); App.Back] App.initial))).
Proof.
  apply (wizard_has_current_field
           [App.FileChosen (Some (js "a.docx"));
            App.Scanned (inr [mkField (js "{-甲方-}") (js "甲方") false]);
            App.Typed (js "某公司"); App.Back]).
  intros Hin. repeat (apply elem_of_cons in Hin as [[=]|Hin]).
  by apply elem_of_nil in Hin.
Defined.

(** X23.  Asking for a new file does not reset the wizard: after a
    run over [first] to the end and a new upload that gives [second],
    the wizard opens at the position of the last field of [first], not
    at the first field; and when
    [second] is shorter than [first] there is no current field. *)
Theorem new_file_keeps_position name1 name2 first second :
  first ≠ [] → second ≠ [] →
  let s :=
    App.run ([App.FileChosen (Some name1); App.Scanned (inr first)]
             ++ replicate (length first) App.Next
             ++ [App.Generated None; App.NewFile;
                 App.FileChosen (Some name2); App.Scanned (inr second)])
      App.initial in
  App.step s = App.WIZARD
  ∧ App.fields s = second
  ∧ App.currentFieldIndex s = (length first - 1)%nat
  ∧ ((length second < length first)%nat → App.currentField s = None).
Proof.
  intros H1 H2 s. subst s.
  destruct first as [|x first]; [done|]. destruct second as [|y second]; [done|].
  cbn [length]. rewrite replicate_S_end.
  rewrite !run_app.
  change (App.run [App.FileChosen (Some name1); App.Scanned (inr (x :: first))]
            App.initial)
    with (App.mkState App.WIZARD (Some name1) (x :: first) 0 ∅ false None).
  rewrite (run_next (length first)) by (cbn [length]; lia).
  cbn [Nat.add].
  set (s1 := App.mkState App.WIZARD (Some name1) (x :: first) (length first)
               ∅ false None).
  assert (App.run [App.Next] s1
          = App.mkState App.GENERATING (Some name1) (x :: first) (length first)
              ∅ true None) as ->.
  { subst s1. cbn [App.run foldl App.dispatch App.step]. unfold App.handleNext.
    cbn [App.currentFieldIndex App.fields length].
    destruct (Z.ltb_spec (Z.of_nat (length first))
                (Z.of_nat (S (length first)) - 1)); [lia|]. reflexivity. }
  cbn. split_and!; try done; try lia.
  intros Hlen. apply lookup_ge_None_2. cbn [length]. lia.
Qed.

Lemma new_file_keeps_position_witness :
  let s :=
    App.run ([App.FileChosen (Some (js "a.docx"));
              App.Scanned (inr [mkField (js "{-甲方-}") (js "甲方") false;
                                mkField (js "{-乙方-}") (js "乙方") false])]
             ++ replicate (length [mkField (js "{-甲方-}") (js "甲方") false;
                                   mkField (js "{-乙方-}") (js "乙方") false])
                  App.Next
             ++ [App.Generated None; App.NewFile;
                 App.FileChosen (Some (js "b.docx"));
                 App.Scanned (inr [mkField (js "{-日期-}") (js "日期") false])])
      App.initial in
  App.step s = App.WIZARD
  ∧ App.fields s = [mkField (js "{-日期-}") (js "日期") false]
  ∧ App.currentFieldIndex s
    = (length [mkField (js "{-甲方-}") (js "甲方") false;
               mkField (js "{-乙方-}") (js "乙方") false] - 1)%nat
  ∧ ((length [mkField (js "{-日期-}") (js "日期") false]
      < length [mkField (js "{-甲方-}") (js "甲方") false;
                mkField (js "{-乙方-}") (js "乙方") false])%nat →
     App.currentField s = None).
Proof.
  apply (new_file_keeps_position (js "a.docx") (js "b.docx")
           [mkField (js "{-甲方-}") (js "甲方") false;
            mkField (js "{-乙方-}") (js "乙方") false]
           [mkField (js "{-日期-}") (js "日期") false]); done.
Defined.

(** X24.  Putting the table in adds one row per item and one for the
    total, and loses none: the header takes the anchor row, so a sheet
    with the anchor in it grows by the number of items plus one. *)
Theorem table_adds_rows ws anchor td :
  (1 ≤ anchor ≤ length (sheetRows ws))%nat →
  length (sheetRows (insertTable ws (Z.of_nat anchor) (Some td)))
  = (length (sheetRows ws) + length (items td) + 1)%nat.
Proof.
  intros [H1 H2]. destruct anchor as [|a]; [lia|].
  rewrite insertTable_rows.
  replace (a - length (sheetRows ws))%nat with 0%nat by lia.
  cbn [replicate]. rewrite app_nil_r.
  rewrite length_app, length_take. cbn [length].
  rewrite length_app, length_imap. cbn [length]. rewrite length_drop. lia.
Qed.

Lemma table_adds_rows_witness :
  length (sheetRows (insertTable twoRowSheet (Z.of_nat 1) (Some unchecked)))
  = (length (sheetRows twoRowSheet) + length (items unchecked) + 1)%nat.
Proof.
  apply (table_adds_rows twoRowSheet 1 unchecked). vm_compute.
  split; repeat constructor.
Defined.

(** ** The row of the table placeholder *)

Section Anchor.
Implicit Types (tf : option FieldDefinition) (rows : list Row) (row : Row).

Lemma cells_fold tf (n t : Z) (cells : list (option Cell)) :
  foldl (fun t c => if holdsTag tf c then n else t) t cells
  = if existsb (holdsTag tf) cells then n else t.
Proof.
  revert t. induction cells as [|c cells IH]; intros t; [done|].
  cbn [foldl existsb]. rewrite IH.
  destruct (holdsTag tf c); cbn [orb]; [|done]. by destruct (existsb _ cells).
Qed.

Lemma findInsertionRow_snoc tf rows row cols :
  findInsertionRow tf (mkSheet (rows ++ [row]) cols)
  = if rowHolds tf row then Z.of_nat (S (length rows))
    else findInsertionRow tf (mkSheet rows cols).
Proof.
  unfold findInsertionRow. cbn [sheetRows].
  rewrite imap_app, foldl_app. cbn [imap foldl]. rewrite Nat.add_0_r.
  apply cells_fold.
Qed.

Lemma findInsertionRow_none tf rows cols :
  Forall (fun row => rowHolds tf row = false) rows →
  findInsertionRow tf (mkSheet rows cols) = (-1)%Z.
Proof.
  induction rows as [|row rows IH] using rev_ind; [done|].
  intros [Hrows Hrow%Forall_inv]%Forall_app.
  by rewrite findInsertionRow_snoc, Hrow, IH.
Qed.

Lemma findInsertionRow_last tf rows cols k row :
  rows !! k = Some row → rowHolds tf row = true →
  Forall (fun row' => rowHolds tf row' = false) (drop (S k) rows) →
  findInsertionRow tf (mkSheet rows cols) = Z.of_nat (S k).
Proof.
  revert k row. induction rows as [|x rows IH] using rev_ind; intros k row Hk Hrow Hlater.
  - done.
  - rewrite findInsertionRow_snoc.
    destruct (decide (k = length rows)) as [->|Hne].
    + rewrite list_lookup_middle in Hk by done. injection Hk as ->.
      by rewrite Hrow.
    + assert (k < length rows)%nat as Hlt.
      { apply lookup_lt_Some in Hk. rewrite length_app in Hk. simpl in Hk. lia. }
      rewrite lookup_app_l in Hk by done.
      rewrite drop_app_le in Hlater by lia.
      apply Forall_app in Hlater as [Hlater Hx%Forall_inv].
      rewrite Hx. by eapply IH.
Qed.

Lemma findInsertionRow_range tf rows cols :
  findInsertionRow tf (mkSheet rows cols) = (-1)%Z
  ∨ (1 ≤ findInsertionRow tf (mkSheet rows cols) ≤ Z.of_nat (length rows))%Z.
Proof.
  induction rows as [|x rows IH] using rev_ind; [by left|].
  rewrite findInsertionRow_snoc, length_app. cbn [length].
  destruct (rowHolds tf x); [right; lia|].
  destruct IH as [IH|IH]; [by left|right; lia].
Qed.

(** A placeholder the scan found stands in the text the generator
    reads. *)
Lemma scanned_cell_holds (c : option Cell) m :
  m ∈ cellMatches c → holdsTag (Some (fieldOf m)) c = true.
Proof.
  destruct c as [[v style]|]; [|by intros ?%elem_of_nil].
  unfold holdsTag. cbn [mbind option_bind cellText cellValue fieldOf originalTag].
  destruct v as [|x|s|runs]; cbn [cellMatches scannedText];
    try (by intros ?%elem_of_nil).
  - intros Hm. destruct (matchAllFrom_sound _ _ _ Hm) as (_ & _ & l & r & Hs).
    apply includes_spec. by exists l, r.
  - destruct (concat runs) as [|c0 text] eqn:Hruns.
    + intros Hm. exfalso. revert Hm. vm_compute. by intros ?%elem_of_nil.
    + intros Hm. destruct (matchAllFrom_sound _ _ _ Hm) as (_ & _ & l & r & Hs).
      apply includes_spec. exists l, r. by rewrite Hruns.
Qed.
End Anchor.

(** X25.  The table goes to the last row that holds the tag: the row
    found is -1 exactly when no text cell of the sheet holds the tag
    of the table field, and otherwise the number of the last row with
    such a cell, which is a row of the sheet; an earlier row with the
    tag is not the anchor. *)
Theorem anchor_is_last_row_with_tag tableField ws :
  (findInsertionRow tableField ws = (-1)%Z
   ↔ Forall (fun row => rowHolds tableField row = false) (sheetRows ws))
  ∧ (findInsertionRow tableField ws = (-1)%Z
     ∨ (1 ≤ findInsertionRow tableField ws ≤ Z.of_nat (length (sheetRows ws)))%Z)
  ∧ (∀ k row,
       sheetRows ws !! k = Some row → rowHolds tableField row = true →
       Forall (fun later => rowHolds tableField later = false)
         (drop (S k) (sheetRows ws)) →
       findInsertionRow tableField ws = Z.of_nat (S k))
  ∧ (tableField = None → findInsertionRow tableField ws = (-1)%Z).
Proof.
  destruct ws as [rows cols]. cbn [sheetRows]. split_and!.
  - split; [|apply findInsertionRow_none].
    induction rows as [|x rows IH] using rev_ind; [constructor|].
    rewrite findInsertionRow_snoc. destruct (rowHolds tableField x) eqn:Hx; [lia|].
    intros Hrest. apply Forall_app. split; [by apply IH|by constructor].
  - apply findInsertionRow_range.
  - intros k row. apply findInsertionRow_last.
  - intros ->. apply findInsertionRow_none, Forall_forall. intros row _.
    unfold rowHolds. by induction (rowCells row).
Qed.

(** A placeholder that the scan of a workbook found has a row in one
    of the sheets. *)
Lemma scanned_field_has_row workbook f :
  f ∈ extractFieldsFromExcel workbook →
  ∃ ws, ws ∈ workbook
    ∧ (1 ≤ findInsertionRow (Some f) ws ≤ Z.of_nat (length (sheetRows ws)))%Z.
Proof.
  rewrite extractFieldsFromExcel_matches. intros Hf.
  destruct (fieldsOfMatches_from_match _ _ Hf) as (m & Hm & ->).
  unfold workbookMatches in Hm.
  apply list_elem_of_bind in Hm as (ws & Hm & Hws).
  apply list_elem_of_bind in Hm as (row & Hm & Hrow).
  apply list_elem_of_bind in Hm as (cell & Hm & Hcell).
  exists ws. split; [done|]. destruct ws as [rows cols]. cbn [sheetRows] in *.
  destruct (findInsertionRow_range (Some (fieldOf m)) rows cols) as [Hnone|Hin];
    [|done].
  exfalso.
  assert (Forall (fun row => rowHolds (Some (fieldOf m)) row = false) rows) as Hall.
  { clear -Hnone. revert Hnone.
    induction rows as [|x rows IH] using rev_ind; [constructor|].
    rewrite findInsertionRow_snoc.
    destruct (rowHolds (Some (fieldOf m)) x) eqn:Hx; [lia|].
    intros Hrest. apply Forall_app. split; [by apply IH|by constructor]. }
  eapply Forall_forall in Hall; [|exact Hrow].
  unfold rowHolds in Hall.
  assert (existsb (holdsTag (Some (fieldOf m))) (rowCells row) = true) as Hex.
  { apply existsb_exists. exists cell. split; [by apply list_elem_of_In|].
    by apply scanned_cell_holds. }
  congruence.
Qed.

(** X26.  The table field that the generator picks from the scan of a
    workbook, the first field that is a table field, is found again by
    its first pass: some sheet of the workbook has a row for the tag,
    and the row is one of the sheet. *)
Theorem scanned_tag_has_anchor workbook f :
  findTableField (Some (extractFieldsFromExcel workbook)) = Some f →
  isTable f = true
  ∧ ∃ ws, ws ∈ workbook
      ∧ (1 ≤ findInsertionRow
               (findTableField (Some (extractFieldsFromExcel workbook))) ws
         ≤ Z.of_nat (length (sheetRows ws)))%Z.
Proof.
  intros Hf. rewrite Hf. unfold findTableField in Hf. cbn in Hf.
  apply find_some in Hf as [Hin Htable]. split; [done|].
  by apply scanned_field_has_row, list_elem_of_In.
Qed.

Lemma scanned_tag_has_anchor_witness :
  isTable (mkField (js "{-商品信息表格-}") TABLE_KEYWORD true) = true
  ∧ ∃ ws, ws ∈ [mkSheet
                  [mkRow noStyle [Some (mkCell (CString (js "{-甲方-}")) noStyle)];
                   mkRow noStyle [Some (mkCell (CString (js "{-商品信息表格-}")) noStyle)]]
                  []]
      ∧ (1 ≤ findInsertionRow
               (findTableField
                  (Some (extractFieldsFromExcel
                     [mkSheet
                        [mkRow noStyle [Some (mkCell (CString (js "{-甲方-}")) noStyle)];
                         mkRow noStyle [Some (mkCell (CString (js "{-商品信息表格-}")) noStyle)]]
                        []]))) ws
         ≤ Z.of_nat (length (sheetRows ws)))%Z.
Proof.
  apply (scanned_tag_has_anchor
           [mkSheet
              [mkRow noStyle [Some (mkCell (CString (js "{-甲方-}")) noStyle)];
               mkRow noStyle [Some (mkCell (CString (js "{-商品信息表格-}")) noStyle)]]
              []]
           (mkField (js "{-商品信息表格-}") TABLE_KEYWORD true)).
  vm_compute. reflexivity.
Defined.
